(** * whatsapp-automation-beta: mention resolution and conversation context

    A shallow embedding of the JavaScript sources

      - [src/messageStore.js] and [src/src/core/messageStore.js]
        (the two [MessageStore] classes),
      - [src/src/services/mentionService.js] (mention extraction and
        relay; its second part, from [User Data Service] on, holds the
        conversation records),
      - [src/src/handlers/messageHandler.js] (the per-message pipeline),

    together with the properties the specification states about them.

    JavaScript strings are sequences of UTF-16 code units; regular
    expressions without the [u] flag work on code units.  A string is
    therefore a [list N].  JavaScript [Map]s enumerate their keys in
    insertion order, which the FIFO eviction relies on, so a [Map] is an
    association list kept in insertion order. *)

From Stdlib Require Import String Ascii.
From Stdlib Require Import List NArith Arith Bool Lia.
Import ListNotations.

Set Implicit Arguments.

(** ** Strings *)

Definition code_unit := N.
Definition jsstring := list code_unit.

(** String literals of the sources are written as UTF-8 text and decoded
    to code units: one unit for a code point below [0x10000], a surrogate
    pair above. *)
Definition utf16_of_code_point (cp : N) : jsstring :=
  if (cp <? 0x10000)%N then [cp]
  else [(0xD800 + N.shiftr (cp - 0x10000) 10)%N;
        (0xDC00 + N.land (cp - 0x10000) 0x3FF)%N].

Definition cont (b : N) : N := N.land b 0x3F.

Fixpoint utf8_decode (bytes : list N) : jsstring :=
  match bytes with
  | [] => []
  | b :: t =>
      if (b <? 0x80)%N then b :: utf8_decode t
      else if (b <? 0xE0)%N then
        match t with
        | b1 :: t1 =>
            utf16_of_code_point (N.shiftl (N.land b 0x1F) 6 + cont b1)
              ++ utf8_decode t1
        | _ => []
        end
      else if (b <? 0xF0)%N then
        match t with
        | b1 :: b2 :: t2 =>
            utf16_of_code_point
              (N.shiftl (N.land b 0x0F) 12 + N.shiftl (cont b1) 6 + cont b2)
              ++ utf8_decode t2
        | _ => []
        end
      else
        match t with
        | b1 :: b2 :: b3 :: t3 =>
            utf16_of_code_point
              (N.shiftl (N.land b 0x07) 18 + N.shiftl (cont b1) 12
               + N.shiftl (cont b2) 6 + cont b3)
              ++ utf8_decode t3
        | _ => []
        end
  end.

Definition js (s : string) : jsstring :=
  utf8_decode (map N_of_ascii (list_ascii_of_string s)).

Definition cu_eqb (a b : code_unit) : bool := N.eqb a b.

Fixpoint str_eqb (a b : jsstring) : bool :=
  match a, b with
  | [], [] => true
  | x :: a', y :: b' => cu_eqb x y && str_eqb a' b'
  | _, _ => false
  end.

(** JavaScript truthiness of a value that is a string, [undefined] or
    [null]: only a non-empty string is truthy. *)
Definition truthy (v : option jsstring) : bool :=
  match v with
  | Some (_ :: _) => true
  | _ => false
  end.

(** [a || b] on such values. *)
Definition or_else (a b : option jsstring) : option jsstring :=
  if truthy a then a else b.

(** ** Messages as delivered by the transport (Baileys) *)

Record MessageKey := mkKey {
  key_id : option jsstring;
  remoteJid : option jsstring;
  participant : option jsstring
}.

Record GroupParticipant := mkGroupParticipant {
  gp_id : option jsstring;
  gp_name : option jsstring;
  gp_isAdmin : bool;
  gp_isSuperAdmin : bool
}.

Record GroupMetadata := mkGroupMetadata {
  subject : option jsstring;
  desc : option jsstring;
  gm_participants : option (list GroupParticipant)
}.

(** [message.message]: [conversation] and [extendedTextMessage.text]. *)
Record MessageContent := mkContent {
  conversation : option jsstring;
  extendedText : option jsstring
}.

Record Message := mkMessage {
  key : option MessageKey;
  content : option MessageContent;
  pushName : option jsstring;
  groupMetadata : option GroupMetadata;
  replyTo : option jsstring
}.

(** ** Insertion-ordered maps ([Map]) *)

Section OrderedMap.
Variables K V : Type.
Variable keqb : K -> K -> bool.

Definition omap := list (K * V).

Fixpoint map_get (k : K) (m : omap) : option V :=
  match m with
  | [] => None
  | (k', v) :: m' => if keqb k k' then Some v else map_get k m'
  end.

Definition map_has (k : K) (m : omap) : bool :=
  match map_get k m with Some _ => true | None => false end.

(** [Map.prototype.set]: an existing key keeps its position, a new key
    goes last. *)
Fixpoint map_set (k : K) (v : V) (m : omap) : omap :=
  match m with
  | [] => [(k, v)]
  | (k', v') :: m' =>
      if keqb k k' then (k', v) :: m' else (k', v') :: map_set k v m'
  end.

Fixpoint map_delete (k : K) (m : omap) : omap :=
  match m with
  | [] => []
  | (k', v') :: m' =>
      if keqb k k' then m' else (k', v') :: map_delete k m'
  end.

Definition map_keys (m : omap) : list K := map fst m.
Definition map_size (m : omap) : nat := length m.
End OrderedMap.

(** ** [src/messageStore.js] *)

Inductive result (A : Type) :=
| Returned (a : A)
| Thrown.
Arguments Returned {A} a.
Arguments Thrown {A}.

Module RootMessageStore.

Record MessageStore := mkStore {
  maxSize : nat;
  messages : omap jsstring Message;
  messageQueue : list jsstring
}.

(** [constructor(options = {})]: [options.maxSize || 100]. *)
Definition create (optMaxSize : option nat) : MessageStore :=
  mkStore (match optMaxSize with Some (S n) => S n | _ => 100 end) [] [].

(** [message.key.id] when [message], [message.key] and the id are all
    truthy. *)
Definition valid_id (message : option Message) : option jsstring :=
  match message with
  | Some m =>
      match key m with
      | Some k => if truthy (key_id k) then key_id k else None
      | None => None
      end
  | None => None
  end.

Definition add (s : MessageStore) (message : option Message)
  : MessageStore * result jsstring :=
  match message, valid_id message with
  | Some m, Some messageId =>
      let '(msgs, queue) :=
        if maxSize s <=? length (messageQueue s) then
          match messageQueue s with
          | oldestId :: rest => (map_delete str_eqb oldestId (messages s), rest)
          | [] => (messages s, [])
          end
        else (messages s, messageQueue s) in
      (mkStore (maxSize s) (map_set str_eqb messageId m msgs)
               (queue ++ [messageId]),
       Returned messageId)
  | _, _ => (s, Thrown)
  end.

Definition get (s : MessageStore) (messageId : jsstring) : option Message :=
  map_get str_eqb messageId (messages s).

Definition has (s : MessageStore) (messageId : jsstring) : bool :=
  map_has str_eqb messageId (messages s).

(** [indexOf] followed by [splice(index, 1)]: the first occurrence goes. *)
Fixpoint queue_remove (messageId : jsstring) (q : list jsstring) : list jsstring :=
  match q with
  | [] => []
  | x :: q' => if str_eqb x messageId then q' else x :: queue_remove messageId q'
  end.

Definition remove (s : MessageStore) (messageId : jsstring)
  : MessageStore * bool :=
  if has s messageId then
    (mkStore (maxSize s) (map_delete str_eqb messageId (messages s))
             (queue_remove messageId (messageQueue s)), true)
  else (s, false).

Definition getAll (s : MessageStore) : list Message := map snd (messages s).
Definition size (s : MessageStore) : nat := map_size (messages s).
Definition clear (s : MessageStore) : MessageStore := mkStore (maxSize s) [] [].

End RootMessageStore.

(** ** [src/src/core/messageStore.js] *)

(** Here the key is whatever [message.key.id] evaluates to, [undefined]
    included, so keys are [option jsstring]. *)
Definition okey_eqb (a b : option jsstring) : bool :=
  match a, b with
  | Some x, Some y => str_eqb x y
  | None, None => true
  | _, _ => false
  end.

Module CoreMessageStore.

Record MessageStore := mkStore {
  messages : omap (option jsstring) Message;
  maxSize : nat
}.

Definition create (optMaxSize : option nat) : MessageStore :=
  mkStore [] (match optMaxSize with Some (S n) => S n | _ => 100 end).

(** [message.key.id] throws a [TypeError] when [message] or
    [message.key] is [undefined]; a missing [id] is just [undefined]. *)
Definition add (s : MessageStore) (message : option Message)
  : MessageStore * result (option jsstring) :=
  match message with
  | Some m =>
      match key m with
      | Some k =>
          let messageId := key_id k in
          let msgs := map_set okey_eqb messageId m (messages s) in
          let msgs' :=
            if maxSize s <? map_size msgs then
              match map_keys msgs with
              | oldestKey :: _ => map_delete okey_eqb oldestKey msgs
              | [] => msgs
              end
            else msgs in
          (mkStore msgs' (maxSize s), Returned messageId)
      | None => (s, Thrown)
      end
  | None => (s, Thrown)
  end.

(** [this.messages.get(messageId) || null] *)
Definition get (s : MessageStore) (messageId : option jsstring) : option Message :=
  map_get okey_eqb messageId (messages s).

Definition remove (s : MessageStore) (messageId : option jsstring)
  : MessageStore * bool :=
  (mkStore (map_delete okey_eqb messageId (messages s)) (maxSize s),
   map_has okey_eqb messageId (messages s)).

Definition size (s : MessageStore) : nat := map_size (messages s).
Definition clear (s : MessageStore) : MessageStore := mkStore [] (maxSize s).

End CoreMessageStore.

(** ** Character classes of the regular expressions *)

Definition in_range (lo hi c : code_unit) : bool := (lo <=? c)%N && (c <=? hi)%N.

Definition ch (s : string) : code_unit :=
  match js s with c :: _ => c | [] => 0%N end.

Definition is_char (s : string) (c : code_unit) : bool := cu_eqb c (ch s).

(** [\d], [[A-Z]], [[a-z]], [[a-zA-Z]], [[a-zA-Z0-9]], [\w] *)
Definition is_digit (c : code_unit) : bool := in_range (ch "0") (ch "9") c.
Definition is_upper (c : code_unit) : bool := in_range (ch "A") (ch "Z") c.
Definition is_lower (c : code_unit) : bool := in_range (ch "a") (ch "z") c.
Definition is_alpha (c : code_unit) : bool := is_lower c || is_upper c.
Definition is_alnum (c : code_unit) : bool := is_alpha c || is_digit c.
Definition is_word (c : code_unit) : bool := is_alnum c || is_char "_" c.

(** [\s], which is also what [trim] removes: the ECMAScript [WhiteSpace]
    and [LineTerminator] code points. *)
Definition is_space (c : code_unit) : bool :=
  (in_range 0x09 0x0D c || cu_eqb c 0x20 || cu_eqb c 0xA0 || cu_eqb c 0x1680
   || in_range 0x2000 0x200A c || cu_eqb c 0x2028 || cu_eqb c 0x2029
   || cu_eqb c 0x202F || cu_eqb c 0x205F || cu_eqb c 0x3000
   || cu_eqb c 0xFEFF)%N.

Definition one_of (s : string) (c : code_unit) : bool :=
  existsb (cu_eqb c) (js s).

(** ** A backtracking matcher for the regular expressions of the sources

    [run r st] lists every way [r] can match at the state [st], in the
    order in which a backtracking matcher tries them: the head of the list
    is the match that [RegExp.prototype.exec] reports. *)

Inductive regex :=
| Chars (p : code_unit -> bool)
| Eps
| Seq (a b : regex)
| Alt (a b : regex)
| Star (a : regex)
| Group (i : nat) (a : regex)
| Bol
| Eol
| WordBoundary.

Definition Plus (a : regex) : regex := Seq a (Star a).
Definition Opt (a : regex) : regex := Alt a Eps.

Fixpoint Lit (s : jsstring) : regex :=
  match s with
  | [] => Eps
  | c :: t => Seq (Chars (cu_eqb c)) (Lit t)
  end.

Record mstate := mkState {
  pos : nat;                        (* the index of the position *)
  prev : option code_unit;          (* the code unit just before the position *)
  rest : jsstring;                  (* the input from the position on *)
  caps : list (nat * jsstring)      (* the capture groups set so far *)
}.

Definition is_word_opt (c : option code_unit) : bool :=
  match c with Some c => is_word c | None => false end.

(** The greedy star over the matcher [body]: an iteration that consumes
    nothing is not taken, so the input length bounds the iterations. *)
Fixpoint star_loop (body : mstate -> list mstate) (n : nat) (st : mstate)
  : list mstate :=
  match n with
  | 0 => [st]
  | S n' =>
      flat_map
        (fun st' => if pos st <? pos st' then star_loop body n' st' else [])
        (body st)
      ++ [st]
  end.

Fixpoint run (r : regex) (st : mstate) : list mstate :=
  match r with
  | Chars p =>
      match rest st with
      | c :: t => if p c then [mkState (S (pos st)) (Some c) t (caps st)] else []
      | [] => []
      end
  | Eps => [st]
  | Seq a b => flat_map (run b) (run a st)
  | Alt a b => run a st ++ run b st
  | Star a => star_loop (run a) (length (rest st)) st
  | Group i a =>
      map (fun st' =>
             mkState (pos st') (prev st') (rest st')
               ((i, firstn (pos st' - pos st) (rest st)) :: caps st'))
          (run a st)
  | Bol => match prev st with None => [st] | Some _ => [] end
  | Eol => match rest st with [] => [st] | _ :: _ => [] end
  | WordBoundary =>
      if xorb (is_word_opt (prev st)) (is_word_opt (hd_error (rest st)))
      then [st] else []
  end.

(** A match attempt at one position; positions count from there. *)
Definition match_here (r : regex) (p : option code_unit) (s : jsstring)
  : option mstate :=
  hd_error (run r (mkState 0 p s [])).

(** The text of capture group [i]; [None] is [undefined]. *)
Fixpoint capture (i : nat) (cs : list (nat * jsstring)) : option jsstring :=
  match cs with
  | [] => None
  | (j, t) :: cs' => if Nat.eqb i j then Some t else capture i cs'
  end.

(** The first position at or after the current one where [r] matches,
    with the text skipped on the way. *)
Fixpoint find_match (r : regex) (p : option code_unit) (s : jsstring)
  : option (jsstring * mstate) :=
  match match_here r p s with
  | Some st => Some ([], st)
  | None =>
      match s with
      | [] => None
      | c :: t =>
          match find_match r (Some c) t with
          | Some (skipped, st) => Some (c :: skipped, st)
          | None => None
          end
      end
  end.

(** [r.test(s)] and [s.search(r)] for a regular expression without [g]. *)
Definition test (r : regex) (s : jsstring) : bool :=
  match find_match r None s with Some _ => true | None => false end.

Definition search (r : regex) (s : jsstring) : option nat :=
  match find_match r None s with
  | Some (skipped, _) => Some (length skipped)
  | None => None
  end.

(** [while ((match = r.exec(s)) !== null)] for a regular expression with
    the [g] flag: the successive matches, each resuming where the one
    before ended.  None of the expressions used this way matches the empty
    string. *)
Fixpoint exec_loop (fuel : nat) (r : regex) (p : option code_unit) (s : jsstring)
  : list mstate :=
  match fuel with
  | 0 => []
  | S fuel' =>
      match find_match r p s with
      | Some (_, st) => st :: exec_loop fuel' r (prev st) (rest st)
      | None => []
      end
  end.

Definition exec_all (r : regex) (s : jsstring) : list mstate :=
  exec_loop (S (length s)) r None s.

(** [s.replace(r, replacement)] for [r] with the [g] flag and a
    replacement text without [$]: after an empty match the next code unit
    is copied and matching resumes behind it. *)
Fixpoint replace_loop (fuel : nat) (r : regex) (replacement : jsstring)
    (p : option code_unit) (s : jsstring) : jsstring :=
  match fuel with
  | 0 => s
  | S fuel' =>
      let copy_one :=
        match s with
        | [] => []
        | c :: t => c :: replace_loop fuel' r replacement (Some c) t
        end in
      match match_here r p s with
      | Some st =>
          if 0 <? pos st
          then replacement ++ replace_loop fuel' r replacement (prev st) (rest st)
          else replacement ++ copy_one
      | None => copy_one
      end
  end.

Definition replace_all (r : regex) (replacement : jsstring) (s : jsstring)
  : jsstring :=
  replace_loop (S (length s)) r replacement None s.

(** [s.split(r)]: a match at [q] ending at [e] cuts the text unless
    [e] is the start of the current piece; the empty string splits to
    one empty piece unless [r] matches it. *)
Fixpoint split_loop (fuel : nat) (r : regex) (p : option code_unit)
    (piece : jsstring) (s : jsstring) : list jsstring :=
  match fuel with
  | 0 => [piece ++ s]
  | S fuel' =>
      match s with
      | [] => [piece]
      | c :: t =>
          let advance := split_loop fuel' r (Some c) (piece ++ [c]) t in
          match match_here r p s with
          | Some st =>
              match piece, pos st =? 0 with
              | [], true => advance
              | _, _ => piece :: split_loop fuel' r (prev st) [] (rest st)
              end
          | None => advance
          end
      end
  end.

Definition split_by (r : regex) (s : jsstring) : list jsstring :=
  match s with
  | [] => match match_here r None [] with Some _ => [] | None => [[]] end
  | _ => split_loop (S (2 * length s)) r None [] s
  end.

(** ** String methods *)

Definition trimStart (s : jsstring) : jsstring :=
  (fix go (s : jsstring) : jsstring :=
     match s with
     | c :: t => if is_space c then go t else s
     | [] => []
     end) s.

Definition trim (s : jsstring) : jsstring :=
  rev (trimStart (rev (trimStart s))).

Fixpoint startsWith (s prefix : jsstring) {struct prefix} : bool :=
  match prefix, s with
  | [], _ => true
  | p :: prefix', c :: s' => cu_eqb c p && startsWith s' prefix'
  | _ :: _, [] => false
  end.

Definition endsWith (s suffix : jsstring) : bool :=
  startsWith (rev s) (rev suffix).

Fixpoint includes (s sub : jsstring) : bool :=
  startsWith s sub ||
  match s with
  | [] => false
  | _ :: s' => includes s' sub
  end.

(** [s.substring(i)] and [s.substring(0, n)] *)
Definition substring_from (i : nat) (s : jsstring) : jsstring := skipn i s.
Definition substring_to (n : nat) (s : jsstring) : jsstring := firstn n s.

(** [s.split('@')[0]] *)
Fixpoint before_at (s : jsstring) : jsstring :=
  match s with
  | [] => []
  | c :: t => if is_char "@" c then [] else c :: before_at t
  end.

(** ** [src/src/services/mentionService.js]: mention extraction *)

Definition group_text (i : nat) (st : mstate) : jsstring :=
  match capture i (caps st) with Some t => t | None => [] end.

Definition nonempty {A : Type} (s : list A) : bool :=
  match s with [] => false | _ :: _ => true end.

(** [/@\s*[\u202A]?(\+?\d+)[\u202C]?/g]: the two classes hold the
    formatting marks U+202A and U+202C, which the source has as such. *)
Definition mentionRegex : regex :=
  Seq (Chars (is_char "@"))
  (Seq (Star (Chars is_space))
  (Seq (Opt (Chars (fun c => cu_eqb c 0x202A%N)))
  (Seq (Group 1 (Seq (Opt (Chars (is_char "+"))) (Plus (Chars is_digit))))
       (Opt (Chars (fun c => cu_eqb c 0x202C%N)))))).

(** [/[^\d+]/g] and [/^\+?\d+$/] *)
Definition notDigitOrPlus : regex :=
  Chars (fun c => negb (is_digit c || is_char "+" c)).

Definition wholeNumberRegex : regex :=
  Seq Bol (Seq (Opt (Chars (is_char "+"))) (Seq (Plus (Chars is_digit)) Eol)).

(** The simpler approach taken when the expression found nothing. *)
Definition alternativeNumbers (messageText : jsstring) : list jsstring :=
  flat_map
    (fun word =>
       if startsWith word (js "@") then
         let numberPart := replace_all notDigitOrPlus [] (substring_from 1 word) in
         if nonempty numberPart && test wholeNumberRegex numberPart
         then [numberPart] else []
       else [])
    (split_by (Plus (Chars is_space)) messageText).

Definition extractMentionedNumbers (messageText : jsstring) : list jsstring :=
  match messageText with
  | [] => []
  | _ :: _ =>
      let matches :=
        map (fun st => trim (group_text 1 st)) (exec_all mentionRegex messageText) in
      match matches with
      | [] => alternativeNumbers messageText
      | _ :: _ => matches
      end
  end.

(** The [indexOf('@', atIndex + 1)] loop: every index holding [@]. *)
Fixpoint atPositionsFrom (i : nat) (s : jsstring) : list nat :=
  match s with
  | [] => []
  | c :: t =>
      if is_char "@" c then i :: atPositionsFrom (S i) t
      else atPositionsFrom (S i) t
  end.

Definition atSymbolPositions (messageText : jsstring) : list nat :=
  atPositionsFrom 0 messageText.

(** The class of [textAfterAt.search]: white space and the punctuation
    marks . , ! ? ; : with the single and the double quote (code unit
    [0x22]). *)
Definition endOfWordClass (c : code_unit) : bool :=
  is_space c || one_of ".,!?;:'" c || cu_eqb c 0x22%N.

(** [/^\s+([A-Z][a-z]+)(\s+[A-Z][a-z]+)?/] *)
Definition capitalized : regex :=
  Seq (Chars is_upper) (Plus (Chars is_lower)).

Definition moreWordsRegex : regex :=
  Seq Bol
  (Seq (Plus (Chars is_space))
  (Seq (Group 1 capitalized)
       (Opt (Group 2 (Seq (Plus (Chars is_space)) capitalized))))).

(** The body of the loop over the [@] positions, from [textAfterAt] on:
    the first word, rejected when it has a digit or is shorter than two
    code units, and the capitalized words absorbed after it. *)
Definition nameFrom (textAfterAt : jsstring) : option jsstring :=
  let endOfFirstWord :=
    match search (Chars endOfWordClass) textAfterAt with
    | Some i => i
    | None => length textAfterAt
    end in
  let firstWord := substring_to endOfFirstWord textAfterAt in
  if test (Chars is_digit) firstWord || (length firstWord <? 2) then None
  else
    let remainingText := substring_from endOfFirstWord textAfterAt in
    match find_match moreWordsRegex None remainingText with
    | Some (_, st) =>
        Some (firstWord ++ js " " ++ group_text 1 st ++ group_text 2 st)
    | None => Some firstWord
    end.

(** The name found at [position], if any: none when the [@] follows a
    letter or a digit. *)
Definition nameAt (messageText : jsstring) (position : nat) : option jsstring :=
  if (0 <? position)
     && match nth_error messageText (position - 1) with
        | Some c => is_alnum c
        | None => false
        end
  then None
  else nameFrom (substring_from (position + 1) messageText).

Fixpoint collect {A B : Type} (f : A -> option B) (l : list A) : list B :=
  match l with
  | [] => []
  | x :: l' =>
      match f x with
      | Some y => y :: collect f l'
      | None => collect f l'
      end
  end.

(** [/@([a-zA-Z]+_[a-zA-Z]+)/g] *)
Definition underscoreNameRegex : regex :=
  Seq (Chars (is_char "@"))
      (Group 1 (Seq (Plus (Chars is_alpha))
               (Seq (Chars (is_char "_")) (Plus (Chars is_alpha))))).

Definition array_includes (names : list jsstring) (n : jsstring) : bool :=
  existsb (str_eqb n) names.

Definition extractMentionedNames (messageText : jsstring) : list jsstring :=
  match messageText with
  | [] => []
  | _ :: _ =>
      let mentionedNames :=
        collect (nameAt messageText) (atSymbolPositions messageText) in
      fold_left
        (fun names underscoreMatch =>
           let nameWithUnderscore := group_text 1 underscoreMatch in
           if array_includes names nameWithUnderscore then names
           else names ++ [nameWithUnderscore])
        (exec_all underscoreNameRegex messageText)
        mentionedNames
  end.

(** [new RegExp(`@${escaped}\\b`, 'g')] where [escaped] is the mention
    with every syntax character of [[-\/\\^$*+?.()|[\]{}]] preceded by a
    backslash: the expression matches [@], then the mention code unit by
    code unit, then a word boundary. *)
Definition mentionPattern (mention : jsstring) : regex :=
  Seq (Lit (js "@" ++ mention)) WordBoundary.

(** [/@\S+\s?/g] and [/\s+/g] *)
Definition leftoverMention : regex :=
  Seq (Chars (is_char "@"))
      (Seq (Plus (Chars (fun c => negb (is_space c)))) (Opt (Chars is_space))).

Definition spaces : regex := Plus (Chars is_space).

Definition removeMentions (mentions : list jsstring) (text : jsstring) : jsstring :=
  fold_left (fun cleaned m => replace_all (mentionPattern m) [] cleaned)
            mentions text.

Definition extractActualMessage (messageText : jsstring)
    (mentionedNames mentionedNumbers : list jsstring) : jsstring :=
  match messageText with
  | [] => []
  | _ :: _ =>
      let cleanedMessage := removeMentions mentionedNames messageText in
      let cleanedMessage := removeMentions mentionedNumbers cleanedMessage in
      let cleanedMessage := replace_all leftoverMention [] cleanedMessage in
      trim (replace_all spaces (js " ") cleanedMessage)
  end.

(** ** [src/src/services/mentionService.js], user data service:
    conversation records *)

Record Profile := mkProfile {
  profile_name : option jsstring;
  profile_lastSeen : option jsstring;
  profile_updatedAt : option jsstring;
  profile_description : option jsstring;
  profile_createdAt : option jsstring;
  profile_avatar : option jsstring;
  profile_memberCount : option nat
}.

Record Sender := mkSender {
  sender_id : jsstring;
  sender_name : jsstring
}.

Record MessageObj := mkMessageObj {
  mo_id : jsstring;
  mo_timestamp : jsstring;
  mo_text : jsstring;
  mo_fromMe : bool;
  mo_sender : option Sender;
  mo_replyTo : option jsstring
}.

(** A field that an object may lack is an [option]. *)
Record Participant := mkParticipant {
  participant_name : option jsstring;
  participant_isAdmin : option bool;
  participant_isSuperAdmin : option bool;
  participant_lastSeen : option jsstring;
  participant_lastUpdated : option jsstring
}.

Record TopParticipant := mkTopParticipant {
  tp_id : jsstring;
  tp_name : jsstring;
  tp_messageCount : nat;
  tp_lastActive : jsstring
}.

Record Preferences := mkPreferences {
  language : jsstring;
  aiEnabled : bool;
  notifyOnMention : bool
}.

Record Stats := mkStats {
  messageCount : nat;
  lastActivity : jsstring;
  topParticipants : list TopParticipant
}.

Record UserData := mkUserData {
  rec_userId : jsstring;
  rec_isGroup : bool;
  profile : Profile;
  conversation_history : list MessageObj;
  participants : omap jsstring Participant;
  preferences : Preferences;
  stats : Stats
}.

(** The two data directories, and a file in one of them. *)
Inductive DataDir := GROUP_DATA_DIR | INBOX_DATA_DIR.

Definition FilePath := (DataDir * jsstring)%type.

Definition dir_eqb (a b : DataDir) : bool :=
  match a, b with
  | GROUP_DATA_DIR, GROUP_DATA_DIR => true
  | INBOX_DATA_DIR, INBOX_DATA_DIR => true
  | _, _ => false
  end.

Definition path_eqb (a b : FilePath) : bool :=
  dir_eqb (fst a) (fst b) && str_eqb (snd a) (snd b).

(** What a file holds: a record, or text that [JSON.parse] rejects. *)
Inductive FileContent :=
| Json (d : UserData)
| Unparsable.

(** The files under the data directory, each directory in the order in
    which [readdirSync] lists it. *)
Definition FileSystem := omap FilePath FileContent.

(** What the operations read from their surroundings: the clock and the
    user preferences. *)
Record Env := mkEnv {
  now : jsstring;                         (* [new Date().toISOString()] *)
  nowMs : jsstring;                       (* [Date.now().toString()] *)
  maxConversationLength : option nat;     (* [prefs.userData?.maxConversationLength] *)
  aiReplies : bool                        (* [prefs.ai?.enabled !== false] *)
}.

(** [/[^a-zA-Z0-9]/g] *)
Definition unsafeForFilenames : regex := Chars (fun c => negb (is_alnum c)).

Definition getUserDataPath (userId : jsstring) (isGroup : bool) : FilePath :=
  let cleanId := replace_all unsafeForFilenames (js "_") userId in
  let baseDir := if isGroup then GROUP_DATA_DIR else INBOX_DATA_DIR in
  (baseDir, cleanId ++ js ".json").

Definition defaultUserData (env : Env) (userId : jsstring) (isGroup : bool)
  : UserData :=
  mkUserData userId isGroup
    (mkProfile None None (Some (now env)) None (Some (now env)) None
               (if isGroup then Some 0 else None))
    []
    []
    (mkPreferences (js "auto") true true)
    (mkStats 0 (now env) []).

Definition loadUserData (env : Env) (fs : FileSystem)
    (userId : jsstring) (isGroup : bool) : UserData :=
  match map_get path_eqb (getUserDataPath userId isGroup) fs with
  | Some (Json data) => data
  | _ => defaultUserData env userId isGroup
  end.

Definition set_profile (d : UserData) (p : Profile) : UserData :=
  mkUserData (rec_userId d) (rec_isGroup d) p (conversation_history d)
             (participants d) (preferences d) (stats d).

Definition set_updatedAt (p : Profile) (t : jsstring) : Profile :=
  mkProfile (profile_name p) (profile_lastSeen p) (Some t)
            (profile_description p) (profile_createdAt p) (profile_avatar p)
            (profile_memberCount p).

Definition saveUserData (env : Env) (fs : FileSystem)
    (userId : jsstring) (isGroup : bool) (userData : UserData) : FileSystem :=
  map_set path_eqb (getUserDataPath userId isGroup)
    (Json (set_profile userData (set_updatedAt (profile userData) (now env))))
    fs.

(** The [message] argument of [addMessageToConversation]: a string or a
    message object. *)
Inductive MessageArg :=
| TextArg (text : jsstring)
| ObjectArg (m : Message).

Definition arg_key (a : MessageArg) : option MessageKey :=
  match a with ObjectArg m => key m | TextArg _ => None end.

Definition arg_pushName (a : MessageArg) : option jsstring :=
  match a with ObjectArg m => pushName m | TextArg _ => None end.

Definition arg_replyTo (a : MessageArg) : option jsstring :=
  match a with ObjectArg m => replyTo m | TextArg _ => None end.

Definition arg_groupMetadata (a : MessageArg) : option GroupMetadata :=
  match a with ObjectArg m => groupMetadata m | TextArg _ => None end.

Definition str_or (v : option jsstring) (default : jsstring) : jsstring :=
  match or_else v None with Some s => s | None => default end.

Definition arg_text (a : MessageArg) : jsstring :=
  match a with
  | TextArg text => text
  | ObjectArg m =>
      match content m with
      | Some c =>
          str_or (or_else (conversation c) (extendedText c))
                 (js "Unknown message format")
      | None => []
      end
  end.

Definition bind_opt {A B : Type} (o : option A) (f : A -> option B) : option B :=
  match o with Some a => f a | None => None end.

(** The participant entry written for a sender. *)
Definition seenParticipant (env : Env) (existing : option Participant)
    (newName : option jsstring) : Participant :=
  mkParticipant
    (Some (str_or (or_else newName (bind_opt existing participant_name))
                  (js "Unknown User")))
    (bind_opt existing participant_isAdmin)
    (bind_opt existing participant_isSuperAdmin)
    (Some (now env))
    (Some (now env)).

(** [sort((a, b) => b.messageCount - a.messageCount)]; the sort is stable. *)
Fixpoint insertByCount (x : TopParticipant) (l : list TopParticipant)
  : list TopParticipant :=
  match l with
  | [] => [x]
  | y :: l' =>
      if tp_messageCount x <? tp_messageCount y then y :: insertByCount x l'
      else x :: l
  end.

Definition sortByCount (l : list TopParticipant) : list TopParticipant :=
  fold_right insertByCount [] l.

Fixpoint bumpParticipant (env : Env) (s : Sender) (l : list TopParticipant)
  : option (list TopParticipant) :=
  match l with
  | [] => None
  | p :: l' =>
      if str_eqb (tp_id p) (sender_id s) then
        Some (mkTopParticipant (tp_id p)
                (if nonempty (sender_name s) then sender_name s else tp_name p)
                (tp_messageCount p + 1) (now env) :: l')
      else
        match bumpParticipant env s l' with
        | Some l'' => Some (p :: l'')
        | None => None
        end
  end.

Definition updateTopParticipants (env : Env) (s : Sender)
    (l : list TopParticipant) : list TopParticipant :=
  let counted :=
    match bumpParticipant env s l with
    | Some l' => l'
    | None =>
        l ++ [mkTopParticipant (sender_id s)
                (if nonempty (sender_name s) then sender_name s
                 else js "Unknown User")
                1 (now env)]
    end in
  firstn 10 (sortByCount counted).

(** [conversation.slice(-maxConversationLength)] *)
Definition lastN {A : Type} (n : nat) (l : list A) : list A :=
  skipn (length l - n) l.

Definition conversationLimit (env : Env) : nat :=
  match maxConversationLength env with
  | Some (S n) => S n
  | _ => 100
  end.

Definition set_name (p : Profile) (n : option jsstring) : Profile :=
  mkProfile n (profile_lastSeen p) (profile_updatedAt p)
            (profile_description p) (profile_createdAt p) (profile_avatar p)
            (profile_memberCount p).

Definition set_description (p : Profile) (d : option jsstring) : Profile :=
  mkProfile (profile_name p) (profile_lastSeen p) (profile_updatedAt p)
            d (profile_createdAt p) (profile_avatar p) (profile_memberCount p).

Definition set_memberCount (p : Profile) (n : option nat) : Profile :=
  mkProfile (profile_name p) (profile_lastSeen p) (profile_updatedAt p)
            (profile_description p) (profile_createdAt p) (profile_avatar p) n.

(** [isGroup && message.key.participant ? message.key.participant
     : (message.key.remoteJid || userId)] *)
Definition senderIdOf (userId : jsstring) (isGroup : bool) (k : MessageKey)
  : jsstring :=
  if isGroup && truthy (participant k) then str_or (participant k) userId
  else str_or (remoteJid k) userId.

(** The block that updates the profile info for a message that is
    not from the bot: a direct chat takes the sender's [pushName], a group
    takes subject, description and size from [message.groupMetadata]. *)
Definition profileFromMessage (isGroup : bool) (message : MessageArg)
    (p : Profile) : Profile :=
  let p :=
    if negb isGroup && truthy (arg_pushName message)
    then set_name p (arg_pushName message) else p in
  if isGroup && truthy (bind_opt (arg_key message) remoteJid) then
    match arg_groupMetadata message with
    | Some gm =>
        let p := if truthy (subject gm) then set_name p (subject gm) else p in
        let p := if truthy (desc gm) then set_description p (desc gm) else p in
        match gm_participants gm with
        | Some ps => set_memberCount p (Some (length ps))
        | None => p
        end
    | None => p
    end
  else p.

Definition addMessageToConversation (env : Env) (fs : FileSystem)
    (userId : jsstring) (isGroup : bool) (message : MessageArg) (fromMe : bool)
  : FileSystem * UserData :=
  let userData := loadUserData env fs userId isGroup in
  let messageText := arg_text message in
  let sender :=
    if negb fromMe then
      match arg_key message with
      | Some k =>
          Some (mkSender (senderIdOf userId isGroup k)
                         (str_or (arg_pushName message) (js "Unknown User")))
      | None => None
      end
    else None in
  let participants1 :=
    match sender with
    | Some s =>
        map_set str_eqb (sender_id s)
          (seenParticipant env
             (map_get str_eqb (sender_id s) (participants userData))
             (arg_pushName message))
          (participants userData)
    | None => participants userData
    end in
  let messageObj :=
    mkMessageObj
      (str_or (bind_opt (arg_key message) key_id) (nowMs env))
      (now env) messageText fromMe sender
      (if fromMe && truthy (arg_replyTo message) then arg_replyTo message
       else None) in
  let pushed := conversation_history userData ++ [messageObj] in
  let conversation' :=
    if conversationLimit env <? length pushed
    then lastN (conversationLimit env) pushed else pushed in
  let counted :=
    mkStats (messageCount (stats userData) + 1) (now env)
            (topParticipants (stats userData)) in
  let profile' :=
    if negb fromMe then profileFromMessage isGroup message (profile userData)
    else profile userData in
  let '(participants2, stats') :=
    match sender with
    | Some s =>
        if negb fromMe && isGroup && nonempty (sender_id s) then
          (map_set str_eqb (sender_id s)
             (seenParticipant env (map_get str_eqb (sender_id s) participants1)
                              (Some (sender_name s)))
             participants1,
           mkStats (messageCount counted) (lastActivity counted)
                   (updateTopParticipants env s (topParticipants counted)))
        else (participants1, counted)
    | None => (participants1, counted)
    end in
  let userData' :=
    mkUserData (rec_userId userData) (rec_isGroup userData) profile'
               conversation' participants2 (preferences userData) stats' in
  (saveUserData env fs userId isGroup userData',
   set_profile userData' (set_updatedAt profile' (now env))).

(** The [profileInfo] argument of [updateUserProfile]; [None] is a key the
    object does not have. *)
Record ProfileInfo := mkProfileInfo {
  info_name : option jsstring;
  info_description : option jsstring;
  info_memberCount : option nat
}.

Record PreferencesInfo := mkPreferencesInfo {
  info_language : option jsstring;
  info_aiEnabled : option bool;
  info_notifyOnMention : option bool
}.

Record StatsInfo := mkStatsInfo {
  info_messageCount : option nat;
  info_lastActivity : option jsstring;
  info_topParticipants : option (list TopParticipant)
}.

Record AdditionalData := mkAdditionalData {
  ad_preferences : option PreferencesInfo;
  ad_participants : option (omap jsstring Participant);
  ad_stats : option StatsInfo
}.

Definition noProfileInfo : ProfileInfo := mkProfileInfo None None None.
Definition noAdditionalData : AdditionalData := mkAdditionalData None None None.

Definition override {A : Type} (old : A) (new : option A) : A :=
  match new with Some v => v | None => old end.

Definition override_opt {A : Type} (old new : option A) : option A :=
  match new with Some v => Some v | None => old end.

(** One step of the loop over [Object.entries(additionalData.participants)]:
    the incoming entry is laid over the existing one, a name that is
    missing keeps the existing name. *)
Definition mergeParticipant (env : Env) (existing : option Participant)
    (info : Participant) : Participant :=
  mkParticipant
    (or_else (or_else (participant_name info)
                      (bind_opt existing participant_name)) None)
    (override_opt (bind_opt existing participant_isAdmin) (participant_isAdmin info))
    (override_opt (bind_opt existing participant_isSuperAdmin)
                  (participant_isSuperAdmin info))
    (override_opt (bind_opt existing participant_lastSeen)
                  (participant_lastSeen info))
    (Some (now env)).

Definition mergeParticipants (env : Env)
    (incoming current : omap jsstring Participant) : omap jsstring Participant :=
  fold_left
    (fun acc entry =>
       map_set str_eqb (fst entry)
         (mergeParticipant env (map_get str_eqb (fst entry) acc) (snd entry))
         acc)
    incoming current.

Definition updateUserProfile (env : Env) (fs : FileSystem)
    (userId : jsstring) (isGroup : bool)
    (profileInfo : ProfileInfo) (additionalData : AdditionalData)
  : FileSystem * UserData :=
  let userData := loadUserData env fs userId isGroup in
  let p := profile userData in
  let profile' :=
    mkProfile (override_opt (profile_name p) (info_name profileInfo))
              (profile_lastSeen p)
              (Some (now env))
              (override_opt (profile_description p) (info_description profileInfo))
              (profile_createdAt p)
              (profile_avatar p)
              (override_opt (profile_memberCount p) (info_memberCount profileInfo)) in
  let preferences' :=
    match ad_preferences additionalData with
    | Some i =>
        mkPreferences
          (override (language (preferences userData)) (info_language i))
          (override (aiEnabled (preferences userData)) (info_aiEnabled i))
          (override (notifyOnMention (preferences userData)) (info_notifyOnMention i))
    | None => preferences userData
    end in
  let participants' :=
    match ad_participants additionalData with
    | Some incoming => mergeParticipants env incoming (participants userData)
    | None => participants userData
    end in
  let stats' :=
    match ad_stats additionalData with
    | Some i =>
        mkStats
          (override (messageCount (stats userData)) (info_messageCount i))
          (override (lastActivity (stats userData)) (info_lastActivity i))
          (override (topParticipants (stats userData)) (info_topParticipants i))
    | None => stats userData
    end in
  let userData' :=
    mkUserData (rec_userId userData) (rec_isGroup userData) profile'
               (conversation_history userData) participants' preferences' stats' in
  (saveUserData env fs userId isGroup userData', userData').

(** The four character ranges of [detectAndUpdateLanguage]. *)
Definition bengaliRange : code_unit -> bool := in_range 0x0980%N 0x09FF%N.
Definition arabicRange : code_unit -> bool := in_range 0x0600%N 0x06FF%N.
Definition hindiRange : code_unit -> bool := in_range 0x0900%N 0x097F%N.

Definition bengaliPattern : regex := Chars bengaliRange.
Definition arabicPattern : regex := Chars arabicRange.
Definition hindiPattern : regex := Chars hindiRange.
Definition englishPattern : regex := Chars is_alpha.

Definition detectedLanguage (messageText : jsstring) : jsstring :=
  if test bengaliPattern messageText then js "bn"
  else if test arabicPattern messageText then js "ar"
  else if test hindiPattern messageText then js "hi"
  else if test englishPattern messageText then js "en"
  else js "auto".

Definition detectAndUpdateLanguage (env : Env) (fs : FileSystem)
    (userId : jsstring) (isGroup : bool) (messageText : jsstring)
  : FileSystem * jsstring :=
  if negb (nonempty messageText) || (length (trim messageText) =? 0)
  then (fs, js "auto")
  else
    let detected := detectedLanguage messageText in
    if negb (str_eqb detected (js "auto")) then
      let userData := loadUserData env fs userId isGroup in
      if negb (nonempty (language (preferences userData)))
         || str_eqb (language (preferences userData)) (js "auto")
      then
        (fst (updateUserProfile env fs userId isGroup noProfileInfo
                (mkAdditionalData
                   (Some (mkPreferencesInfo (Some detected) None None))
                   None None)),
         detected)
      else (fs, detected)
    else (fs, detected).

(** [getAllUsers]: every readable [.json] file of the inbox directory, then
    every one of the groups directory, each record tagged with its kind. *)
Inductive UserType := inbox | group.

Definition readRecords (d : DataDir) (t : UserType) (fs : FileSystem)
  : list (UserData * UserType) :=
  flat_map
    (fun entry =>
       match entry with
       | ((d', file), Json userData) =>
           if dir_eqb d' d && endsWith file (js ".json") then [(userData, t)] else []
       | (_, Unparsable) => []
       end)
    fs.

Definition getAllUsers (fs : FileSystem) : list (UserData * UserType) :=
  readRecords INBOX_DATA_DIR inbox fs ++ readRecords GROUP_DATA_DIR group fs.

(** ** [src/src/services/mentionService.js]: relaying a mention *)

Definition englishPatterns : list jsstring :=
  [js "tell";
   js "say to";
   js "inform";
   js "let know";
   js "message";
   js "ask";
   js "tell him";
   js "tell her";
   js "please tell";
   js "can you tell";
   js "would you tell";
   js "could you tell"].

Definition bengaliPatterns : list jsstring :=
  [js "বলো";
   js "বল";
   js "জানাও";
   js "বলতে";
   js "বলবে";
   js "জানাবে";
   js "জিজ্ঞাসা";
   js "জিজ্ঞেস";
   js "bolo";
   js "bol";
   js "janao";
   js "bolte";
   js "bolbe";
   js "janabe";
   js "jiggasa";
   js "jigges"].

Definition nameTranslations : list (jsstring * jsstring) :=
  [(js "SIHAB", js "শিহাব");
   (js "SIHAB BHAI", js "শিহাব ভাই");
   (js "RAHIM", js "রহিম");
   (js "RAHIM KHAN", js "রহিম খান");
   (js "KARIM", js "করিম");
   (js "JOHN", js "জন");
   (js "SARAH", js "সারা");
   (js "ADMIN", js "অ্যাডমিন");
   (js "BHAI", js "ভাই");
   (js "AUNTIE", js "আন্টি");
   (js "UNCLE", js "আংকেল");
   (js "SIR", js "স্যার");
   (js "MADAM", js "ম্যাডাম")].

(** [/^[a-zA-Z0-9\s]+$/] *)
Definition plainNameRegex : regex :=
  Seq Bol (Seq (Plus (Chars (fun c => is_alnum c || is_space c))) Eol).

Definition bengaliGroupNameOf (groupName : option jsstring) : jsstring :=
  let bengaliGroupName := str_or groupName (js "একটি গ্রুপ") in
  if test plainNameRegex bengaliGroupName then js "গ্রুপ" else bengaliGroupName.

Fixpoint lookup (k : jsstring) (table : list (jsstring * jsstring))
  : option jsstring :=
  match table with
  | [] => None
  | (k', v) :: table' => if str_eqb k k' then Some v else lookup k table'
  end.

(** The two framing sentences; the payload follows after an empty line,
    between double quotes (code unit [0x22]). *)
Definition quoted (enhancedMessage : jsstring) : jsstring :=
  [0x0A; 0x0A; 0x22]%N ++ enhancedMessage ++ [0x22%N].

Definition personalizedMessage (isTellSomeoneMessage : bool)
    (bengaliGroupName bengaliSenderName enhancedMessage : jsstring) : jsstring :=
  if isTellSomeoneMessage then
    bengaliGroupName ++ js " থেকে " ++ bengaliSenderName
      ++ js " আপনাকে এই বার্তা পাঠাতে বলেছে:" ++ quoted enhancedMessage
  else
    bengaliGroupName ++ js " থেকে " ++ bengaliSenderName
      ++ js " আপনাকে বলেছে:" ++ quoted enhancedMessage.

(** The parts that depend on [String.prototype.toLowerCase] and
    [toUpperCase], and on the text-generation service. *)
Section Builtins.
Variable toLowerCase : jsstring -> jsstring.
Variable toUpperCase : jsstring -> jsstring.

(** [enhanceMessageWithAI(messageText, recipientName, groupName,
    senderName, isTellSomeoneMessage)], as the text it resolves to. *)
Variable enhanceMessageWithAI :
  jsstring -> jsstring -> option jsstring -> jsstring -> bool -> jsstring.

Definition checkIfTellSomeoneMessage (originalMessage cleanedMessage : jsstring)
  : bool :=
  if negb (nonempty originalMessage) || negb (nonempty cleanedMessage) then false
  else
    let lowerOriginal := toLowerCase originalMessage in
    let hasEnglishPattern :=
      existsb (fun pattern => includes lowerOriginal pattern) englishPatterns in
    let hasBengaliPattern :=
      existsb (fun pattern => includes lowerOriginal pattern) bengaliPatterns in
    hasEnglishPattern || hasBengaliPattern.

Definition bengaliSenderNameOf (senderName : jsstring) : jsstring :=
  if nonempty senderName then
    match lookup (toUpperCase senderName) nameTranslations with
    | Some translated => if nonempty translated then translated else senderName
    | None => senderName
    end
  else senderName.

(** What [handleMentions] sends to one recipient: the mentions are
    stripped from the text, the relay intent is read off the original
    text, and the polished text is framed accordingly. *)
Definition relayFlag (messageText : jsstring)
    (mentionedNames mentionedNumbers : list jsstring) : bool :=
  checkIfTellSomeoneMessage messageText
    (extractActualMessage messageText mentionedNames mentionedNumbers).

Definition relayedMessage (messageText : jsstring)
    (mentionedNames mentionedNumbers : list jsstring)
    (recipientName : jsstring) (groupName : option jsstring)
    (senderName : jsstring) : jsstring :=
  let actualMessage :=
    extractActualMessage messageText mentionedNames mentionedNumbers in
  let isTellSomeoneMessage :=
    checkIfTellSomeoneMessage messageText actualMessage in
  let enhancedMessage :=
    enhanceMessageWithAI actualMessage recipientName groupName senderName
                         isTellSomeoneMessage in
  personalizedMessage isTellSomeoneMessage
    (bengaliGroupNameOf groupName) (bengaliSenderNameOf senderName)
    enhancedMessage.

(** [findPhoneNumberByName] *)
Definition nameMatches (storedName normalizedSearchName : jsstring) : bool :=
  str_eqb storedName normalizedSearchName
  || includes storedName normalizedSearchName
  || includes normalizedSearchName storedName.

Fixpoint searchInbox (normalizedSearchName : jsstring)
    (allUsers : list (UserData * UserType)) : option jsstring :=
  match allUsers with
  | [] => None
  | (user, inbox) :: others =>
      if truthy (profile_name (profile user))
         && nameMatches (trim (toLowerCase (str_or (profile_name (profile user)) [])))
                        normalizedSearchName
      then Some (before_at (rec_userId user))
      else searchInbox normalizedSearchName others
  | (_, group) :: others => searchInbox normalizedSearchName others
  end.

Fixpoint searchParticipants (normalizedSearchName : jsstring)
    (entries : omap jsstring Participant) : option jsstring :=
  match entries with
  | [] => None
  | (participantId, participantData) :: others =>
      if truthy (participant_name participantData)
         && nameMatches
              (trim (toLowerCase (str_or (participant_name participantData) [])))
              normalizedSearchName
      then Some (before_at participantId)
      else searchParticipants normalizedSearchName others
  end.

Fixpoint searchGroups (normalizedSearchName : jsstring)
    (allUsers : list (UserData * UserType)) : option jsstring :=
  match allUsers with
  | [] => None
  | (user, group) :: others =>
      match searchParticipants normalizedSearchName (participants user) with
      | Some phoneNumber => Some phoneNumber
      | None => searchGroups normalizedSearchName others
      end
  | (_, inbox) :: others => searchGroups normalizedSearchName others
  end.

Definition findPhoneNumberByName (fs : FileSystem) (name : jsstring)
  : option jsstring :=
  if negb (nonempty name) then None
  else
    let normalizedSearchName := trim (toLowerCase name) in
    let allUsers := getAllUsers fs in
    match searchInbox normalizedSearchName allUsers with
    | Some phoneNumber => Some phoneNumber
    | None => searchGroups normalizedSearchName allUsers
    end.

End Builtins.

(** ** [src/src/handlers/messageHandler.js]: the per-message pipeline *)

Definition isGroupMessage (message : Message) : bool :=
  match bind_opt (key message) remoteJid with
  | Some jid => nonempty jid && endsWith jid (js "@g.us")
  | None => false
  end.

(** [getGroupName]: the subject carried by the message, else the group
    address up to the [@]; never the sender's [pushName]. *)
Definition getGroupName (message : Message) : option jsstring :=
  if negb (isGroupMessage message) then None
  else if truthy (bind_opt (groupMetadata message) subject)
  then bind_opt (groupMetadata message) subject
  else Some (before_at (str_or (bind_opt (key message) remoteJid) [])).

(** What the pipeline obtains from the transport and from the
    text-generation service while it handles one message. *)
Record Services := mkServices {
  fetchedGroupMetadata : option GroupMetadata;  (* [sock.groupMetadata(jid)], [None] when it throws *)
  chatCompletion : option jsstring              (* [getChatCompletion(...)], [None] when it throws *)
}.

(** One pass of the loop over [groupMetadata.participants]. *)
Definition notedParticipant (env : Env) (message : Message)
    (participantsData : omap jsstring Participant) (p : GroupParticipant)
  : omap jsstring Participant :=
  match gp_id p with
  | Some id =>
      if nonempty id then
        let existingName :=
          or_else (bind_opt (map_get str_eqb id participantsData) participant_name)
                  None in
        let isSender :=
          okey_eqb (bind_opt (key message) participant) (Some id)
          && truthy (pushName message) in
        map_set str_eqb id
          (mkParticipant
             (if isSender then pushName message
              else or_else (or_else existingName (gp_name p)) None)
             (Some (gp_isAdmin p)) (Some (gp_isSuperAdmin p))
             (Some (now env)) (Some (now env)))
          participantsData
      else participantsData
  | None => participantsData
  end.

(** The group branch of [processMessage]: the group name comes from the
    fetched metadata, else from the stored record, else from
    [getGroupName]; it is stored unless it is empty or the placeholder. *)
Definition groupNameFor (message : Message) (existingData : UserData)
    (fetched : option GroupMetadata) : option jsstring :=
  let fromExisting :=
    match fetched with
    | None => or_else (profile_name (profile existingData)) None
    | Some _ => None
    end in
  if truthy (bind_opt fetched subject) then bind_opt fetched subject
  else if negb (truthy fromExisting) then getGroupName message
  else fromExisting.

Definition refreshGroup (env : Env) (sv : Services) (fs : FileSystem)
    (jid : jsstring) (message : Message) : FileSystem :=
  let existingData := loadUserData env fs jid true in
  let fetched := fetchedGroupMetadata sv in
  let groupName := groupNameFor message existingData fetched in
  if truthy groupName && negb (okey_eqb groupName (Some (js "Unknown Group"))) then
    match fetched with
    | Some gm =>
        let description := if truthy (desc gm) then desc gm else None in
        match gm_participants gm with
        | Some ps =>
            fst (updateUserProfile env fs jid true
                   (mkProfileInfo groupName description (Some (length ps)))
                   (mkAdditionalData None
                      (Some (fold_left (notedParticipant env message) ps
                                       (participants existingData)))
                      None))
        | None =>
            fst (updateUserProfile env fs jid true
                   (mkProfileInfo groupName description None) noAdditionalData)
        end
    | None =>
        fst (updateUserProfile env fs jid true
               (mkProfileInfo groupName None None) noAdditionalData)
    end
  else fs.

Definition messageTextOf (message : Message) : jsstring :=
  str_or (or_else (bind_opt (content message) conversation)
                  (bind_opt (content message) extendedText)) [].

(** The effect of [sendAutoReply] on the stored records. *)
Definition sendAutoReply (env : Env) (sv : Services) (fs : FileSystem)
    (message : Message) : FileSystem :=
  match bind_opt (key message) remoteJid with
  | Some jid =>
      if negb (nonempty jid) then fs
      else
        let isGroup := isGroupMessage message in
        let messageText := messageTextOf message in
        if aiReplies env && nonempty messageText then
          let userData := loadUserData env fs jid isGroup in
          let fs := fst (addMessageToConversation env fs jid isGroup
                           (ObjectArg message) false) in
          let fs :=
            if truthy (pushName message)
               && negb (truthy (profile_name (profile userData)))
            then fst (updateUserProfile env fs jid isGroup
                        (mkProfileInfo (pushName message) None None)
                        noAdditionalData)
            else fs in
          let fs := fst (detectAndUpdateLanguage env fs jid isGroup messageText) in
          match chatCompletion sv with
          | Some replyText =>
              let senderId :=
                or_else (bind_opt (key message) participant) (Some jid) in
              fst (addMessageToConversation env fs jid isGroup
                     (ObjectArg
                        (mkMessage (Some (mkKey (Some (nowMs env)) None None))
                                   (Some (mkContent (Some replyText) None))
                                   None None senderId))
                     true)
          | None => fs
          end
        else fs
  | None => fs
  end.

(** [global.processedMessages], a [Set] in insertion order. *)
Definition rememberProcessed (messageId : jsstring) (processed : list jsstring)
  : list jsstring :=
  let added :=
    if array_includes processed messageId then processed
    else processed ++ [messageId] in
  if 1000 <? length added then lastN 500 added else added.

Record PipelineState := mkPipeline {
  files : FileSystem;
  processedMessages : list jsstring
}.

(** The effect of [processMessage] on the stored records and on the set
    of processed messages; [Thrown] when [message.key] is missing, or when
    a record would be written for a missing address. *)
Definition processMessage (env : Env) (sv : Services) (st : PipelineState)
    (message : Message) : result PipelineState :=
  match key message with
  | None => Thrown
  | Some k =>
      let isGroup := isGroupMessage message in
      let fs :=
        if isGroup then
          refreshGroup env sv (files st) (str_or (remoteJid k) []) message
        else files st in
      let messageText := messageTextOf message in
      let mentionedNumbers :=
        if isGroup && nonempty messageText
        then extractMentionedNumbers messageText else [] in
      let mentionedNames :=
        if isGroup && nonempty messageText
        then extractMentionedNames messageText else [] in
      let updated :=
        if truthy (pushName message) && negb isGroup then
          match remoteJid k with
          | Some jid =>
              Returned (fst (updateUserProfile env fs jid isGroup
                               (mkProfileInfo (pushName message) None None)
                               noAdditionalData))
          | None => Thrown
          end
        else Returned fs in
      match updated with
      | Thrown => Thrown
      | Returned fs =>
          let isProcessed :=
            match key_id k with
            | Some messageId => array_includes (processedMessages st) messageId
            | None => false
            end in
          if negb isProcessed && truthy (key_id k) then
            let processed :=
              rememberProcessed (str_or (key_id k) []) (processedMessages st) in
            if nonempty mentionedNumbers || nonempty mentionedNames
            then Returned (mkPipeline fs processed)
            else Returned (mkPipeline (sendAutoReply env sv fs message) processed)
          else Returned (mkPipeline fs (processedMessages st))
      end
  end.

(** ** Predicates used in the statements *)

(** A root store whose queue lists exactly the cached identifiers, each
    once, in insertion order: the states reached by adding messages with
    fresh identifiers and by removing messages. *)
Definition root_consistent (s : RootMessageStore.MessageStore) : Prop :=
  RootMessageStore.messageQueue s = map_keys (RootMessageStore.messages s)
  /\ NoDup (RootMessageStore.messageQueue s).

(** A core store that respects its capacity, as every store grown from
    the empty one by [add] does. *)
Definition core_within_capacity (s : CoreMessageStore.MessageStore) : Prop :=
  CoreMessageStore.size s <= CoreMessageStore.maxSize s.

(** The identifier of a message that has one. *)
Definition has_id (m : Message) (id : jsstring) : Prop :=
  bind_opt (key m) key_id = Some id /\ id <> [].

(** What [getUserDataPath] makes of one code unit. *)
Definition clean_unit (c : code_unit) : code_unit :=
  if is_alnum c then c else ch "_".

(** Two code units that [getUserDataPath] cannot tell apart: equal, or
    both outside [[a-zA-Z0-9]]. *)
Definition cleaned_alike (x y : code_unit) : Prop :=
  x = y \/ (is_alnum x = false /\ is_alnum y = false).

(** The same message under another display name. *)
Definition with_pushName (m : Message) (n : option jsstring) : Message :=
  mkMessage (key m) (content m) n (groupMetadata m) (replyTo m).

Definition arg_with_pushName (a : MessageArg) (n : option jsstring) : MessageArg :=
  match a with
  | ObjectArg m => ObjectArg (with_pushName m n)
  | TextArg t => TextArg t
  end.

(** The name a group record holds after [addMessageToConversation]: the
    subject of [message.groupMetadata] when an inbound message carries
    one, the name held before otherwise. *)
Definition groupNameAfter (old : option jsstring) (message : MessageArg)
    (fromMe : bool) : option jsstring :=
  if negb fromMe && truthy (bind_opt (arg_key message) remoteJid)
     && truthy (bind_opt (arg_groupMetadata message) subject)
  then bind_opt (arg_groupMetadata message) subject
  else old.

(** The match a backtracking matcher reports: the first of [run]. *)
Definition first_match (r : regex) (st : mstate) : option mstate :=
  hd_error (run r st).

(** The code units a regular expression can consume. *)
Fixpoint charset (r : regex) (c : code_unit) : bool :=
  match r with
  | Chars p => p c
  | Seq a b | Alt a b => charset a c || charset b c
  | Star a | Group _ a => charset a c
  | Eps | Bol | Eol | WordBoundary => false
  end.

(** Every [@] in [s] is followed by a code unit of the class [q], or ends
    [s]. *)
Fixpoint ats_followed_by (q : code_unit -> bool) (s : jsstring) : bool :=
  match s with
  | [] => true
  | c :: t =>
      (if is_char "@" c
       then match t with [] => true | d :: _ => q d end
       else true)
      && ats_followed_by q t
  end.

(** What a match consumes is a prefix of the input made of code units the
    expression can consume. *)
Definition consumes (r : regex) (st st' : mstate) : Prop :=
  exists u, rest st = u ++ rest st'
            /\ forallb (charset r) u = true
            /\ pos st' = pos st + length u.

(** An expression without capture groups. *)
Fixpoint groupless (r : regex) : bool :=
  match r with
  | Group _ _ => false
  | Seq a b | Alt a b => groupless a && groupless b
  | Star a => groupless a
  | Chars _ | Eps | Bol | Eol | WordBoundary => true
  end.




(** ** Sample data for the worked cases *)

(** A text message [text] with identifier [id] in the chat [jid], sent by
    [participant] under the display name [pushName]. *)
Definition textMessage (id jid : option jsstring) (participant pushName : option jsstring)
    (text : jsstring) : Message :=
  mkMessage (Some (mkKey id jid participant))
            (Some (mkContent (Some text) None)) pushName None None.

Definition msgA : Message :=
  textMessage (Some (js "A")) (Some (js "8801@s.whatsapp.net")) None None (js "one").
Definition msgB : Message :=
  textMessage (Some (js "B")) (Some (js "8801@s.whatsapp.net")) None None (js "two").
Definition msgB' : Message :=
  textMessage (Some (js "B")) (Some (js "8801@s.whatsapp.net")) None None (js "two again").
Definition msgC : Message :=
  textMessage (Some (js "C")) (Some (js "8801@s.whatsapp.net")) None None (js "three").

(** A message whose key carries no [id]. *)
Definition msgWithoutId : Message :=
  textMessage None (Some (js "8801@s.whatsapp.net")) None None (js "hello").

Definition sampleEnv : Env :=
  mkEnv (js "2024-01-01T00:00:00.000Z") (js "1704067200000") (Some 100) true.

(** A group whose subject is the text [Unknown Group], a member of it
    writing [hello] under the display name [Alice]. *)
Definition unknownGroupServices : Services :=
  mkServices
    (Some (mkGroupMetadata (Some (js "Unknown Group")) None
             (Some [mkGroupParticipant (Some (js "8801@s.whatsapp.net")) None
                                       false false])))
    (Some (js "hi")).

Definition helloFromAlice : Message :=
  textMessage (Some (js "M1")) (Some (js "120363001@g.us"))
              (Some (js "8801@s.whatsapp.net")) (Some (js "Alice")) (js "hello").

(** [sub] occurs in [s]. *)
Definition occurs_in (sub s : jsstring) : Prop :=
  exists before after, s = before ++ sub ++ after.

(** The identity resolver in the words of the specification: the first
    direct-message record whose name is accepted, else the first group
    participant whose name is accepted, else nothing.  A name is accepted
    when it is not empty and, in lower case and trimmed, equals, contains
    or is contained by the normalized search name. *)
Section ResolverBySpecification.
Variable toLowerCase : jsstring -> jsstring.

Definition accepted (normalizedSearchName : jsstring)
    (storedName : option jsstring) : Prop :=
  exists stored, storedName = Some stored /\ stored <> []
    /\ (trim (toLowerCase stored) = normalizedSearchName
        \/ occurs_in normalizedSearchName (trim (toLowerCase stored))
        \/ occurs_in (trim (toLowerCase stored)) normalizedSearchName).

Definition accepts (normalizedSearchName : jsstring)
    (storedName : option jsstring) : bool :=
  truthy storedName
  && nameMatches (trim (toLowerCase (str_or storedName []))) normalizedSearchName.

Definition directRecords (fs : FileSystem) : list UserData :=
  flat_map (fun entry =>
              match snd entry with inbox => [fst entry] | group => [] end)
           (getAllUsers fs).

Definition groupRoster (fs : FileSystem) : list (jsstring * Participant) :=
  flat_map (fun entry =>
              match snd entry with
              | group => participants (fst entry)
              | inbox => []
              end)
           (getAllUsers fs).

Definition resolveByFirstMatch (fs : FileSystem) (name : jsstring)
  : option jsstring :=
  let normalized := trim (toLowerCase name) in
  match find (fun user => accepts normalized (profile_name (profile user)))
             (directRecords fs) with
  | Some user => Some (before_at (rec_userId user))
  | None =>
      match find (fun entry => accepts normalized (participant_name (snd entry)))
                 (groupRoster fs) with
      | Some entry => Some (before_at (fst entry))
      | None => None
      end
  end.

End ResolverBySpecification.

(** [toLowerCase] on a text of Basic Latin (ASCII) code units. *)
Definition asciiLower (c : code_unit) : code_unit :=
  if is_upper c then (c + 32)%N else c.

Definition asciiLowerCase (s : jsstring) : jsstring := map asciiLower s.

(** [toUpperCase] on such a text. *)
Definition asciiUpper (c : code_unit) : code_unit :=
  if is_lower c then (c - 32)%N else c.

Definition asciiUpperCase (s : jsstring) : jsstring := map asciiUpper s.

(** A file system with the record of the group [groupId], which has a
    participant called Karim Uddin, and the record of the direct chat
    [userId] with a contact called Karim. *)
Definition karimFiles (userId groupId participantId : jsstring) : FileSystem :=
  let e := sampleEnv in
  [ (getUserDataPath groupId true,
     Json (mkUserData groupId true
             (mkProfile (Some (js "Family")) None None None None None (Some 1))
             []
             [(participantId,
               mkParticipant (Some (js "Karim Uddin")) None None None None)]
             (mkPreferences (js "auto") true true)
             (mkStats 0 (now e) [])));
    (getUserDataPath userId false,
     Json (mkUserData userId false
             (mkProfile (Some (js "Karim")) None None None None None None)
             [] []
             (mkPreferences (js "auto") true true)
             (mkStats 0 (now e) []))) ].

(** ** Sequences of calls on the two message stores *)

(** One call on a [MessageStore] of [src/messageStore.js]. *)
Inductive RootCall :=
| RootAdd (message : option Message)
| RootRemove (messageId : jsstring)
| RootClear.

Definition root_call (s : RootMessageStore.MessageStore) (c : RootCall)
  : RootMessageStore.MessageStore :=
  match c with
  | RootAdd message => fst (RootMessageStore.add s message)
  | RootRemove messageId => fst (RootMessageStore.remove s messageId)
  | RootClear => RootMessageStore.clear s
  end.

(** The store after the calls, made one after the other; a call that
    throws leaves the store as it was. *)
Definition root_calls (calls : list RootCall) (s : RootMessageStore.MessageStore)
  : RootMessageStore.MessageStore :=
  fold_left root_call calls s.

(** One call on a [MessageStore] of [src/src/core/messageStore.js]. *)
Inductive CoreCall :=
| CoreAdd (message : option Message)
| CoreRemove (messageId : option jsstring)
| CoreClear.

Definition core_call (s : CoreMessageStore.MessageStore) (c : CoreCall)
  : CoreMessageStore.MessageStore :=
  match c with
  | CoreAdd message => fst (CoreMessageStore.add s message)
  | CoreRemove messageId => fst (CoreMessageStore.remove s messageId)
  | CoreClear => CoreMessageStore.clear s
  end.

Definition core_calls (calls : list CoreCall) (s : CoreMessageStore.MessageStore)
  : CoreMessageStore.MessageStore :=
  fold_left core_call calls s.

(** What every root store reached from a new one satisfies: the queue is
    within the capacity, and every cached identifier is in the queue. *)
Definition root_bounded (s : RootMessageStore.MessageStore) : Prop :=
  1 <= RootMessageStore.maxSize s
  /\ length (RootMessageStore.messageQueue s) <= RootMessageStore.maxSize s
  /\ NoDup (map_keys (RootMessageStore.messages s))
  /\ incl (map_keys (RootMessageStore.messages s)) (RootMessageStore.messageQueue s).

(** ** [src/src/services/mentionService.js]: delivering a mention *)

(** [/[\u200B-\u200D\uFEFF\u2060\u2800\s]/g] *)
Definition invisibleOrSpace (c : code_unit) : bool :=
  (in_range 0x200B 0x200D c || cu_eqb c 0xFEFF || cu_eqb c 0x2060
   || cu_eqb c 0x2800 || is_space c)%N.

(** [/^\d+$/] *)
Definition digitsOnlyRegex : regex :=
  Seq Bol (Seq (Plus (Chars is_digit)) Eol).

(** [s.replace('+', '')]: a pattern that is a string of one code unit
    replaces its first occurrence only. *)
Fixpoint replace_first (pattern : code_unit) (s : jsstring) : jsstring :=
  match s with
  | [] => []
  | c :: t => if cu_eqb c pattern then t else c :: replace_first pattern t
  end.

(** [formatNumberForWhatsApp(number)] for a [number] that is a string, as
    it is for both callers; [None] is [null]. *)
Definition formatNumberForWhatsApp (number : jsstring) : option jsstring :=
  if negb (nonempty number) then None
  else
    let cleanNumber := replace_all (Chars invisibleOrSpace) [] number in
    let cleanNumber := replace_all notDigitOrPlus [] cleanNumber in
    let cleanNumber :=
      if negb (startsWith cleanNumber (js "+")) then js "+" ++ cleanNumber
      else cleanNumber in
    let cleanNumber := replace_first (ch "+") cleanNumber in
    if negb (nonempty cleanNumber) || negb (test digitsOnlyRegex cleanNumber)
    then None
    else Some (cleanNumber ++ js "@s.whatsapp.net").

(** A message handed to [sock.sendMessage(jid, { text })]. *)
Record Sent := mkSent {
  sent_to : option jsstring;
  sent_text : jsstring
}.

(** The transport as the code sees it: what [sock.sendMessage] does with a
    message, given the messages handed to it before.  It resolves to the
    sent message or to [undefined] ([Returned None]), or it rejects
    ([Thrown]). *)
Definition Socket := list Sent -> Sent -> result (option Message).

(** [sendDirectMessage(sock, number, text)]: the messages handed to the
    transport, [log] first, and the value resolved to; [null] and
    [undefined] are both [None].  When the transport rejects the message
    it is handed over a second time. *)
Definition sendDirectMessage (sock : option Socket) (log : list Sent)
    (number text : jsstring) : list Sent * option Message :=
  match sock with
  | None => (log, None)
  | Some send =>
      if negb (nonempty number) then (log, None)
      else if negb (nonempty text) then (log, None)
      else
        match formatNumberForWhatsApp number with
        | None => (log, None)
        | Some formattedNumber =>
            let message := mkSent (Some formattedNumber) text in
            match send log message with
            | Returned result => (log ++ [message], result)
            | Thrown =>
                match send (log ++ [message]) message with
                | Returned result => (log ++ [message; message], result)
                | Thrown => (log ++ [message; message], None)
                end
            end
        end
  end.

(** The part of [message.metadata] that [handleMentions] reads. *)
Record Metadata := mkMetadata {
  md_mentionedNumbers : list jsstring;
  md_mentionedNames : list jsstring;
  md_messageText : jsstring;
  md_groupName : option jsstring;
  md_senderName : option jsstring
}.

(** An entry of the array that [handleMentions] resolves to: the value
    [sendDirectMessage] resolved to, or a report [{ number, success }],
    [{ number, success: false, error }], [{ name, phoneNumber, success }],
    [{ name, success: false, error }]. *)
Inductive MentionResult :=
| SentMessage (result : Message)
| NumberReport (number : jsstring) (success : bool) (withError : bool)
| NameReport (name : jsstring) (phoneNumber : option jsstring)
             (success : bool) (withError : bool).

(** The texts sent back to the chat the mention came from. *)
Definition numberConfirmation (number : jsstring) : jsstring :=
  js "✅ মেসেজ পাঠানো হয়েছে: " ++ number ++ js " নম্বরে আপনার বার্তা পৌঁছে গেছে".

Definition nameConfirmation (name : jsstring) : jsstring :=
  js "✅ বার্তা পাঠানো হয়েছে: " ++ name ++ js " কে আপনার বার্তা পৌঁছে গেছে".

Definition notFoundNotice (name : jsstring) : jsstring :=
  js "I couldn't find a phone number for " ++ name ++ js ". Make sure they have chatted with me before.".

(** What the two loops of [handleMentions] carry along: the messages
    handed to the transport, [processedNumbers] and [results]. *)
Record MentionState := mkMentionState {
  sent : list Sent;
  processedNumbers : list jsstring;
  results : list MentionResult
}.

(** [senderName]: the [pushName], else [metadata.senderName], else the
    sender's address up to the [@]; [None] when that address is missing
    and [split] throws. *)
Definition mentionSenderName (message : Message) (md : Metadata)
    (k : MessageKey) : option jsstring :=
  if truthy (pushName message) then pushName message
  else if truthy (md_senderName md) then md_senderName md
  else
    match or_else (participant k) (remoteJid k) with
    | Some senderId => Some (before_at senderId)
    | None => None
    end.

Section MentionRelay.
Variable toLowerCase : jsstring -> jsstring.
Variable toUpperCase : jsstring -> jsstring.
Variable enhanceMessageWithAI :
  jsstring -> jsstring -> option jsstring -> jsstring -> bool -> jsstring.

(** What follows [sendDirectMessage] in both loops: the recipient counts
    as processed; when the message went out, the confirmation is sent to
    the chat and the sent message and a report are recorded; when the
    confirmation is rejected the [catch] records a failure instead. *)
Definition afterDirectMessage (send : Socket) (k : MessageKey)
    (st : MentionState) (delivery : list Sent * option Message)
    (recipient : jsstring) (confirmationText : jsstring)
    (report : bool -> bool -> MentionResult)
    (failure : MentionResult) : MentionState :=
  let processed := processedNumbers st ++ [recipient] in
  match snd delivery with
  | Some result =>
      let confirmation := mkSent (remoteJid k) confirmationText in
      match send (fst delivery) confirmation with
      | Returned _ =>
          mkMentionState (fst delivery ++ [confirmation]) processed
            (results st ++ [SentMessage result; report true false])
      | Thrown =>
          mkMentionState (fst delivery ++ [confirmation]) processed
            (results st ++ [failure])
      end
  | None =>
      mkMentionState (fst delivery) processed (results st ++ [report false false])
  end.

(** One pass of the loop over [mentionedNumbers]. *)
Definition relayToNumber (send : Socket) (k : MessageKey) (md : Metadata)
    (senderName : jsstring) (st : MentionState) (number : jsstring)
  : MentionState :=
  if array_includes (processedNumbers st) number then st
  else
    let personalized :=
      relayedMessage toLowerCase toUpperCase enhanceMessageWithAI
        (md_messageText md) (md_mentionedNames md) (md_mentionedNumbers md)
        [] (md_groupName md) senderName in
    afterDirectMessage send k st
      (sendDirectMessage (Some send) (sent st) number personalized)
      number (numberConfirmation number)
      (NumberReport number) (NumberReport number false true).

(** One pass of the loop over [mentionedNames]. *)
Definition relayToName (send : Socket) (fs : FileSystem) (k : MessageKey)
    (md : Metadata) (senderName : jsstring) (st : MentionState)
    (name : jsstring) : MentionState :=
  match findPhoneNumberByName toLowerCase fs name with
  | Some ((_ :: _) as phoneNumber) =>
      if array_includes (processedNumbers st) phoneNumber then st
      else
        let personalized :=
          relayedMessage toLowerCase toUpperCase enhanceMessageWithAI
            (md_messageText md) (md_mentionedNames md) (md_mentionedNumbers md)
            name (md_groupName md) senderName in
        afterDirectMessage send k st
          (sendDirectMessage (Some send) (sent st) phoneNumber personalized)
          phoneNumber (nameConfirmation name)
          (NameReport name (Some phoneNumber)) (NameReport name None false true)
  | _ =>
      let notice := mkSent (remoteJid k) (notFoundNotice name) in
      match send (sent st) notice with
      | Returned _ =>
          mkMentionState (sent st ++ [notice]) (processedNumbers st) (results st)
      | Thrown =>
          mkMentionState (sent st ++ [notice]) (processedNumbers st)
            (results st ++ [NameReport name None false true])
      end
  end.

(** [handleMentions(sock, message)], [message] being the message with its
    [metadata]: the messages handed to the transport, [log] first, and the
    array resolved to; [Thrown] when the promise is rejected, which
    happens when [message.key] is missing or the sender has neither a
    name nor an address. *)
Definition handleMentions (sock : option Socket) (fs : FileSystem)
    (log : list Sent) (message : option Message) (metadata : option Metadata)
  : result (list Sent * list MentionResult) :=
  match sock, message, metadata with
  | Some send, Some message, Some md =>
      if negb (nonempty (md_mentionedNumbers md))
         && negb (nonempty (md_mentionedNames md))
      then Returned (log, [])
      else
        match key message with
        | None => Thrown
        | Some k =>
            match mentionSenderName message md k with
            | None => Thrown
            | Some senderName =>
                let st :=
                  fold_left (relayToNumber send k md senderName)
                            (md_mentionedNumbers md)
                            (mkMentionState log [] []) in
                let st :=
                  fold_left (relayToName send fs k md senderName)
                            (md_mentionedNames md) st in
                Returned (sent st, results st)
            end
        end
  | _, _, _ => Returned (log, [])
  end.

End MentionRelay.

(** The digits and plus signs of a text, which is all that
    [formatNumberForWhatsApp] looks at. *)
Definition digitsAndPlus (number : jsstring) : jsstring :=
  filter (fun c => is_digit c || is_char "+" c) number.

(** A non-empty run of digits. *)
Definition digit_run (digits : jsstring) : Prop :=
  digits <> [] /\ forallb is_digit digits = true.

(** An address of a direct chat: digits followed by [@s.whatsapp.net]. *)
Definition directAddress (address : jsstring) : Prop :=
  exists digits, digit_run digits /\ address = digits ++ js "@s.whatsapp.net".

(** A number as the two ways of [extractMentionedNumbers] find it: a
    run of digits, with or without a plus sign in front. *)
Definition number_shape (number : jsstring) : Prop :=
  exists digits,
    digit_run digits /\ (number = digits \/ number = ch "+" :: digits).

(** The values of [l] in the order of their first occurrence, those in
    [seen] left out. *)
Fixpoint firstOccurrences (seen l : list jsstring) : list jsstring :=
  match l with
  | [] => []
  | x :: t =>
      if array_includes seen x then firstOccurrences seen t
      else x :: firstOccurrences (seen ++ [x]) t
  end.

(** The numbers that the reports of [handleMentions] name: the [number] of
    a report on a number, the [phoneNumber] of a report on a name. *)
Definition reportedNumbers (results : list MentionResult) : list jsstring :=
  flat_map (fun r =>
              match r with
              | NumberReport number _ _ => [number]
              | _ => []
              end) results.

Definition reportedRecipients (results : list MentionResult) : list jsstring :=
  flat_map (fun r =>
              match r with
              | NumberReport number _ _ => [number]
              | NameReport _ (Some phoneNumber) _ _ => [phoneNumber]
              | _ => []
              end) results.

(** A text that [handleMentions] sends back to the chat. *)
Definition chatNoticeText (text : jsstring) : Prop :=
  exists x, text = numberConfirmation x \/ text = nameConfirmation x
            \/ text = notFoundNotice x.

(** What one pass of the loop over the mentioned numbers hands to the
    transport: the relayed text for the address made of the digits of
    [number], once or twice or not at all, then at most the confirmation
    for the chat [chat]. *)
Definition numberPass (chat : option jsstring) (text : jsstring)
    (number : jsstring) (handed : list Sent) : Prop :=
  let attempt :=
    mkSent (Some (filter is_digit number ++ js "@s.whatsapp.net")) text in
  let confirmation := mkSent chat (numberConfirmation number) in
  exists attempts confirmations,
    handed = attempts ++ confirmations
    /\ (attempts = [] \/ attempts = [attempt] \/ attempts = [attempt; attempt])
    /\ (attempts <> [] -> digit_run (filter is_digit number))
    /\ (confirmations = []
        \/ (confirmations = [confirmation] /\ attempts <> [])).

(** Where the messages of [handleMentions] go: back to the chat [chat],
    as a confirmation or a notice, or to the address of a direct chat, as
    the relayed text for some recipient. *)
Definition relayDestination (chat : option jsstring)
    (relayed : jsstring -> jsstring) (a : Sent) : Prop :=
  (sent_to a = chat /\ chatNoticeText (sent_text a))
  \/ ((exists address, sent_to a = Some address /\ directAddress address)
      /\ exists recipientName, sent_text a = relayed recipientName).

(** A transport that sends every message it is handed and resolves to the
    sent message, and a text-generation service that returns the text it
    is given. *)
Definition acceptingSocket : Socket :=
  fun _ a =>
    Returned (Some (textMessage (Some (js "SENT")) (sent_to a) None None
                                (sent_text a))).

Definition verbatim (messageText recipientName : jsstring)
    (groupName : option jsstring) (senderName : jsstring)
    (isTellSomeoneMessage : bool) : jsstring :=
  messageText.

(** A message of Alice to the group [120363001@g.us] with the text
    [text], and the metadata that [processMessage] attaches to it. *)
Definition mentionFromAlice (text : jsstring) : Message :=
  textMessage (Some (js "M2")) (Some (js "120363001@g.us"))
              (Some (js "8801@s.whatsapp.net")) (Some (js "Alice")) text.

Definition metadataOf (text : jsstring) : Metadata :=
  mkMetadata (extractMentionedNumbers text) (extractMentionedNames text) text
             (Some (js "Family")) (Some (js "Alice")).

(** ** Sequences of calls on the conversation records *)

(** [addMessageToConversation] called for each of [messages] in turn, each
    with its [fromMe] flag. *)
Definition addMessages (env : Env) (fs : FileSystem) (userId : jsstring)
    (isGroup : bool) (messages : list (MessageArg * bool)) : FileSystem :=
  fold_left
    (fun fs m =>
       fst (addMessageToConversation env fs userId isGroup (fst m) (snd m)))
    messages fs.

(** A list of participants in the order that the sort by message count
    leaves: no count is followed by a larger one. *)
Fixpoint descending (l : list TopParticipant) : Prop :=
  match l with
  | x :: ((y :: _) as t) => tp_messageCount y <= tp_messageCount x /\ descending t
  | _ => True
  end.

(** The record of a group whose list of most active participants is
    full: ten members with two messages each. *)
Definition tenMembers : list TopParticipant :=
  map (fun d =>
         mkTopParticipant (js "990" ++ [d] ++ js "@s.whatsapp.net")
                          (js "Member") 2 (js "2024-01-01T00:00:00.000Z"))
      (js "0123456789").

Definition busyGroupFiles (groupId : jsstring) : FileSystem :=
  [ (getUserDataPath groupId true,
     Json (mkUserData groupId true
             (mkProfile (Some (js "Family")) None None None None None (Some 11))
             [] []
             (mkPreferences (js "auto") true true)
             (mkStats 20 (now sampleEnv) tenMembers))) ].

(** ** [src/src/handlers/messageHandler.js]: the kind of a message *)

Definition isDirectMessage (message : Message) : bool :=
  match bind_opt (key message) remoteJid with
  | Some jid => nonempty jid && endsWith jid (js "@s.whatsapp.net")
  | None => false
  end.

(** [categorizeMessage(message, userPrefs)]; [customCategories] is
    [userPrefs.customCategories] when that is a function, as what it
    answers for a message: a category, or [None] for [null] and
    [undefined]. *)
Definition categorizeMessage (message : Message)
    (customCategories : option (Message -> option jsstring)) : jsstring :=
  if isGroupMessage message then js "group"
  else
    match customCategories with
    | Some rule =>
        if truthy (rule message) then str_or (rule message) [] else js "inbox"
    | None => js "inbox"
    end.

(** A participant of whom the record knows a name. *)
Definition named_in (id : jsstring) (d : UserData) : Prop :=
  exists p, map_get str_eqb id (participants d) = Some p
            /\ truthy (participant_name p) = true.

(** ** [src/src/services/mentionService.js]: the language of a relayed
    message *)

Definition bengaliWordsInEnglish : list jsstring :=
  [js "ki";
   js "koro";
   js "korchi";
   js "korbe";
   js "kore";
   js "bolo";
   js "bolchi";
   js "bolbe";
   js "bole";
   js "ache";
   js "hobe";
   js "hoyeche";
   js "hoye";
   js "jabe";
   js "jao";
   js "asho";
   js "eshechi";
   js "thik";
   js "bhalo";
   js "kharap";
   js "sundor";
   js "bhai";
   js "bon";
   js "amake";
   js "tomake";
   js "apnake";
   js "ke";
   js "keno";
   js "kothay";
   js "kivabe";
   js "ekhon";
   js "pore";
   js "age";
   js "sathe";
   js "jonno";
   js "tumi";
   js "ami";
   js "apni";
   js "tui";
   js "ora";
   js "tara";
   js "amra";
   js "tomra";
   js "apnara";
   js "hoy";
   js "noy"].

Section DetectLanguage.
Variable toLowerCase : jsstring -> jsstring.

(** [detectLanguage(text)] for a [text] that is a string.  A match of an
    expression without the [g] flag is an array of length one, so the two
    counts of characters are one or zero. *)
Definition detectLanguage (text : jsstring) : jsstring :=
  if negb (nonempty text) || (length (trim text) =? 0) then js "auto"
  else
    let bengaliChars := if test bengaliPattern text then 1 else 0 in
    let englishChars := if test englishPattern text then 1 else 0 in
    let words := split_by (Plus (Chars is_space)) (toLowerCase text) in
    let bengaliWordsCount :=
      length (filter (fun word => array_includes bengaliWordsInEnglish word)
                     words) in
    if 0 <? bengaliChars then js "bn"
    else if (0 <? bengaliWordsCount) && (length words <=? 3 * bengaliWordsCount)
    then js "bn"
    else if 0 <? englishChars then js "en"
    else js "auto".

End DetectLanguage.

(** ** [src/replyHandler.js]: replying to a cached message *)

(** [s.split(sep)] for a separator of one code unit. *)
Fixpoint split_on (sep : code_unit) (s : jsstring) : list jsstring :=
  match s with
  | [] => [[]]
  | c :: t =>
      if cu_eqb c sep then [] :: split_on sep t
      else match split_on sep t with
           | piece :: pieces => (c :: piece) :: pieces
           | [] => [[c]]
           end
  end.

(** [pieces.join(sep)] *)
Fixpoint join (sep : jsstring) (pieces : list jsstring) : jsstring :=
  match pieces with
  | [] => []
  | piece :: more =>
      match more with
      | [] => piece
      | _ :: _ => piece ++ sep ++ join sep more
      end
  end.

(** One call [sock.sendMessage(jid, { text }, { quoted })]. *)
Record Reply := mkReply {
  reply_jid : option jsstring;
  reply_text : jsstring;
  reply_quoted : Message
}.

(** The transport of a reply: the sent message, or a rejection. *)
Definition ReplySocket := Reply -> result (option Message).

(** [sendReply]: the call handed to the transport and its outcome, a
    rejection being thrown again.  Without a socket the call itself
    throws. *)
Definition sendReply (sock : option ReplySocket) (jid : option jsstring)
    (text : jsstring) (quotedMessage : Message)
  : list Reply * result (option Message) :=
  match sock with
  | Some sendMessage =>
      let request := mkReply jid text quotedMessage in
      ([request], sendMessage request)
  | None => ([], Thrown)
  end.

(** [processReplyCommand] over a [MessageStore] of [src/messageStore.js]:
    the calls handed to the transport and the returned flag. *)
Definition processReplyCommand (sock : option ReplySocket) (command : jsstring)
    (messageStore : RootMessageStore.MessageStore) : list Reply * bool :=
  if negb (startsWith command (js "!reply ")) then ([], false)
  else
    let parts := split_on (ch " ") command in
    if length parts <? 3 then ([], false)
    else
      let messageId := nth 1 parts [] in
      let replyText := join (js " ") (skipn 2 parts) in
      match RootMessageStore.get messageStore messageId with
      | None => ([], false)
      | Some originalMessage =>
          match key originalMessage with
          | None => ([], false)
          | Some k =>
              match sendReply sock (remoteJid k) replyText originalMessage with
              | (calls, Returned _) => (calls, true)
              | (calls, Thrown) => (calls, false)
              end
          end
      end.

(** A transport of replies that sends whatever it is handed. *)
Definition acceptingReplySocket : ReplySocket :=
  fun request =>
    Returned (Some (textMessage (Some (js "SENT")) (reply_jid request) None None
                                (reply_text request))).

(** ** Texts with normalized white space *)

(** A text that does not start with white space. *)
Definition starts_plain (s : jsstring) : bool :=
  match s with
  | c :: _ => negb (is_space c)
  | [] => true
  end.

(** Every white space code unit is a U+0020 that no white space
    follows. *)
Fixpoint single_spaced (s : jsstring) : bool :=
  match s with
  | [] => true
  | c :: t =>
      (negb (is_space c) || (cu_eqb c (ch " ") && starts_plain t))
      && single_spaced t
  end.

(** No white space at either end, and single U+0020 in between. *)
Definition normalized (s : jsstring) : bool :=
  starts_plain s && single_spaced s && starts_plain (rev s).

(** ** The queue of the root store and the order of its map *)

(** [l] is [q] with some of its elements left out. *)
Inductive embeds : list jsstring -> list jsstring -> Prop :=
| embeds_nil : embeds [] []
| embeds_take (x : jsstring) (l q : list jsstring) :
    embeds l q -> embeds (x :: l) (x :: q)
| embeds_skip (y : jsstring) (l q : list jsstring) :
    embeds l q -> embeds l (y :: q).

(** What every root store reached from a new one satisfies besides
    [root_bounded]: the cached identifiers, in the order of the map, are
    found in that order in the queue. *)
Definition root_ordered (s : RootMessageStore.MessageStore) : Prop :=
  root_bounded s
  /\ embeds (map_keys (RootMessageStore.messages s))
            (RootMessageStore.messageQueue s).

(** * Properties *)

(** ** Strings and insertion-ordered maps *)
Lemma str_eqb_spec (a b : jsstring) : str_eqb a b = true <-> a = b.
Proof.
  revert b; induction a as [|x a IH]; intros [|y b]; simpl; split; intro H;
    try discriminate; try reflexivity.
  - apply andb_true_iff in H as [Hx Hab].
    apply N.eqb_eq in Hx. apply IH in Hab. now subst.
  - injection H as -> ->. apply andb_true_iff. split.
    + apply N.eqb_refl.
    + now apply IH.
Qed.

Lemma str_eqb_refl (a : jsstring) : str_eqb a a = true.
Proof. now apply str_eqb_spec. Qed.

Lemma str_eqb_neq (a b : jsstring) : str_eqb a b = false <-> a <> b.
Proof.
  split.
  - intros H E. apply str_eqb_spec in E. congruence.
  - intro H. destruct (str_eqb a b) eqn:E; [|reflexivity].
    apply str_eqb_spec in E. contradiction.
Qed.

Lemma okey_eqb_spec (a b : option jsstring) : okey_eqb a b = true <-> a = b.
Proof.
  destruct a as [x|], b as [y|]; simpl; split; intro H;
    try discriminate; try reflexivity.
  - apply str_eqb_spec in H. now subst.
  - injection H as ->. apply str_eqb_refl.
Qed.

Section OrderedMapFacts.
Variables K V : Type.
Variable keqb : K -> K -> bool.
Hypothesis keqb_spec : forall a b, keqb a b = true <-> a = b.

Lemma keqb_refl (k : K) : keqb k k = true.
Proof. now apply keqb_spec. Qed.

Lemma map_has_in (k : K) (m : omap K V) :
  map_has keqb k m = true <-> In k (map_keys m).
Proof.
  unfold map_has. induction m as [|[k' v] m IH]; simpl.
  - split; [discriminate | tauto].
  - destruct (keqb k k') eqn:E.
    + apply keqb_spec in E. subst. split; auto.
    + rewrite IH. split; [auto|]. intros [->|H]; [|assumption].
      rewrite keqb_refl in E. discriminate.
Qed.

Lemma map_has_false (k : K) (m : omap K V) :
  map_has keqb k m = false <-> ~ In k (map_keys m).
Proof.
  rewrite <- map_has_in. destruct (map_has keqb k m); split; intro H;
    try discriminate; try reflexivity.
  exfalso. now apply H.
Qed.

Lemma map_set_fresh (k : K) (v : V) (m : omap K V) :
  map_has keqb k m = false -> map_set keqb k v m = m ++ [(k, v)].
Proof.
  unfold map_has. induction m as [|[k' v'] m IH]; simpl; [reflexivity|].
  destruct (keqb k k'); [discriminate|]. intro H. now rewrite IH.
Qed.

Lemma map_set_keys (k : K) (v : V) (m : omap K V) :
  map_has keqb k m = true -> map_keys (map_set keqb k v m) = map_keys m.
Proof.
  unfold map_has. induction m as [|[k' v'] m IH]; simpl; [discriminate|].
  destruct (keqb k k') eqn:E; simpl; [reflexivity|].
  intro H. now rewrite IH.
Qed.

Lemma map_get_set_same (k : K) (v : V) (m : omap K V) :
  map_get keqb k (map_set keqb k v m) = Some v.
Proof.
  induction m as [|[k' v'] m IH]; simpl.
  - now rewrite keqb_refl.
  - destruct (keqb k k') eqn:E; simpl; rewrite E; auto.
Qed.

Lemma map_get_set_other (k k' : K) (v : V) (m : omap K V) :
  k' <> k -> map_get keqb k' (map_set keqb k v m) = map_get keqb k' m.
Proof.
  intro Hne. induction m as [|[k0 v0] m IH]; simpl.
  - destruct (keqb k' k) eqn:E; [|reflexivity].
    apply keqb_spec in E. contradiction.
  - destruct (keqb k k0) eqn:E; simpl.
    + apply keqb_spec in E. subst k0.
      destruct (keqb k' k) eqn:E'; [|reflexivity].
      apply keqb_spec in E'. contradiction.
    + now rewrite IH.
Qed.

End OrderedMapFacts.

(** ** The message caches *)

Lemma root_valid_id (m : Message) (id : jsstring) :
  has_id m id -> RootMessageStore.valid_id (Some m) = Some id.
Proof.
  intros [Hid Hne]. unfold RootMessageStore.valid_id.
  destruct (key m) as [k|]; simpl in *; [|discriminate].
  rewrite Hid. destruct id; [contradiction|reflexivity].
Qed.

Lemma root_add_fresh (s : RootMessageStore.MessageStore) (m : Message)
    (id : jsstring) :
  root_consistent s -> has_id m id -> RootMessageStore.has s id = false ->
  RootMessageStore.add s (Some m) =
    (if RootMessageStore.maxSize s <=? RootMessageStore.size s
     then RootMessageStore.mkStore (RootMessageStore.maxSize s)
            (tl (RootMessageStore.messages s) ++ [(id, m)])
            (tl (RootMessageStore.messageQueue s) ++ [id])
     else RootMessageStore.mkStore (RootMessageStore.maxSize s)
            (RootMessageStore.messages s ++ [(id, m)])
            (RootMessageStore.messageQueue s ++ [id]),
     Returned id).
Proof.
  intros [Hq Hnd] Hid Hfresh. unfold RootMessageStore.add.
  rewrite (root_valid_id Hid).
  unfold RootMessageStore.size, RootMessageStore.has in *.
  destruct s as [n msgs q]; simpl in *. subst q.
  unfold map_keys, map_size. rewrite length_map.
  destruct (n <=? length msgs).
  - destruct msgs as [|[k v] msgs]; simpl.
    + reflexivity.
    + rewrite str_eqb_refl.
      rewrite (map_set_fresh str_eqb); [reflexivity|].
      unfold map_has in *. simpl in Hfresh.
      destruct (str_eqb id k); [discriminate|assumption].
  - now rewrite (map_set_fresh str_eqb).
Qed.

Lemma root_add_consistent (s : RootMessageStore.MessageStore) (m : Message)
    (id : jsstring) :
  root_consistent s -> has_id m id -> RootMessageStore.has s id = false ->
  root_consistent (fst (RootMessageStore.add s (Some m))).
Proof.
  intros Hc Hid Hfresh. rewrite (root_add_fresh Hc Hid Hfresh).
  destruct Hc as [Hq Hnd].
  apply (@map_has_false _ _ _ str_eqb_spec) in Hfresh.
  destruct s as [n msgs q]; simpl in *. subst q.
  assert (Happ : forall l : omap jsstring Message,
             NoDup (map_keys l) -> ~ In id (map_keys l) ->
             NoDup (map_keys l ++ [id])).
  { intros l Hl Hn. apply NoDup_app; [assumption| |].
    - constructor; [intros []|constructor].
    - intros x Hx [<-|[]]. contradiction. }
  unfold RootMessageStore.size; simpl.
  destruct (n <=? map_size msgs); split; simpl.
  - unfold map_keys. rewrite map_app. simpl. now destruct msgs.
  - destruct msgs as [|[k v] msgs]; simpl in *.
    + apply (Happ []); [constructor|tauto].
    + apply Happ; [now inversion Hnd|tauto].
  - unfold map_keys. now rewrite map_app.
  - now apply Happ.
Qed.

Lemma core_add_fresh (s : CoreMessageStore.MessageStore) (m : Message)
    (k : MessageKey) :
  key m = Some k ->
  map_has okey_eqb (key_id k) (CoreMessageStore.messages s) = false ->
  CoreMessageStore.add s (Some m) =
    (if CoreMessageStore.maxSize s <? S (CoreMessageStore.size s)
     then CoreMessageStore.mkStore
            (tl (CoreMessageStore.messages s ++ [(key_id k, m)]))
            (CoreMessageStore.maxSize s)
     else CoreMessageStore.mkStore
            (CoreMessageStore.messages s ++ [(key_id k, m)])
            (CoreMessageStore.maxSize s),
     Returned (key_id k)).
Proof.
  intros Hk Hfresh. unfold CoreMessageStore.add, CoreMessageStore.size.
  rewrite Hk. rewrite (map_set_fresh okey_eqb _ _ _ Hfresh).
  unfold map_size. rewrite length_app, Nat.add_1_r.
  destruct (CoreMessageStore.maxSize s <? S (length (CoreMessageStore.messages s)));
    [|reflexivity].
  destruct (CoreMessageStore.messages s) as [|[k0 v0] msgs]; simpl.
  - destruct (key_id k); simpl; now rewrite ?str_eqb_refl.
  - now rewrite (keqb_refl okey_eqb okey_eqb_spec).
Qed.

Lemma root_create_consistent (optMaxSize : option nat) :
  root_consistent (RootMessageStore.create optMaxSize).
Proof. split; [reflexivity|constructor]. Qed.

Lemma str_eqb_sym (a b : jsstring) : str_eqb a b = str_eqb b a.
Proof.
  destruct (str_eqb a b) eqn:E.
  - apply str_eqb_spec in E. subst. symmetry. apply str_eqb_refl.
  - symmetry. apply str_eqb_neq. apply str_eqb_neq in E. congruence.
Qed.

Lemma queue_remove_keys (id : jsstring) (msgs : omap jsstring Message) :
  RootMessageStore.queue_remove id (map_keys msgs)
  = map_keys (map_delete str_eqb id msgs).
Proof.
  induction msgs as [|[k v] msgs IH]; simpl; [reflexivity|].
  rewrite (str_eqb_sym k id). destruct (str_eqb id k); simpl; [reflexivity|].
  now rewrite IH.
Qed.

Lemma map_delete_subset (id k : jsstring) (msgs : omap jsstring Message) :
  In k (map_keys (map_delete str_eqb id msgs)) -> In k (map_keys msgs).
Proof.
  induction msgs as [|[k' v] msgs IH]; simpl; [tauto|].
  destruct (str_eqb id k'); simpl; [tauto|]. intros [H|H]; auto.
Qed.

(** Removing a message keeps the queue of the root store in step with
    its map. *)
Lemma root_remove_consistent (s : RootMessageStore.MessageStore)
    (id : jsstring) :
  root_consistent s -> root_consistent (fst (RootMessageStore.remove s id)).
Proof.
  intros [Hq Hnd]. unfold RootMessageStore.remove.
  destruct (RootMessageStore.has s id); [|now split].
  destruct s as [n msgs q]; simpl in *. subst q.
  split; simpl; [apply queue_remove_keys|].
  rewrite queue_remove_keys.
  induction msgs as [|[k v] msgs IH]; simpl; [constructor|].
  inversion Hnd as [|? ? Hk Hrest]; subst.
  destruct (str_eqb id k); simpl; [assumption|].
  constructor; [|now apply IH].
  intro H. apply Hk. now apply map_delete_subset in H.
Qed.

Lemma root_three_adds (a b c : jsstring) (ma mb mc : Message) :
  has_id ma a -> has_id mb b -> has_id mc c ->
  a <> b -> a <> c -> b <> c ->
  let s1 := fst (RootMessageStore.add (RootMessageStore.create (Some 2)) (Some ma)) in
  let s2 := fst (RootMessageStore.add s1 (Some mb)) in
  let s3 := fst (RootMessageStore.add s2 (Some mc)) in
  RootMessageStore.get s3 a = None
  /\ RootMessageStore.get s3 b = Some mb
  /\ RootMessageStore.get s3 c = Some mc.
Proof.
  intros Ha Hb Hc Hab Hac Hbc.
  assert (Eba : str_eqb b a = false) by (apply str_eqb_neq; congruence).
  assert (Eab : str_eqb a b = false) by (apply str_eqb_neq; congruence).
  assert (Eac : str_eqb a c = false) by (apply str_eqb_neq; congruence).
  assert (Ecb : str_eqb c b = false) by (apply str_eqb_neq; congruence).
  assert (Ebc : str_eqb b c = false) by (apply str_eqb_neq; congruence).
  unfold RootMessageStore.add, RootMessageStore.create, RootMessageStore.get.
  rewrite (root_valid_id Ha), (root_valid_id Hb), (root_valid_id Hc).
  simpl. rewrite Eba. simpl.
  rewrite !str_eqb_refl. simpl. rewrite Ecb. simpl.
  rewrite Eab, Eac, Ebc, !str_eqb_refl, Ecb. auto.
Qed.

Lemma core_three_adds (a b c : jsstring) (ma mb mc : Message) :
  has_id ma a -> has_id mb b -> has_id mc c ->
  a <> b -> a <> c -> b <> c ->
  let s1 := fst (CoreMessageStore.add (CoreMessageStore.create (Some 2)) (Some ma)) in
  let s2 := fst (CoreMessageStore.add s1 (Some mb)) in
  let s3 := fst (CoreMessageStore.add s2 (Some mc)) in
  CoreMessageStore.get s3 (Some a) = None
  /\ CoreMessageStore.get s3 (Some b) = Some mb
  /\ CoreMessageStore.get s3 (Some c) = Some mc.
Proof.
  intros [Ha _] [Hb _] [Hc _] Hab Hac Hbc.
  assert (Eba : str_eqb b a = false) by (apply str_eqb_neq; congruence).
  assert (Eab : str_eqb a b = false) by (apply str_eqb_neq; congruence).
  assert (Eac : str_eqb a c = false) by (apply str_eqb_neq; congruence).
  assert (Eca : str_eqb c a = false) by (apply str_eqb_neq; congruence).
  assert (Ecb : str_eqb c b = false) by (apply str_eqb_neq; congruence).
  assert (Ebc : str_eqb b c = false) by (apply str_eqb_neq; congruence).
  unfold CoreMessageStore.add, CoreMessageStore.create, CoreMessageStore.get.
  destruct (key ma) as [ka|]; [|discriminate].
  destruct (key mb) as [kb|]; [|discriminate].
  destruct (key mc) as [kc|]; [|discriminate].
  simpl in Ha, Hb, Hc. rewrite Ha, Hb, Hc. simpl.
  rewrite Eba. simpl. rewrite Eca, Ecb. simpl.
  rewrite !str_eqb_refl. simpl.
  rewrite Eab, Eac, Ebc, !str_eqb_refl, Ecb. auto.
Qed.

(** The cache of [src/messageStore.js] evicts first-in first-out as long
    as its queue lists exactly the cached identifiers, each once: a
    message with an identifier that is not yet cached, added to a cache
    that holds exactly [maxSize] entries, takes the place of the entry
    inserted first, every other entry stays in its place and the new
    entry comes last; a cache below its capacity loses nothing. *)
Lemma root_fifo_in_step (s : RootMessageStore.MessageStore) (m : Message)
    (id : jsstring) :
  root_consistent s -> has_id m id -> RootMessageStore.has s id = false ->
  0 < RootMessageStore.maxSize s ->
  let s' := fst (RootMessageStore.add s (Some m)) in
  snd (RootMessageStore.add s (Some m)) = Returned id
  /\ root_consistent s'
  /\ (RootMessageStore.size s = RootMessageStore.maxSize s ->
      exists oldest others,
        RootMessageStore.messages s = oldest :: others
        /\ RootMessageStore.messages s' = others ++ [(id, m)])
  /\ (RootMessageStore.size s < RootMessageStore.maxSize s ->
      RootMessageStore.messages s' = RootMessageStore.messages s ++ [(id, m)]).
Proof.
  intros Hc Hid Hfresh Hpos s'.
  pose proof (root_add_consistent Hc Hid Hfresh) as Hc'.
  subst s'. rewrite (root_add_fresh Hc Hid Hfresh) in *. simpl.
  split; [reflexivity|]. split; [exact Hc'|].
  unfold RootMessageStore.size, map_size. split; intro Hsz.
  - rewrite Hsz, Nat.leb_refl. simpl.
    destruct (RootMessageStore.messages s) as [|oldest others];
      [simpl in Hsz; lia|].
    now exists oldest, others.
  - apply Nat.leb_gt in Hsz. now rewrite Hsz.
Qed.

(** The cache of [src/src/core/messageStore.js] evicts first-in first-out
    in every state: a message with an identifier that is not yet cached,
    added to a cache that holds exactly [maxSize] entries, takes the place
    of the entry inserted first; a cache below its capacity loses
    nothing. *)
Lemma core_fifo_eviction (s : CoreMessageStore.MessageStore) (m : Message)
    (id : jsstring) :
  has_id m id ->
  CoreMessageStore.get s (Some id) = None ->
  0 < CoreMessageStore.maxSize s ->
  let s' := fst (CoreMessageStore.add s (Some m)) in
  snd (CoreMessageStore.add s (Some m)) = Returned (Some id)
  /\ (CoreMessageStore.size s = CoreMessageStore.maxSize s ->
      exists oldest others,
        CoreMessageStore.messages s = oldest :: others
        /\ CoreMessageStore.messages s' = others ++ [(Some id, m)])
  /\ (CoreMessageStore.size s < CoreMessageStore.maxSize s ->
      CoreMessageStore.messages s' =
        CoreMessageStore.messages s ++ [(Some id, m)]).
Proof.
  intros [Hid Hne] Hfresh Hpos s'.
  destruct (key m) as [k|] eqn:Hk; [|discriminate]. simpl in Hid.
  assert (Hhas : map_has okey_eqb (key_id k) (CoreMessageStore.messages s) = false).
  { unfold map_has. rewrite Hid. unfold CoreMessageStore.get in Hfresh.
    now rewrite Hfresh. }
  subst s'. rewrite (@core_add_fresh s m k Hk Hhas). rewrite Hid. simpl.
  split; [reflexivity|].
  unfold CoreMessageStore.size, map_size. split; intro Hsz.
  - rewrite Hsz. replace (_ <? _) with true
      by (symmetry; apply Nat.ltb_lt; lia). simpl.
    destruct (CoreMessageStore.messages s) as [|oldest others];
      [simpl in Hsz; lia|].
    now exists oldest, others.
  - replace (_ <? _) with false by (symmetry; apply Nat.ltb_ge; lia).
    reflexivity.
Qed.

(** C7, where the code departs from it.  The cache of
    [src/messageStore.js] decides on the length of its queue of
    identifiers, not on the number of cached messages, and [add] pushes
    the identifier on the queue also when the message is cached already.
    With capacity 3, after add A, add A again, add B and add A once more,
    the cache holds two messages, B and behind it A, and is below its
    capacity; adding C still evicts, and what goes is A, the entry
    inserted last, while the older B stays.  The same happens when the
    second A left through [remove]: after add A, add A, add B, remove A
    and add A.  (As long as no cached identifier is added again the cache
    evicts first-in first-out, see [root_fifo_in_step], and it passes the
    example with capacity 2, see [root_three_adds]; the cache of
    [src/src/core/messageStore.js] complies in every state, see
    [core_fifo_eviction] and [core_three_adds].) *)
Theorem root_evicts_newest_below_capacity :
  let add := fun s m => fst (RootMessageStore.add s (Some m)) in
  let s := add (add (add (add (RootMessageStore.create (Some 3)) msgA) msgA)
                    msgB) msgA in
  let t := add (fst (RootMessageStore.remove
                       (add (add (add (RootMessageStore.create (Some 3)) msgA)
                                 msgA) msgB)
                       (js "A"))) msgA in
  (RootMessageStore.maxSize s = 3
   /\ RootMessageStore.size s = 2
   /\ map_keys (RootMessageStore.messages s) = [js "B"; js "A"]
   /\ RootMessageStore.has s (js "C") = false
   /\ RootMessageStore.get (add s msgC) (js "A") = None
   /\ RootMessageStore.get (add s msgC) (js "B") = Some msgB
   /\ RootMessageStore.get (add s msgC) (js "C") = Some msgC
   /\ RootMessageStore.size (add s msgC) = 2)
  /\ (RootMessageStore.size t = 2
      /\ map_keys (RootMessageStore.messages t) = [js "B"; js "A"]
      /\ RootMessageStore.get (add t msgC) (js "A") = None
      /\ RootMessageStore.get (add t msgC) (js "B") = Some msgB
      /\ RootMessageStore.size (add t msgC) = 2).
Proof.
  vm_compute.
  split; [split; [|split; [|split; [|split; [|split; [|split; [|split]]]]]]
         | split; [|split; [|split; [|split]]]];
    reflexivity.
Qed.

Lemma root_add_rejects_missing_id (s : RootMessageStore.MessageStore)
    (message : option Message) :
  RootMessageStore.valid_id message = None ->
  RootMessageStore.add s message = (s, Thrown).
Proof.
  intro H. unfold RootMessageStore.add.
  destruct message as [m|]; [|reflexivity]. now rewrite H.
Qed.

Lemma root_rejects_every_message_without_id (s : RootMessageStore.MessageStore)
    (m : Message) :
  ~ (exists id, has_id m id) ->
  RootMessageStore.add s (Some m) = (s, Thrown).
Proof.
  intro H. apply root_add_rejects_missing_id.
  unfold RootMessageStore.valid_id.
  destruct (key m) as [k|] eqn:Hk; [|reflexivity].
  destruct (key_id k) as [[|c id]|] eqn:Hid; simpl; try reflexivity.
  exfalso. apply H. exists (c :: id). unfold has_id. rewrite Hk. simpl.
  split; [assumption|discriminate].
Qed.

Lemma core_add_without_key_throws (s : CoreMessageStore.MessageStore)
    (m : Message) :
  key m = None -> CoreMessageStore.add s (Some m) = (s, Thrown).
Proof. intro H. unfold CoreMessageStore.add. now rewrite H. Qed.

Lemma core_add_never_checks_id (s : CoreMessageStore.MessageStore)
    (m : Message) (k : MessageKey) :
  key m = Some k ->
  snd (CoreMessageStore.add s (Some m)) = Returned (key_id k).
Proof. intro H. unfold CoreMessageStore.add. now rewrite H. Qed.

(** C8, where the code departs from it.  The cache of
    [src/src/core/messageStore.js] does not check [message.key.id]: a
    message whose key has no identifier is stored under the key
    [undefined] and [add] returns normally, so the cache grows.  (The
    cache of [src/messageStore.js] throws and stays as it was, see
    [root_rejects_every_message_without_id].) *)
Theorem core_add_stores_message_without_id :
  let s := CoreMessageStore.create None in
  let r := CoreMessageStore.add s (Some msgWithoutId) in
  bind_opt (key msgWithoutId) key_id = None
  /\ snd r = Returned None
  /\ CoreMessageStore.size s = 0
  /\ CoreMessageStore.size (fst r) = 1
  /\ CoreMessageStore.get (fst r) None = Some msgWithoutId.
Proof.
  simpl. repeat split; reflexivity.
Qed.

Lemma core_add_existing (s : CoreMessageStore.MessageStore) (m : Message)
    (id : jsstring) :
  core_within_capacity s -> has_id m id ->
  map_has okey_eqb (Some id) (CoreMessageStore.messages s) = true ->
  let s' := fst (CoreMessageStore.add s (Some m)) in
  CoreMessageStore.size s' = CoreMessageStore.size s
  /\ map_keys (CoreMessageStore.messages s') = map_keys (CoreMessageStore.messages s)
  /\ CoreMessageStore.get s' (Some id) = Some m
  /\ forall other, other <> Some id ->
       CoreMessageStore.get s' other = CoreMessageStore.get s other.
Proof.
  intros Hcap [Hid _] Hhas. unfold CoreMessageStore.add.
  destruct (key m) as [k|]; [|discriminate]. simpl in Hid. rewrite Hid.
  assert (Hkeys := map_set_keys okey_eqb (Some id) m _ Hhas).
  assert (Hlen : map_size (map_set okey_eqb (Some id) m (CoreMessageStore.messages s))
                 = map_size (CoreMessageStore.messages s)).
  { unfold map_size. rewrite <- (length_map fst), <- (length_map fst (CoreMessageStore.messages s)).
    unfold map_keys in Hkeys. now rewrite Hkeys. }
  rewrite Hlen.
  replace (_ <? _) with false
    by (symmetry; apply Nat.ltb_ge; exact Hcap).
  simpl. unfold CoreMessageStore.size, CoreMessageStore.get. simpl.
  repeat split; try assumption.
  - apply (map_get_set_same okey_eqb okey_eqb_spec).
  - intros other Hne. now apply (map_get_set_other okey_eqb okey_eqb_spec).
Qed.

(** C10, where the code departs from it.  The cache of
    [src/messageStore.js] pushes the identifier on its queue a second
    time and, being at its capacity, evicts the oldest entry: with
    capacity 2 holding A and B, adding B again makes A a miss.  (The cache
    of [src/src/core/messageStore.js] keeps every other entry, see
    [core_add_existing].) *)
Theorem root_add_existing_evicts :
  let s := fst (RootMessageStore.add
                  (fst (RootMessageStore.add (RootMessageStore.create (Some 2))
                                             (Some msgA)))
                  (Some msgB)) in
  let s' := fst (RootMessageStore.add s (Some msgB')) in
  RootMessageStore.has s (js "B") = true
  /\ RootMessageStore.get s (js "A") = Some msgA
  /\ RootMessageStore.get s' (js "A") = None
  /\ RootMessageStore.size s = 2
  /\ RootMessageStore.size s' = 1
  /\ RootMessageStore.messageQueue s' = [js "B"; js "B"].
Proof. vm_compute. repeat split; reflexivity. Qed.

(** ** Storage keys *)

(** Replacing every code unit of a class works unit by unit. *)
Lemma replace_loop_class (p : code_unit -> bool) (replacement : jsstring) :
  forall (s : jsstring) (fuel : nat) (q : option code_unit),
    length s < fuel ->
    replace_loop fuel (Chars p) replacement q s =
      flat_map (fun c => if p c then replacement else [c]) s.
Proof.
  induction s as [|c t IH]; intros fuel q Hfuel;
    (destruct fuel as [|fuel]; [inversion Hfuel|]); simpl.
  - reflexivity.
  - unfold match_here. simpl. destruct (p c); simpl.
    + rewrite IH by (simpl in Hfuel; lia). reflexivity.
    + rewrite IH by (simpl in Hfuel; lia). reflexivity.
Qed.

Lemma replace_all_class (p : code_unit -> bool) (replacement s : jsstring) :
  replace_all (Chars p) replacement s =
    flat_map (fun c => if p c then replacement else [c]) s.
Proof. apply replace_loop_class. lia. Qed.

Lemma cleanId_map (userId : jsstring) :
  replace_all unsafeForFilenames (js "_") userId = map clean_unit userId.
Proof.
  unfold unsafeForFilenames. rewrite replace_all_class.
  induction userId as [|c t IH]; simpl; [reflexivity|].
  rewrite IH. unfold clean_unit. now destruct (is_alnum c).
Qed.

Lemma clean_unit_eq (x y : code_unit) :
  clean_unit x = clean_unit y <-> cleaned_alike x y.
Proof.
  unfold clean_unit, cleaned_alike.
  destruct (is_alnum x) eqn:Hx, (is_alnum y) eqn:Hy; split; intro H.
  - now left.
  - destruct H as [H|[H _]]; [assumption|discriminate].
  - subst x. discriminate.
  - destruct H as [H|[H _]]; [|discriminate]. subst x. congruence.
  - subst y. discriminate.
  - destruct H as [H|[_ H]]; [|discriminate]. subst x. congruence.
  - now right.
  - reflexivity.
Qed.

Lemma map_clean_eq (a b : jsstring) :
  map clean_unit a = map clean_unit b <-> Forall2 cleaned_alike a b.
Proof.
  revert b. induction a as [|x a IH]; intros [|y b]; simpl; split; intro H;
    try discriminate; try constructor; try (now inversion H).
  - injection H as Hxy _. now apply clean_unit_eq.
  - injection H as _ Hab. now apply IH.
  - inversion H as [|? ? ? ? Hxy Hab]; subst.
    apply clean_unit_eq in Hxy. apply IH in Hab. congruence.
Qed.

Lemma forall2_prefix {A : Type} (R : A -> A -> Prop) :
  forall (la lb s s' : list A),
    length la = length lb ->
    Forall2 R (la ++ s) (lb ++ s') -> Forall2 R la lb.
Proof.
  induction la as [|x la IH]; intros [|y lb] s s' Hlen H;
    try discriminate; [constructor|].
  simpl in *. inversion H; subst. constructor; [assumption|].
  apply (IH lb s s'); [lia|assumption].
Qed.

Lemma alike_alnum_equal (la lb : jsstring) :
  forallb is_alnum la = true -> Forall2 cleaned_alike la lb -> la = lb.
Proof.
  intros Ha H. induction H as [|x y la lb Hxy H IH]; [reflexivity|].
  simpl in Ha. apply andb_true_iff in Ha. destruct Ha as [Hx Ha].
  rewrite (IH Ha). destruct Hxy as [->|[Hn _]]; [reflexivity|congruence].
Qed.

(** C1, as the code has it.  The storage key replaces every code unit
    outside [[a-zA-Z0-9]] by an underscore, so it is a function of the
    address but not an injective one: two addresses with the same
    [isGroup] flag share a key exactly when they have the same length and
    carry, position by position, either the same code unit or two code
    units outside [[a-zA-Z0-9]].  A group and a direct chat never share a
    key, and neither do two addresses that consist of different runs of
    letters and digits in front of the same ending, such as two phone
    numbers in front of [@s.whatsapp.net]. *)
Theorem storage_key_collisions (a b : jsstring) (isGroup : bool) :
  (getUserDataPath a isGroup = getUserDataPath b isGroup
   <-> Forall2 cleaned_alike a b)
  /\ getUserDataPath a true <> getUserDataPath b false
  /\ (forall ending : jsstring,
        forallb is_alnum a = true -> forallb is_alnum b = true ->
        getUserDataPath (a ++ ending) isGroup
        = getUserDataPath (b ++ ending) isGroup ->
        a = b).
Proof.
  assert (Hiff : forall x y,
             getUserDataPath x isGroup = getUserDataPath y isGroup
             <-> Forall2 cleaned_alike x y).
  { intros x y. unfold getUserDataPath. rewrite !cleanId_map. split.
    - intro H. injection H as H. apply app_inv_tail in H.
      now apply map_clean_eq.
    - intro H. apply map_clean_eq in H. now rewrite H. }
  split; [apply Hiff|]. split.
  - unfold getUserDataPath. discriminate.
  - intros ending Ha Hb H. apply Hiff in H.
    apply alike_alnum_equal; [exact Ha|].
    apply (@forall2_prefix _ cleaned_alike a b ending ending); [|exact H].
    apply Forall2_length in H. rewrite !length_app in H. lia.
Qed.

Lemma storage_key_collisions_witness :
  getUserDataPath (js "8801711111111@s.whatsapp.net") false
  <> getUserDataPath (js "8801722222222@s.whatsapp.net") false.
Proof.
  destruct (storage_key_collisions (js "8801711111111") (js "8801722222222")
                                   false) as (_ & _ & Hinj).
  intro H.
  assert (E : js "8801711111111" = js "8801722222222").
  { apply (Hinj (js "@s.whatsapp.net")); [vm_compute; reflexivity
                                         |vm_compute; reflexivity|].
    vm_compute. vm_compute in H. exact H. }
  vm_compute in E. discriminate.
Defined.

(** C1 as stated fails: a device address and an agent address of the same
    number are distinct and obtain the same key. *)
Lemma storage_key_not_injective :
  js "8801712345678:1@s.whatsapp.net" <> js "8801712345678_1@s.whatsapp.net"
  /\ getUserDataPath (js "8801712345678:1@s.whatsapp.net") false
     = getUserDataPath (js "8801712345678_1@s.whatsapp.net") false.
Proof. split; [vm_compute; discriminate | vm_compute; reflexivity]. Qed.

(** ** The stored records *)

Lemma path_eqb_spec (a b : FilePath) : path_eqb a b = true <-> a = b.
Proof.
  destruct a as [da fa], b as [db fb]. unfold path_eqb. simpl.
  rewrite andb_true_iff, str_eqb_spec. split.
  - intros [Hd ->]. destruct da, db; simpl in Hd; congruence.
  - intro H. injection H as -> ->. split; [now destruct db|reflexivity].
Qed.

Lemma load_after_save (env env' : Env) (fs : FileSystem) (userId : jsstring)
    (isGroup : bool) (d : UserData) :
  loadUserData env' (saveUserData env fs userId isGroup d) userId isGroup
  = set_profile d (set_updatedAt (profile d) (now env)).
Proof.
  unfold loadUserData, saveUserData.
  now rewrite (map_get_set_same path_eqb path_eqb_spec).
Qed.

Lemma load_fresh (env : Env) (fs : FileSystem) (userId : jsstring)
    (isGroup : bool) :
  map_get path_eqb (getUserDataPath userId isGroup) fs = None ->
  loadUserData env fs userId isGroup = defaultUserData env userId isGroup.
Proof. intro H. unfold loadUserData. now rewrite H. Qed.

(** ** Character tests *)

Lemma find_match_class (p : code_unit -> bool) :
  forall (s : jsstring) (q : option code_unit),
    (exists r, find_match (Chars p) q s = Some r) <-> existsb p s = true.
Proof.
  induction s as [|c t IH]; intro q; simpl.
  - unfold match_here. simpl. split; [intros [r H]|intro H]; discriminate.
  - unfold match_here. simpl. destruct (p c) eqn:Hc; simpl.
    + split; [reflexivity|]. intros _. eexists. reflexivity.
    + rewrite <- (IH (Some c)).
      destruct (find_match (Chars p) (Some c) t) as [[sk st]|].
      * split; intros _; eexists; reflexivity.
      * split; intros [r H]; discriminate.
Qed.

Lemma test_class (p : code_unit -> bool) (s : jsstring) :
  test (Chars p) s = existsb p s.
Proof.
  unfold test. pose proof (find_match_class p s None) as H.
  destruct (find_match (Chars p) None s) as [r|].
  - symmetry. apply H. now exists r.
  - destruct (existsb p s); [|reflexivity].
    destruct (proj2 H eq_refl) as [r Hr]. discriminate.
Qed.

Lemma trimStart_nil (s : jsstring) :
  trimStart s = [] -> forallb is_space s = true.
Proof.
  induction s as [|c t IH]; simpl; [reflexivity|].
  destruct (is_space c); [exact IH|discriminate].
Qed.

Lemma trimStart_head (s : jsstring) (c : code_unit) (t : jsstring) :
  trimStart s = c :: t -> is_space c = false.
Proof.
  induction s as [|x s IH]; simpl; [discriminate|].
  destruct (is_space x) eqn:Hx; [exact IH|].
  intro H. injection H as -> _. exact Hx.
Qed.

Lemma forallb_rev (p : code_unit -> bool) (s : jsstring) :
  forallb p (rev s) = forallb p s.
Proof.
  induction s as [|c t IH]; simpl; [reflexivity|].
  rewrite forallb_app, IH. simpl. rewrite andb_true_r. apply andb_comm.
Qed.

Lemma trim_nil (s : jsstring) : trim s = [] -> forallb is_space s = true.
Proof.
  unfold trim. intro H.
  assert (H1 : trimStart (rev (trimStart s)) = []).
  { destruct (trimStart (rev (trimStart s))) as [|x l]; [reflexivity|].
    simpl in H. destruct (rev l); discriminate. }
  apply trimStart_nil in H1. rewrite forallb_rev in H1.
  destruct (trimStart s) as [|c t] eqn:Hs.
  - now apply trimStart_nil.
  - apply trimStart_head in Hs. simpl in H1. rewrite Hs in H1. discriminate.
Qed.

Lemma space_cases (c : code_unit) :
  is_space c = true ->
  (9 <= c <= 13 \/ c = 32 \/ c = 160 \/ c = 5760 \/ 8192 <= c <= 8202
   \/ c = 8232 \/ c = 8233 \/ c = 8239 \/ c = 8287 \/ c = 12288 \/ c = 65279)%N.
Proof.
  unfold is_space, in_range, cu_eqb.
  rewrite !orb_true_iff, !andb_true_iff, !N.leb_le, !N.eqb_eq.
  intros H. simpl in H. lia.
Qed.

Lemma in_range_iff (lo hi c : code_unit) :
  in_range lo hi c = true <-> (lo <= c <= hi)%N.
Proof. unfold in_range. now rewrite andb_true_iff, !N.leb_le. Qed.

Lemma alpha_cases (c : code_unit) :
  is_alpha c = true -> (97 <= c <= 122 \/ 65 <= c <= 90)%N.
Proof.
  unfold is_alpha, is_lower, is_upper.
  rewrite orb_true_iff, !in_range_iff. tauto.
Qed.

(** A text of white space has no code unit in any of the four ranges. *)
Lemma blank_has_no_script (s : jsstring) (p : code_unit -> bool) :
  (forall c, p c = true ->
     (1536 <= c <= 1791 \/ 2304 <= c <= 2559 \/ 97 <= c <= 122 \/ 65 <= c <= 90)%N) ->
  forallb is_space s = true -> existsb p s = false.
Proof.
  intros Hp. induction s as [|c t IH]; simpl; [reflexivity|].
  rewrite andb_true_iff. intros [Hc Ht]. rewrite (IH Ht), orb_false_r.
  destruct (p c) eqn:E; [|reflexivity].
  apply Hp in E. apply space_cases in Hc. lia.
Qed.

Lemma blank_detects_auto (s : jsstring) :
  forallb is_space s = true -> detectedLanguage s = js "auto".
Proof.
  intro H. unfold detectedLanguage, bengaliPattern, arabicPattern,
    hindiPattern, englishPattern.
  rewrite !test_class.
  rewrite !(blank_has_no_script s); try assumption; try reflexivity;
    intros c Hc; try (apply alpha_cases in Hc);
    try (unfold bengaliRange, arabicRange, hindiRange in Hc;
         apply in_range_iff in Hc);
    lia.
Qed.

(** ** Language detection *)

Lemma detect_returns_detected (env : Env) (fs : FileSystem) (userId : jsstring)
    (isGroup : bool) (messageText : jsstring) :
  snd (detectAndUpdateLanguage env fs userId isGroup messageText)
  = detectedLanguage messageText.
Proof.
  unfold detectAndUpdateLanguage.
  destruct messageText as [|c t] eqn:Ht; [reflexivity|]. simpl nonempty.
  cbn [negb orb]. rewrite <- Ht.
  destruct (length (trim messageText) =? 0) eqn:Hb.
  - apply Nat.eqb_eq in Hb.
    destruct (trim messageText) eqn:Htrim; [|discriminate].
    apply trim_nil in Htrim. simpl. symmetry. now apply blank_detects_auto.
  - destruct (negb (str_eqb (detectedLanguage messageText) (js "auto"))); [|reflexivity].
    now destruct (_ || _).
Qed.

Lemma not_auto_not_blank (messageText : jsstring) :
  detectedLanguage messageText <> js "auto" ->
  negb (nonempty messageText) || (length (trim messageText) =? 0) = false.
Proof.
  intro H. destruct messageText as [|c t] eqn:Ht.
  - exfalso. apply H. reflexivity.
  - rewrite <- Ht. simpl. rewrite Ht at 1. simpl.
    destruct (length (trim messageText) =? 0) eqn:Hb; [|reflexivity].
    exfalso. apply H. apply Nat.eqb_eq in Hb.
    destruct (trim messageText) eqn:Htrim; [|discriminate].
    rewrite <- Ht. apply blank_detects_auto. now apply trim_nil.
Qed.

Lemma detect_keeps_set_preference (env : Env) (fs : FileSystem)
    (userId : jsstring) (isGroup : bool) (messageText : jsstring) :
  language (preferences (loadUserData env fs userId isGroup)) <> js "auto" ->
  language (preferences (loadUserData env fs userId isGroup)) <> [] ->
  fst (detectAndUpdateLanguage env fs userId isGroup messageText) = fs.
Proof.
  intros Hauto Hne. unfold detectAndUpdateLanguage.
  destruct (_ || _); [reflexivity|].
  destruct (negb (str_eqb (detectedLanguage messageText) (js "auto"))); [|reflexivity].
  apply str_eqb_neq in Hauto. rewrite Hauto.
  destruct (language (preferences (loadUserData env fs userId isGroup)));
    [contradiction|reflexivity].
Qed.

Lemma detect_persists_on_auto (env env' : Env) (fs : FileSystem)
    (userId : jsstring) (isGroup : bool) (messageText : jsstring) :
  language (preferences (loadUserData env fs userId isGroup)) = js "auto" ->
  detectedLanguage messageText <> js "auto" ->
  language (preferences
              (loadUserData env'
                 (fst (detectAndUpdateLanguage env fs userId isGroup messageText))
                 userId isGroup))
  = detectedLanguage messageText.
Proof.
  intros Hauto Hdet. unfold detectAndUpdateLanguage.
  rewrite not_auto_not_blank by assumption.
  apply str_eqb_neq in Hdet. rewrite Hdet. simpl negb. cbv iota.
  rewrite Hauto. rewrite str_eqb_refl, orb_true_r.
  unfold updateUserProfile. simpl fst. rewrite load_after_save. reflexivity.
Qed.

Lemma bengali_detected (messageText : jsstring) :
  existsb bengaliRange messageText = true ->
  detectedLanguage messageText = js "bn".
Proof.
  intro H. unfold detectedLanguage, bengaliPattern. now rewrite test_class, H.
Qed.

(** C6.  [detectAndUpdateLanguage] looks for a Bengali, then an Arabic,
    then a Devanagari, then a Latin code unit and answers with the code of
    the first range that occurs ([auto] when none does); the answer is the
    detected code whether or not anything is stored.  The stored
    preference changes only when it is still [auto]: a preference already
    set leaves the files untouched, and so does a text in which nothing is
    detected.  Hence, on a record whose preference is [auto] (every record
    that was never stored is one), a first call with a text that has a
    Bengali code unit answers [bn] and stores [bn], and a second call with
    any text leaves the files, and with them the stored [bn], as they
    are. *)
Theorem language_detected_and_kept (env : Env) (fs : FileSystem)
    (userId : jsstring) (isGroup : bool) (messageText : jsstring) :
  let r := detectAndUpdateLanguage env fs userId isGroup messageText in
  let current := language (preferences (loadUserData env fs userId isGroup)) in
  detectedLanguage messageText =
    (if existsb bengaliRange messageText then js "bn"
     else if existsb arabicRange messageText then js "ar"
     else if existsb hindiRange messageText then js "hi"
     else if existsb is_alpha messageText then js "en"
     else js "auto")
  /\ snd r = detectedLanguage messageText
  /\ (current <> js "auto" -> current <> [] -> fst r = fs)
  /\ (detectedLanguage messageText = js "auto" -> fst r = fs)
  /\ (current = js "auto" -> detectedLanguage messageText <> js "auto" ->
      forall env',
        language (preferences (loadUserData env' (fst r) userId isGroup))
        = detectedLanguage messageText)
  /\ (map_get path_eqb (getUserDataPath userId isGroup) fs = None ->
      current = js "auto")
  /\ (current = js "auto" ->
      existsb bengaliRange messageText = true ->
      snd r = js "bn"
      /\ forall (env1 env2 env3 : Env) (otherText : jsstring),
           let r2 := detectAndUpdateLanguage env2 (fst r) userId isGroup otherText in
           language (preferences (loadUserData env1 (fst r) userId isGroup)) = js "bn"
           /\ fst r2 = fst r
           /\ snd r2 = detectedLanguage otherText
           /\ language (preferences (loadUserData env3 (fst r2) userId isGroup))
              = js "bn").
Proof.
  intros r current. subst r current.
  split; [|split; [|split; [|split; [|split; [|split]]]]].
  - unfold detectedLanguage, bengaliPattern, arabicPattern, hindiPattern,
      englishPattern. now rewrite !test_class.
  - apply detect_returns_detected.
  - apply detect_keeps_set_preference.
  - intro H. unfold detectAndUpdateLanguage.
    destruct (_ || _); [reflexivity|]. now rewrite H.
  - intros Hauto Hdet env'. now apply detect_persists_on_auto.
  - intro H. now rewrite load_fresh by assumption.
  - intros Hauto Hbn. pose proof Hbn as Hd. apply bengali_detected in Hd.
    assert (Hna : detectedLanguage messageText <> js "auto")
      by (rewrite Hd; vm_compute; discriminate).
    split; [now rewrite detect_returns_detected|].
    intros env1 env2 env3 otherText r2. subst r2.
    assert (Hstored : forall e,
               language (preferences
                 (loadUserData e
                    (fst (detectAndUpdateLanguage env fs userId isGroup messageText))
                    userId isGroup)) = js "bn").
    { intro e. rewrite detect_persists_on_auto by assumption. exact Hd. }
    assert (Hkeep :
              fst (detectAndUpdateLanguage env2
                     (fst (detectAndUpdateLanguage env fs userId isGroup messageText))
                     userId isGroup otherText)
              = fst (detectAndUpdateLanguage env fs userId isGroup messageText)).
    { apply detect_keeps_set_preference; rewrite Hstored; vm_compute; discriminate. }
    split; [apply Hstored|]. split; [exact Hkeep|].
    split; [apply detect_returns_detected|].
    rewrite Hkeep. apply Hstored.
Qed.

Lemma language_detected_and_kept_witness :
  let user := js "8801@s.whatsapp.net" in
  let r := detectAndUpdateLanguage sampleEnv [] user false (js "আমি") in
  let r2 := detectAndUpdateLanguage sampleEnv (fst r) user false (js "hello") in
  snd r = js "bn"
  /\ language (preferences (loadUserData sampleEnv (fst r) user false)) = js "bn"
  /\ fst r2 = fst r
  /\ snd r2 = js "en"
  /\ language (preferences (loadUserData sampleEnv (fst r2) user false)) = js "bn".
Proof.
  intros user r r2.
  destruct (language_detected_and_kept sampleEnv [] user false (js "আমি"))
    as (_ & _ & _ & _ & _ & Hfresh & Hscenario).
  assert (Hauto : language (preferences (loadUserData sampleEnv [] user false))
                  = js "auto") by (apply Hfresh; reflexivity).
  assert (Hbn : existsb bengaliRange (js "আমি") = true) by (vm_compute; reflexivity).
  destruct (Hscenario Hauto Hbn) as [H1 H2].
  destruct (H2 sampleEnv sampleEnv sampleEnv (js "hello")) as (H3 & H4 & H5 & H6).
  split; [exact H1|]. split; [exact H3|]. split; [exact H4|].
  split; [|exact H6]. subst r2 r. rewrite H5. vm_compute. reflexivity.
Defined.

(** ** Group names *)

Lemma profileFromMessage_group_name (message : MessageArg) (p : Profile) :
  profile_name (profileFromMessage true message p)
  = groupNameAfter (profile_name p) message false.
Proof.
  unfold profileFromMessage, groupNameAfter. simpl.
  destruct (truthy (bind_opt (arg_key message) remoteJid)); [|reflexivity].
  destruct (arg_groupMetadata message) as [gm|]; [|reflexivity]. simpl.
  destruct (truthy (subject gm)), (truthy (desc gm)), (gm_participants gm);
    reflexivity.
Qed.

Lemma add_message_profile (env : Env) (fs : FileSystem) (userId : jsstring)
    (isGroup : bool) (message : MessageArg) (fromMe : bool) :
  profile_name (profile (snd (addMessageToConversation env fs userId isGroup
                                message fromMe)))
  = profile_name
      (if negb fromMe
       then profileFromMessage isGroup message
              (profile (loadUserData env fs userId isGroup))
       else profile (loadUserData env fs userId isGroup)).
Proof.
  unfold addMessageToConversation.
  destruct (if negb fromMe then _ else None) as [s|];
    [destruct (negb fromMe && isGroup && nonempty (sender_id s))|];
    reflexivity.
Qed.

Lemma add_message_stored (env env' : Env) (fs : FileSystem) (userId : jsstring)
    (isGroup : bool) (message : MessageArg) (fromMe : bool) :
  loadUserData env'
    (fst (addMessageToConversation env fs userId isGroup message fromMe))
    userId isGroup
  = snd (addMessageToConversation env fs userId isGroup message fromMe).
Proof.
  unfold addMessageToConversation.
  destruct (if negb fromMe then _ else None) as [s|];
    [destruct (negb fromMe && isGroup && nonempty (sender_id s))|];
    simpl; now rewrite load_after_save.
Qed.

(** What holds of C5 in [addMessageToConversation]: the name of a group
    record afterwards is the subject of the message's group metadata or
    the name held before, whatever the sender's display name is. *)
Lemma add_message_group_name (env env' : Env) (fs : FileSystem)
    (userId : jsstring) (message : MessageArg) (fromMe : bool)
    (otherName : option jsstring) :
  let stored m :=
    profile_name (profile (loadUserData env'
      (fst (addMessageToConversation env fs userId true m fromMe)) userId true)) in
  stored message
  = groupNameAfter (profile_name (profile (loadUserData env fs userId true)))
                   message fromMe
  /\ stored (arg_with_pushName message otherName) = stored message.
Proof.
  assert (H : forall m,
             profile_name (profile (loadUserData env'
               (fst (addMessageToConversation env fs userId true m fromMe))
               userId true))
             = groupNameAfter
                 (profile_name (profile (loadUserData env fs userId true)))
                 m fromMe).
  { intro m. rewrite add_message_stored, add_message_profile.
    destruct fromMe; simpl.
    - reflexivity.
    - apply profileFromMessage_group_name. }
  simpl. split; [apply H|]. rewrite !H.
  destruct message; reflexivity.
Qed.

(** C5, where the code departs from it.  [sendAutoReply], which
    [processMessage] calls for a message without mentions, stores the
    sender's display name as the profile name of any record that has no
    name yet, group records included.  A group whose subject is the text
    [Unknown Group] is never given its name by [processMessage], so the
    first message of a member called Alice makes Alice the name of the
    group. *)
Theorem group_named_after_sender :
  isGroupMessage helloFromAlice = true
  /\ pushName helloFromAlice = Some (js "Alice")
  /\ exists st,
       processMessage sampleEnv unknownGroupServices (mkPipeline [] [])
                      helloFromAlice = Returned st
       /\ profile_name (profile (loadUserData sampleEnv (files st)
                                   (js "120363001@g.us") true))
          = Some (js "Alice").
Proof.
  split; [vm_compute; reflexivity|]. split; [reflexivity|].
  eexists. split; [vm_compute; reflexivity|]. vm_compute. reflexivity.
Qed.

Lemma update_profile_stored (env env' : Env) (fs : FileSystem)
    (userId : jsstring) (isGroup : bool) (info : ProfileInfo)
    (additionalData : AdditionalData) :
  loadUserData env'
    (fst (updateUserProfile env fs userId isGroup info additionalData))
    userId isGroup
  = snd (updateUserProfile env fs userId isGroup info additionalData).
Proof. unfold updateUserProfile. simpl. now rewrite load_after_save. Qed.

(** The group branch of [processMessage] itself names a group after the
    fetched subject, the stored name or the group address, never after
    the sender. *)
Lemma refreshGroup_name (env env' : Env) (sv : Services) (fs : FileSystem)
    (jid : jsstring) (message : Message) (otherName : option jsstring) :
  let named m :=
    profile_name (profile (loadUserData env' (refreshGroup env sv fs jid m)
                                        jid true)) in
  let groupName :=
    groupNameFor message (loadUserData env fs jid true) (fetchedGroupMetadata sv) in
  named message
  = (if truthy groupName && negb (okey_eqb groupName (Some (js "Unknown Group")))
     then groupName
     else profile_name (profile (loadUserData env' fs jid true)))
  /\ named (with_pushName message otherName) = named message.
Proof.
  assert (H : forall m,
    profile_name (profile (loadUserData env' (refreshGroup env sv fs jid m)
                                        jid true))
    = (if truthy (groupNameFor m (loadUserData env fs jid true)
                               (fetchedGroupMetadata sv))
          && negb (okey_eqb (groupNameFor m (loadUserData env fs jid true)
                                          (fetchedGroupMetadata sv))
                            (Some (js "Unknown Group")))
       then groupNameFor m (loadUserData env fs jid true) (fetchedGroupMetadata sv)
       else profile_name (profile (loadUserData env' fs jid true)))).
  { intro m. unfold refreshGroup.
    set (g := groupNameFor m (loadUserData env fs jid true) (fetchedGroupMetadata sv)).
    destruct (truthy g) eqn:Hg; cbn [andb]; [|reflexivity].
    destruct (okey_eqb g (Some (js "Unknown Group"))); cbn [negb]; [reflexivity|].
    assert (Hn : forall d mc ad,
               profile_name (profile (loadUserData env'
                 (fst (updateUserProfile env fs jid true (mkProfileInfo g d mc) ad))
                 jid true)) = g).
    { intros d mc ad. rewrite update_profile_stored. unfold updateUserProfile.
      simpl. destruct g as [x|]; [reflexivity|discriminate]. }
    destruct (fetchedGroupMetadata sv) as [gm|]; [|apply Hn].
    destruct (gm_participants gm) as [ps|]; apply Hn. }
  simpl. split; [apply H|]. rewrite !H. reflexivity.
Qed.

(** ** Substrings *)

Lemma startsWith_spec (s p : jsstring) :
  startsWith s p = true <-> exists after, s = p ++ after.
Proof.
  revert s. induction p as [|x p IH]; intro s; simpl.
  - split; [intros _; now exists s|reflexivity].
  - destruct s as [|c s].
    + split; [discriminate|]. intros [after H]. discriminate.
    + rewrite andb_true_iff, IH. unfold cu_eqb. rewrite N.eqb_eq. split.
      * intros [-> [after ->]]. now exists after.
      * intros [after H]. injection H as -> ->. split; [reflexivity|].
        now exists after.
Qed.

Lemma includes_spec (s sub : jsstring) :
  includes s sub = true <-> occurs_in sub s.
Proof.
  unfold occurs_in. induction s as [|c s IH]; simpl.
  - rewrite orb_false_r, startsWith_spec. split.
    + intros [after H]. now exists [], after.
    + intros [[|x before] [after H]]; [now exists after|discriminate].
  - rewrite orb_true_iff, IH, startsWith_spec. split.
    + intros [[after H]|[before [after H]]].
      * now exists [], after.
      * exists (c :: before), after. simpl. now rewrite H.
    + intros [[|x before] [after H]].
      * left. now exists after.
      * right. injection H as -> H. now exists before, after.
Qed.

(** ** The identity resolver *)

Section Resolver.
Variable toLowerCase : jsstring -> jsstring.

Lemma accepts_spec (normalized : jsstring) (storedName : option jsstring) :
  accepts toLowerCase normalized storedName = true
  <-> accepted toLowerCase normalized storedName.
Proof.
  unfold accepts, accepted, nameMatches.
  rewrite andb_true_iff, !orb_true_iff, str_eqb_spec, !includes_spec.
  destruct storedName as [[|c stored]|]; simpl; split.
  - intros [H _]. discriminate.
  - intros (stored & H & Hne & _). injection H as <-. contradiction.
  - intros [_ H]. exists (c :: stored). repeat split; [discriminate|tauto].
  - intros (stored' & H & _ & Hm). injection H as <-. split; [reflexivity|tauto].
  - intros [H _]. discriminate.
  - intros (stored & H & _). discriminate.
Qed.

Lemma searchInbox_find (normalized : jsstring)
    (allUsers : list (UserData * UserType)) :
  searchInbox toLowerCase normalized allUsers
  = match find (fun user => accepts toLowerCase normalized
                              (profile_name (profile user)))
               (flat_map (fun entry =>
                            match snd entry with
                            | inbox => [fst entry]
                            | group => []
                            end) allUsers) with
    | Some user => Some (before_at (rec_userId user))
    | None => None
    end.
Proof.
  induction allUsers as [|[user [|]] others IH]; simpl; [reflexivity| |exact IH].
  unfold accepts at 1.
  destruct (truthy (profile_name (profile user)) && _); [reflexivity|exact IH].
Qed.

Lemma searchParticipants_find (normalized : jsstring)
    (entries : omap jsstring Participant) :
  searchParticipants toLowerCase normalized entries
  = match find (fun entry => accepts toLowerCase normalized
                               (participant_name (snd entry))) entries with
    | Some entry => Some (before_at (fst entry))
    | None => None
    end.
Proof.
  induction entries as [|[id data] others IH]; simpl; [reflexivity|].
  unfold accepts at 1.
  destruct (truthy (participant_name data) && _); [reflexivity|exact IH].
Qed.

Lemma find_app {A : Type} (f : A -> bool) (l1 l2 : list A) :
  find f (l1 ++ l2)
  = match find f l1 with Some x => Some x | None => find f l2 end.
Proof.
  induction l1 as [|x l1 IH]; simpl; [reflexivity|].
  now destruct (f x).
Qed.

Lemma searchGroups_find (normalized : jsstring)
    (allUsers : list (UserData * UserType)) :
  searchGroups toLowerCase normalized allUsers
  = match find (fun entry => accepts toLowerCase normalized
                               (participant_name (snd entry)))
               (flat_map (fun entry =>
                            match snd entry with
                            | group => participants (fst entry)
                            | inbox => []
                            end) allUsers) with
    | Some entry => Some (before_at (fst entry))
    | None => None
    end.
Proof.
  induction allUsers as [|[user [|]] others IH]; simpl; [reflexivity|exact IH|].
  rewrite find_app, searchParticipants_find.
  destruct (find _ (participants user)); [reflexivity|exact IH].
Qed.

Lemma findPhoneNumberByName_first_match (fs : FileSystem) (name : jsstring) :
  name <> [] ->
  findPhoneNumberByName toLowerCase fs name
  = resolveByFirstMatch toLowerCase fs name.
Proof.
  intro Hne. unfold findPhoneNumberByName, resolveByFirstMatch.
  destruct name; [contradiction|]. simpl nonempty. cbn [negb].
  rewrite searchInbox_find, searchGroups_find.
  unfold directRecords, groupRoster. now destruct (find _ _).
Qed.

End Resolver.

Lemma endsWith_app (s suffix : jsstring) : endsWith (s ++ suffix) suffix = true.
Proof.
  unfold endsWith. rewrite rev_app_distr. apply startsWith_spec.
  now exists (rev s).
Qed.

Lemma karimFiles_users (userId groupId participantId : jsstring) :
  exists dm grp,
    getAllUsers (karimFiles userId groupId participantId) = [(dm, inbox); (grp, group)]
    /\ rec_userId dm = userId
    /\ profile_name (profile dm) = Some (js "Karim").
Proof.
  unfold getAllUsers, readRecords, karimFiles, getUserDataPath.
  cbn [flat_map dir_eqb andb app]. rewrite !endsWith_app.
  do 2 eexists. split; [reflexivity|]. split; reflexivity.
Qed.

(** C2, as the code has it.  An empty name resolves to nothing.  For
    every other name the resolver agrees with the first-match search of
    the specification over the stored names in lower case and trimmed:
    the first direct-message record whose name is accepted, else the
    first group participant whose name is accepted, else nothing; a name
    is accepted when it is not empty and equals, contains or is contained
    by the normalized search name.  What is returned is the part of the
    record's (or participant's) address before the [@], the phone number,
    not the address.  With a direct-message record named Karim and a group
    participant named Karim Uddin, resolving karim returns the phone
    number of the direct-message record. *)
Theorem resolver_first_match (toLowerCase : jsstring -> jsstring)
    (fs : FileSystem) (name : jsstring) :
  (name = [] -> findPhoneNumberByName toLowerCase fs name = None)
  /\ (name <> [] ->
      findPhoneNumberByName toLowerCase fs name
      = resolveByFirstMatch toLowerCase fs name)
  /\ (forall normalized storedName,
        accepts toLowerCase normalized storedName = true
        <-> accepted toLowerCase normalized storedName)
  /\ (forall userId groupId participantId : jsstring,
        toLowerCase (js "karim") = js "karim" ->
        toLowerCase (js "Karim") = js "karim" ->
        findPhoneNumberByName toLowerCase
          (karimFiles userId groupId participantId) (js "karim")
        = Some (before_at userId)).
Proof.
  split; [|split; [|split]].
  - intros ->. reflexivity.
  - apply findPhoneNumberByName_first_match.
  - apply accepts_spec.
  - intros userId groupId participantId Hlow Hcap.
    destruct (karimFiles_users userId groupId participantId)
      as (dm & grp & Hall & Hid & Hname).
    unfold findPhoneNumberByName.
    replace (nonempty (js "karim")) with true by (vm_compute; reflexivity).
    cbn [negb]. rewrite Hall. cbn [searchInbox]. rewrite Hname, Hlow.
    cbn [truthy str_or or_else]. 
    replace (str_or (Some (js "Karim")) []) with (js "Karim")
      by (vm_compute; reflexivity).
    rewrite Hcap.
    replace (truthy (Some (js "Karim"))) with true by (vm_compute; reflexivity).
    replace (nameMatches (trim (js "karim")) (trim (js "karim"))) with true
      by (vm_compute; reflexivity).
    cbn [andb]. now rewrite Hid.
Qed.

Lemma asciiLowerCase_karim :
  asciiLowerCase (js "karim") = js "karim"
  /\ asciiLowerCase (js "Karim") = js "karim".
Proof. split; vm_compute; reflexivity. Qed.

Lemma resolver_first_match_witness :
  findPhoneNumberByName asciiLowerCase
    (karimFiles (js "8801711111111@s.whatsapp.net") (js "120363001@g.us")
                (js "8801722222222@s.whatsapp.net"))
    (js "karim")
  = Some (js "8801711111111")
  /\ findPhoneNumberByName asciiLowerCase [] (js "karim")
     = resolveByFirstMatch asciiLowerCase [] (js "karim").
Proof.
  split.
  - destruct (resolver_first_match asciiLowerCase [] (js "karim"))
      as (_ & _ & _ & Hex).
    rewrite (Hex (js "8801711111111@s.whatsapp.net") (js "120363001@g.us")
                 (js "8801722222222@s.whatsapp.net")
                 (proj1 asciiLowerCase_karim) (proj2 asciiLowerCase_karim)).
    vm_compute. reflexivity.
  - destruct (resolver_first_match asciiLowerCase [] (js "karim"))
      as (_ & Hne & _).
    apply Hne. vm_compute. discriminate.
Defined.

(** C2 as stated fails: what is returned is not the address of the
    direct-message record but the text before its [@]. *)
Lemma resolver_returns_number_not_address :
  let address := js "8801711111111@s.whatsapp.net" in
  let fs := karimFiles address (js "120363001@g.us")
                       (js "8801722222222@s.whatsapp.net") in
  rec_userId (loadUserData sampleEnv fs address false) = address
  /\ findPhoneNumberByName asciiLowerCase fs (js "karim")
     = Some (js "8801711111111")
  /\ findPhoneNumberByName asciiLowerCase fs (js "karim") <> Some address.
Proof.
  vm_compute. repeat split; try reflexivity. discriminate.
Qed.

(** Without the direct-message record the same name resolves to the
    group participant. *)
Lemma resolver_falls_back_to_participants :
  findPhoneNumberByName asciiLowerCase
    (firstn 1 (karimFiles (js "8801711111111@s.whatsapp.net")
                          (js "120363001@g.us")
                          (js "8801722222222@s.whatsapp.net")))
    (js "karim")
  = Some (js "8801722222222").
Proof. vm_compute. reflexivity. Qed.

(** ** Relay intent *)

Lemma has_pattern_spec (text : jsstring) (patterns : list jsstring) :
  existsb (fun pattern => includes text pattern) patterns = true
  <-> exists marker, In marker patterns /\ occurs_in marker text.
Proof.
  rewrite existsb_exists. split; intros [m [Hin H]]; exists m;
    (split; [assumption|]); now apply includes_spec.
Qed.

Lemma framings_differ (g s e e' : jsstring) :
  personalizedMessage true g s e <> personalizedMessage false g s e'.
Proof.
  unfold personalizedMessage. intro H.
  apply app_inv_head in H. apply app_inv_head in H. apply app_inv_head in H.
  vm_compute in H. discriminate.
Qed.

(** C9, as the code has it.  The relay flag is true exactly when the
    original text and the text without its mentions are both non-empty
    and the original text, in lower case, contains one of the fixed
    English or Bengali markers.  The message sent on begins with the group
    and the sender and continues with the relay sentence when the flag is
    set and with the plain sentence otherwise, followed by the polished
    text in quotes; the two sentences never produce the same message. *)
Theorem relay_flag_and_framing (toLowerCase toUpperCase : jsstring -> jsstring)
    (enhanceMessageWithAI :
       jsstring -> jsstring -> option jsstring -> jsstring -> bool -> jsstring)
    (messageText cleanedMessage : jsstring)
    (mentionedNames mentionedNumbers : list jsstring)
    (recipientName : jsstring) (groupName : option jsstring)
    (senderName : jsstring) :
  (checkIfTellSomeoneMessage toLowerCase messageText cleanedMessage = true
   <-> messageText <> [] /\ cleanedMessage <> []
       /\ exists marker,
            In marker (englishPatterns ++ bengaliPatterns)
            /\ occurs_in marker (toLowerCase messageText))
  /\ (let flag := relayFlag toLowerCase messageText mentionedNames
                            mentionedNumbers in
      relayedMessage toLowerCase toUpperCase enhanceMessageWithAI messageText
                     mentionedNames mentionedNumbers recipientName groupName
                     senderName
      = bengaliGroupNameOf groupName ++ js " থেকে "
        ++ bengaliSenderNameOf toUpperCase senderName
        ++ (if flag then js " আপনাকে এই বার্তা পাঠাতে বলেছে:"
            else js " আপনাকে বলেছে:")
        ++ quoted (enhanceMessageWithAI
                     (extractActualMessage messageText mentionedNames
                                           mentionedNumbers)
                     recipientName groupName senderName flag))
  /\ (forall g s e e',
        personalizedMessage true g s e <> personalizedMessage false g s e').
Proof.
  split; [|split].
  - unfold checkIfTellSomeoneMessage.
    destruct messageText as [|c t] eqn:Hm.
    { simpl. split; [discriminate|]. intros [H _]. now contradiction H. }
    destruct cleanedMessage as [|c' t'] eqn:Hc.
    { simpl. split; [discriminate|]. intros [_ [H _]]. now contradiction H. }
    cbn [nonempty negb orb]. rewrite orb_true_iff, !has_pattern_spec. split.
    + intros H. split; [discriminate|]. split; [discriminate|].
      destruct H as [[m [Hin Ho]]|[m [Hin Ho]]]; exists m;
        (split; [apply in_or_app; tauto|assumption]).
    + intros (_ & _ & m & Hin & Ho). apply in_app_or in Hin.
      destruct Hin as [Hin|Hin]; [left|right]; now exists m.
  - unfold relayedMessage, relayFlag, personalizedMessage. simpl.
    now destruct (checkIfTellSomeoneMessage _ _ _).
  - apply framings_differ.
Qed.

Lemma relay_flag_and_framing_witness :
  checkIfTellSomeoneMessage asciiLowerCase
    (js "Hey @1234567890 TELL him I am on my way")
    (js "Hey TELL him I am on my way") = true
  /\ personalizedMessage true (js "G") (js "S") (js "m")
     <> personalizedMessage false (js "G") (js "S") (js "m").
Proof.
  destruct (relay_flag_and_framing asciiLowerCase asciiUpperCase
              (fun m _ _ _ _ => m)
              (js "Hey @1234567890 TELL him I am on my way")
              (js "Hey TELL him I am on my way") [] [js "1234567890"]
              [] None (js "S")) as (Hflag & _ & Hdiff).
  split; [|apply Hdiff].
  apply Hflag. split; [vm_compute; discriminate|].
  split; [vm_compute; discriminate|].
  exists (js "tell"). split; [now left|].
  exists (js "hey @1234567890 "), (js " him i am on my way").
  vm_compute. reflexivity.
Defined.

(** C9 as stated fails: a message that is only a mention has nothing left
    once the mention is stripped, and the flag is false although the text
    contains a marker. *)
Lemma relay_flag_false_despite_marker :
  let text := js "@tell" in
  let names := extractMentionedNames text in
  let numbers := extractMentionedNumbers text in
  In (js "tell") englishPatterns
  /\ includes text (js "tell") = true
  /\ names = [js "tell"]
  /\ extractActualMessage text names numbers = []
  /\ relayFlag asciiLowerCase text names numbers = false.
Proof. vm_compute. repeat split; try reflexivity. now left. Qed.

(** ** The matcher *)

Lemma star_loop_consumes (a : regex) :
  (forall st st', In st' (run a st) -> consumes a st st') ->
  forall n st st', In st' (star_loop (run a) n st) -> consumes (Star a) st st'.
Proof.
  intros Ha. induction n as [|n IH]; intros st st' Hin; simpl in Hin.
  - destruct Hin as [<-|[]]. exists []. simpl. repeat split. lia.
  - apply in_app_or in Hin. destruct Hin as [Hin|[<-|[]]].
    + apply in_flat_map in Hin. destruct Hin as (mid & Hmid & Hin).
      destruct (pos st <? pos mid); [|destruct Hin].
      destruct (Ha _ _ Hmid) as (u1 & E1 & F1 & P1).
      destruct (IH _ _ Hin) as (u2 & E2 & F2 & P2).
      exists (u1 ++ u2). rewrite E1, E2, app_assoc, forallb_app, length_app.
      change (charset (Star a)) with (charset a) in *.
      rewrite F1, F2. repeat split. lia.
    + exists []. simpl. repeat split. lia.
Qed.

Lemma run_consumes (r : regex) :
  forall st st', In st' (run r st) -> consumes r st st'.
Proof.
  induction r as [p| |a IHa b IHb|a IHa b IHb|a IHa|i a IHa| | |];
    intros st st' Hin; simpl in Hin.
  - destruct (rest st) as [|c t] eqn:E; [destruct Hin|].
    destruct (p c) eqn:Hp; [|destruct Hin]. destruct Hin as [<-|[]].
    exists [c]. simpl. rewrite Hp, E. repeat split. lia.
  - destruct Hin as [<-|[]]. exists []. simpl. repeat split. lia.
  - apply in_flat_map in Hin. destruct Hin as (mid & Hmid & Hin).
    destruct (IHa _ _ Hmid) as (u1 & E1 & F1 & P1).
    destruct (IHb _ _ Hin) as (u2 & E2 & F2 & P2).
    exists (u1 ++ u2). rewrite E1, E2, app_assoc, forallb_app, length_app.
    simpl. split; [reflexivity|]. split; [|lia].
    apply andb_true_iff. split.
    + eapply forallb_forall. intros x Hx.
      rewrite forallb_forall in F1. now rewrite (F1 x Hx).
    + eapply forallb_forall. intros x Hx.
      rewrite forallb_forall in F2. rewrite (F2 x Hx). apply orb_true_r.
  - apply in_app_or in Hin. destruct Hin as [Hin|Hin].
    + destruct (IHa _ _ Hin) as (u & E & F & P). exists u.
      split; [assumption|]. split; [|assumption].
      eapply forallb_forall. intros x Hx. simpl.
      rewrite forallb_forall in F. now rewrite (F x Hx).
    + destruct (IHb _ _ Hin) as (u & E & F & P). exists u.
      split; [assumption|]. split; [|assumption].
      eapply forallb_forall. intros x Hx. simpl.
      rewrite forallb_forall in F. rewrite (F x Hx). apply orb_true_r.
  - now apply (star_loop_consumes IHa) in Hin.
  - apply in_map_iff in Hin. destruct Hin as (mid & <- & Hmid).
    destruct (IHa _ _ Hmid) as (u & E & F & P). now exists u.
  - destruct (prev st); [destruct Hin|]. destruct Hin as [<-|[]].
    exists []. simpl. repeat split. lia.
  - destruct (rest st); [|destruct Hin]. destruct Hin as [<-|[]].
    exists []. simpl. repeat split. lia.
  - destruct (xorb _ _); [|destruct Hin]. destruct Hin as [<-|[]].
    exists []. simpl. repeat split. lia.
Qed.

(** The greedy star always has a match, the empty one at the least. *)
Lemma star_loop_last (body : mstate -> list mstate) (n : nat) (st : mstate) :
  exists l, star_loop body n st = l ++ [st].
Proof. destruct n; simpl; [now exists []|eauto]. Qed.

Lemma flat_map_nonempty {A B : Type} (f : A -> list B) (l : list A) :
  l <> [] -> (forall x, f x <> []) -> flat_map f l <> [].
Proof.
  intros Hl Hf. destruct l as [|x l]; [contradiction|]. simpl.
  specialize (Hf x). destruct (f x); [contradiction|discriminate].
Qed.

Lemma star_nonempty (a : regex) (st : mstate) : run (Star a) st <> [].
Proof.
  simpl. destruct (star_loop_last (run a) (length (rest st)) st) as [l ->].
  now destruct l.
Qed.

Lemma opt_nonempty (a : regex) (st : mstate) : run (Opt a) st <> [].
Proof. simpl. now destruct (run a st). Qed.

Lemma hd_error_nonempty {A : Type} (l : list A) :
  l <> [] -> exists x, hd_error l = Some x.
Proof. destruct l as [|x l]; [contradiction|]. intros _. now exists x. Qed.

(** ** Stripping mentions *)

Lemma space_not_at (d : code_unit) : is_space d = true -> is_char "@" d = false.
Proof.
  intro H. apply space_cases in H. unfold is_char, cu_eqb.
  apply N.eqb_neq. vm_compute ch. lia.
Qed.

Lemma leftover_no_match (p : option code_unit) (s : jsstring) :
  match s with
  | c :: d :: _ => is_char "@" c = false \/ is_space d = true
  | [c] => True
  | [] => True
  end ->
  match_here leftoverMention p s = None.
Proof.
  unfold match_here, leftoverMention. simpl.
  destruct s as [|c [|d t]]; simpl; intro H; try reflexivity.
  - now destruct (is_char "@" c).
  - destruct (is_char "@" c); [|reflexivity]. simpl.
    destruct H as [H|H]; [discriminate|]. now rewrite H.
Qed.

Lemma leftover_match (p : option code_unit) (c : code_unit) (t : jsstring) :
  is_space c = false ->
  exists st, match_here leftoverMention p (ch "@" :: c :: t) = Some st
             /\ 0 < pos st
             /\ length (rest st) <= length t.
Proof.
  intro Hc. unfold match_here.
  set (st0 := mkState 0 p (ch "@" :: c :: t) []).
  set (st2 := mkState 2 (Some c) t []).
  assert (Hrun : run leftoverMention st0
                 = flat_map (run (Opt (Chars is_space)))
                            (run (Star (Chars (fun c => negb (is_space c)))) st2)).
  { unfold leftoverMention, st0. simpl. rewrite Hc. simpl.
    now rewrite !app_nil_r. }
  destruct (hd_error_nonempty (l := run leftoverMention st0)) as [st Hst].
  { rewrite Hrun. apply flat_map_nonempty.
    - apply star_nonempty.
    - intro x. apply opt_nonempty. }
  exists st. split; [exact Hst|].
  assert (Hin : In st (run leftoverMention st0)).
  { destruct (run leftoverMention st0); [discriminate|].
    injection Hst as ->. now left. }
  rewrite Hrun in Hin. apply in_flat_map in Hin.
  destruct Hin as (mid & Hmid & Hin).
  apply run_consumes in Hmid. apply run_consumes in Hin.
  destruct Hmid as (u1 & E1 & _ & P1). destruct Hin as (u2 & E2 & _ & P2).
  simpl in E1, P1. split; [lia|].
  rewrite E1, E2, !length_app. lia.
Qed.

Lemma replace_loop_nil (fuel : nat) (r : regex) (replacement : jsstring)
    (p : option code_unit) :
  match_here r p [] = None -> replace_loop fuel r replacement p [] = [].
Proof. intro H. destruct fuel; simpl; [reflexivity|]. now rewrite H. Qed.

Lemma strip_leftover_ats :
  forall (fuel : nat) (s : jsstring) (p : option code_unit),
    length s < fuel ->
    ats_followed_by is_space (replace_loop fuel leftoverMention [] p s) = true.
Proof.
  induction fuel as [|fuel IH]; intros s p Hfuel; [inversion Hfuel|].
  destruct s as [|c t].
  - cbn [replace_loop]. now rewrite leftover_no_match.
  - destruct (is_char "@" c) eqn:Hat.
    + assert (c = ch "@") as -> by (now apply N.eqb_eq in Hat).
      destruct t as [|d t].
      * cbn [replace_loop]. rewrite leftover_no_match by exact I.
        rewrite replace_loop_nil by (now apply leftover_no_match).
        cbn [ats_followed_by]. now rewrite Hat.
      * destruct (is_space d) eqn:Hd.
        -- cbn [replace_loop]. rewrite leftover_no_match by (now right).
           simpl in Hfuel.
           specialize (IH (d :: t) (Some (ch "@")) ltac:(simpl; lia)).
           destruct fuel as [|fuel]; [lia|].
           cbn [replace_loop] in IH |- *.
           rewrite leftover_no_match in IH |- *
             by (destruct t; [exact I|left; now apply space_not_at]).
           cbn [ats_followed_by]. rewrite Hat, Hd. exact IH.
        -- destruct (@leftover_match p d t Hd) as (st & Hst & Hpos & Hlen).
           cbn [replace_loop]. rewrite Hst.
           apply Nat.ltb_lt in Hpos. rewrite Hpos. cbn [app].
           apply IH. simpl in Hfuel. lia.
    + cbn [replace_loop].
      rewrite leftover_no_match
        by (destruct t; [exact I|left; exact Hat]).
      cbn [ats_followed_by]. rewrite Hat. apply IH. simpl in Hfuel. lia.
Qed.

Lemma spaces_no_match (p : option code_unit) (s : jsstring) :
  match s with c :: _ => is_space c = false | [] => True end ->
  match_here spaces p s = None.
Proof.
  unfold match_here, spaces. simpl. destruct s as [|c t]; simpl; intro H;
    [reflexivity|]. now rewrite H.
Qed.

Lemma spaces_match (p : option code_unit) (c : code_unit) (t : jsstring) :
  is_space c = true ->
  exists st u, match_here spaces p (c :: t) = Some st
               /\ 0 < pos st
               /\ t = u ++ rest st.
Proof.
  intro Hc. unfold match_here.
  set (st0 := mkState 0 p (c :: t) []).
  set (st1 := mkState 1 (Some c) t []).
  assert (Hrun : run spaces st0 = run (Star (Chars is_space)) st1).
  { unfold spaces, st0. simpl. rewrite Hc. simpl. now rewrite app_nil_r. }
  destruct (hd_error_nonempty (l := run spaces st0)) as [st Hst].
  { rewrite Hrun. apply star_nonempty. }
  assert (Hin : In st (run spaces st0)).
  { destruct (run spaces st0); [discriminate|].
    injection Hst as ->. now left. }
  rewrite Hrun in Hin. apply run_consumes in Hin.
  destruct Hin as (u & E & _ & P). simpl in E, P.
  exists st, u. split; [exact Hst|]. split; [lia|exact E].
Qed.

Lemma ats_suffix (q : code_unit -> bool) (u v : jsstring) :
  ats_followed_by q (u ++ v) = true -> ats_followed_by q v = true.
Proof.
  induction u as [|c u IH]; simpl; [auto|].
  rewrite andb_true_iff. intros [_ H]. now apply IH.
Qed.

Lemma ats_prefix (q : code_unit -> bool) (u v : jsstring) :
  ats_followed_by q (u ++ v) = true -> ats_followed_by q u = true.
Proof.
  induction u as [|c u IH]; simpl; [auto|].
  rewrite !andb_true_iff. intros [Hc H]. split; [|now apply IH].
  destruct (is_char "@" c); [|reflexivity]. now destruct u.
Qed.

Lemma collapse_spaces_ats :
  forall (fuel : nat) (s : jsstring) (p : option code_unit),
    length s < fuel ->
    ats_followed_by is_space s = true ->
    ats_followed_by (is_char " ") (replace_loop fuel spaces (js " ") p s) = true.
Proof.
  induction fuel as [|fuel IH]; intros s p Hfuel Hs; [inversion Hfuel|].
  destruct s as [|c t].
  - cbn [replace_loop]. now rewrite spaces_no_match.
  - destruct (is_space c) eqn:Hc.
    + destruct (@spaces_match p c t Hc) as (st & u & Hst & Hpos & Ht).
      cbn [replace_loop]. rewrite Hst.
      apply Nat.ltb_lt in Hpos. rewrite Hpos.
      change (js " " ++ ?x) with (ch " " :: x).
      cbn [ats_followed_by].
      replace (is_char "@" (ch " ")) with false by (vm_compute; reflexivity).
      cbn [andb]. apply IH.
      * simpl in Hfuel. rewrite Ht, length_app in Hfuel. lia.
      * simpl in Hs. apply andb_true_iff in Hs. destruct Hs as [_ Hs].
        rewrite Ht in Hs. now apply ats_suffix in Hs.
    + cbn [replace_loop]. rewrite spaces_no_match by exact Hc.
      simpl in Hs. apply andb_true_iff in Hs. destruct Hs as [Hhead Hs].
      assert (Hrec := IH t (Some c) ltac:(simpl in Hfuel; lia) Hs).
      cbn [ats_followed_by]. rewrite Hrec, andb_true_r.
      destruct (is_char "@" c); [|reflexivity].
      destruct t as [|d t].
      * now rewrite replace_loop_nil by (now apply spaces_no_match).
      * destruct (@spaces_match (Some c) d t Hhead) as (st & u & Hst & Hpos & Ht).
        destruct fuel as [|fuel]; [simpl in Hfuel; lia|].
        cbn [replace_loop]. rewrite Hst.
        apply Nat.ltb_lt in Hpos. rewrite Hpos. reflexivity.
Qed.

Lemma trimStart_suffix (s : jsstring) : exists u, s = u ++ trimStart s.
Proof.
  induction s as [|c t [u IH]]; [now exists []|]. simpl.
  destruct (is_space c).
  - exists (c :: u). simpl. now f_equal.
  - now exists [].
Qed.

Lemma trim_ats (q : code_unit -> bool) (s : jsstring) :
  ats_followed_by q s = true -> ats_followed_by q (trim s) = true.
Proof.
  intro H. unfold trim.
  destruct (trimStart_suffix s) as [u Hu]. rewrite Hu in H.
  apply ats_suffix in H.
  destruct (trimStart_suffix (rev (trimStart s))) as [w Hw].
  apply (f_equal (@rev code_unit)) in Hw.
  rewrite rev_involutive, rev_app_distr in Hw.
  rewrite Hw in H. now apply ats_prefix in H.
Qed.

Lemma ats_spec (q : code_unit -> bool) (s before after : jsstring)
    (c : code_unit) :
  ats_followed_by q s = true ->
  s = before ++ ch "@" :: c :: after -> q c = true.
Proof.
  intros H ->. apply ats_suffix in H. simpl in H.
  apply andb_true_iff in H. destruct H as [H _].
  replace (is_char "@" (ch "@")) with true in H by (vm_compute; reflexivity).
  exact H.
Qed.

(** Whatever the mentions handed over, the stripped text keeps an [@]
    only in front of a space or at its end. *)
Lemma stripped_ats (messageText : jsstring)
    (mentionedNames mentionedNumbers : list jsstring) :
  ats_followed_by (is_char " ")
    (extractActualMessage messageText mentionedNames mentionedNumbers) = true.
Proof.
  unfold extractActualMessage. destruct messageText as [|c t]; [reflexivity|].
  apply trim_ats. unfold replace_all at 1. apply collapse_spaces_ats; [lia|].
  unfold replace_all at 1. apply strip_leftover_ats. lia.
Qed.

(** ** First matches, piece by piece *)

Lemma first_seq (a b : regex) (st mid st' : mstate) :
  first_match a st = Some mid -> first_match b mid = Some st' ->
  first_match (Seq a b) st = Some st'.
Proof.
  unfold first_match. simpl. intros Ha Hb.
  destruct (run a st) as [|x l]; [discriminate|]. injection Ha as ->.
  simpl. destruct (run b mid); [discriminate|]. exact Hb.
Qed.

Lemma first_alt_right (a b : regex) (st st' : mstate) :
  run a st = [] -> first_match b st = Some st' ->
  first_match (Alt a b) st = Some st'.
Proof. unfold first_match. simpl. now intros ->. Qed.

Lemma first_opt_skip (a : regex) (st : mstate) :
  run a st = [] -> first_match (Opt a) st = Some st.
Proof. intro H. apply first_alt_right; [exact H|reflexivity]. Qed.

Lemma first_chars (p : code_unit -> bool) (n : nat) (q : option code_unit)
    (c : code_unit) (t : jsstring) (cs : list (nat * jsstring)) :
  p c = true ->
  first_match (Chars p) (mkState n q (c :: t) cs)
  = Some (mkState (S n) (Some c) t cs).
Proof. intro H. unfold first_match. simpl. now rewrite H. Qed.

Lemma run_chars_fail (p : code_unit -> bool) (st : mstate) :
  match rest st with c :: _ => p c = false | [] => True end ->
  run (Chars p) st = [].
Proof. simpl. destruct (rest st); [reflexivity|]. now intros ->. Qed.

Lemma first_group (i : nat) (a : regex) (st st' : mstate) :
  first_match a st = Some st' ->
  first_match (Group i a) st
  = Some (mkState (pos st') (prev st') (rest st')
            ((i, firstn (pos st' - pos st) (rest st)) :: caps st')).
Proof.
  unfold first_match. simpl. intro H.
  destruct (run a st); [discriminate|]. injection H as ->. reflexivity.
Qed.

Lemma last_cons {A : Type} (x d : A) (l : list A) :
  last (x :: l) d = last l x.
Proof.
  revert x d. induction l as [|y l IH]; intros x d; [reflexivity|].
  change (last (x :: y :: l) d) with (last (y :: l) d). now rewrite !IH.
Qed.

(** The greedy star over a class takes the whole run of the class first. *)
Lemma first_star_chars (p : code_unit -> bool) :
  forall (u : jsstring) (n : nat) (q : option code_unit) (v : jsstring)
         (cs : list (nat * jsstring)),
    forallb p u = true ->
    match v with c :: _ => p c = false | [] => True end ->
    first_match (Star (Chars p)) (mkState n q (u ++ v) cs)
    = Some (mkState (n + length u) (last (map Some u) q) v cs).
Proof.
  induction u as [|c u IH]; intros n q v cs Hu Hv.
  - unfold first_match. simpl. rewrite Nat.add_0_r.
    destruct v as [|d v]; [reflexivity|]. simpl. now rewrite Hv.
  - simpl in Hu. apply andb_true_iff in Hu. destruct Hu as [Hc Hu].
    specialize (IH (S n) (Some c) v cs Hu Hv).
    unfold first_match in *. simpl map. rewrite last_cons.
    simpl in *. rewrite Hc. simpl.
    replace (n <? S n) with true by (symmetry; apply Nat.ltb_lt; lia).
    rewrite app_nil_r.
    destruct (star_loop _ _ _) as [|x l]; [discriminate|].
    injection IH as ->. simpl. do 2 f_equal. lia.
Qed.

Lemma first_plus_chars (p : code_unit -> bool) (c : code_unit) (u : jsstring)
    (n : nat) (q : option code_unit) (v : jsstring)
    (cs : list (nat * jsstring)) :
  forallb p (c :: u) = true ->
  match v with d :: _ => p d = false | [] => True end ->
  first_match (Plus (Chars p)) (mkState n q ((c :: u) ++ v) cs)
  = Some (mkState (n + length (c :: u)) (last (map Some u) (Some c)) v cs).
Proof.
  intros Hu Hv. simpl in Hu. apply andb_true_iff in Hu. destruct Hu as [Hc Hu].
  unfold Plus. eapply first_seq.
  - simpl. now apply first_chars.
  - rewrite (first_star_chars p u (S n) (Some c) v cs Hu Hv).
    simpl. do 2 f_equal. lia.
Qed.

Lemma first_opt_chars (p : code_unit -> bool) (st : mstate) :
  exists st', first_match (Opt (Chars p)) st = Some st' /\ caps st' = caps st.
Proof.
  unfold first_match. simpl.
  destruct (rest st) as [|c t]; [now exists st|].
  destruct (p c); [|now exists st]. simpl. eexists. split; reflexivity.
Qed.

Lemma firstn_length_app {A : Type} (u v : list A) :
  firstn (length u) (u ++ v) = u.
Proof. induction u; simpl; [now destruct v|]. now f_equal. Qed.

(** ** Number mentions *)

Lemma digit_cases (c : code_unit) : is_digit c = true -> (48 <= c <= 57)%N.
Proof. unfold is_digit. rewrite in_range_iff. vm_compute ch. tauto. Qed.

Lemma digit_is_plain (c : code_unit) :
  is_digit c = true ->
  is_space c = false /\ cu_eqb c 0x202A%N = false /\ is_char "+" c = false
  /\ is_char "@" c = false.
Proof.
  intro H. apply digit_cases in H. repeat split.
  - destruct (is_space c) eqn:E; [|reflexivity]. apply space_cases in E. lia.
  - apply N.eqb_neq. lia.
  - apply N.eqb_neq. vm_compute ch. lia.
  - apply N.eqb_neq. vm_compute ch. lia.
Qed.

(** At an [@] followed by a run of digits that ends the text or is
    followed by something else, the expression matches and its group is
    the run of digits. *)
Lemma mention_match_digits (p : option code_unit) (d : code_unit)
    (digits after : jsstring) :
  forallb is_digit (d :: digits) = true ->
  match after with c :: _ => is_digit c = false | [] => True end ->
  exists st,
    match_here mentionRegex p (ch "@" :: (d :: digits) ++ after) = Some st
    /\ group_text 1 st = d :: digits.
Proof.
  intros Hd Hafter.
  assert (Hd0 : is_digit d = true) by (simpl in Hd; now apply andb_true_iff in Hd).
  destruct (digit_is_plain d Hd0) as (Hsp & Hlre & Hplus & _).
  set (st1 := mkState 1 (Some (ch "@")) ((d :: digits) ++ after) []).
  pose proof (first_plus_chars is_digit d digits 1 (Some (ch "@")) after [] Hd Hafter)
    as Hdigits.
  set (st3 := mkState (pos st1 + length (d :: digits))
                (last (map Some digits) (Some d)) after [(1, d :: digits)]).
  destruct (first_opt_chars (fun c => cu_eqb c 0x202C%N) st3) as (st & Hst & Hcaps).
  exists st. split; [|unfold group_text; rewrite Hcaps; reflexivity].
  change (match_here mentionRegex p (ch "@" :: (d :: digits) ++ after))
    with (first_match mentionRegex
            (mkState 0 p (ch "@" :: (d :: digits) ++ after) [])).
  unfold mentionRegex.
  eapply first_seq; [apply first_chars; vm_compute; reflexivity|].
  fold st1.
  eapply first_seq.
  { apply (first_star_chars is_space [] 1 (Some (ch "@"))
             ((d :: digits) ++ after) []); [reflexivity|exact Hsp]. }
  eapply first_seq.
  { apply first_opt_skip. apply run_chars_fail. exact Hlre. }
  eapply first_seq; [|exact Hst].
  erewrite first_group.
  2:{ eapply first_seq.
      - apply first_opt_skip. apply run_chars_fail. exact Hplus.
      - exact Hdigits. }
  unfold st3, st1. cbn [pos prev rest caps].
  match goal with
  | |- context [firstn ?n _] =>
      replace n with (length (d :: digits)) by (simpl; lia)
  end.
  now rewrite (firstn_length_app (d :: digits) after).
Qed.

Lemma run_seq (a b : regex) (st : mstate) :
  run (Seq a b) st = flat_map (run b) (run a st).
Proof. reflexivity. Qed.

Lemma hd_error_in {A : Type} (l : list A) (x : A) :
  hd_error l = Some x -> In x l.
Proof. destruct l; [discriminate|]. intro H. injection H as ->. now left. Qed.

(** A text that reaches an [@] only after a prefix free of [@] splits
    there. *)
Lemma split_before_at (u w b rest' : jsstring) :
  forallb (fun c => negb (is_char "@" c)) u = true ->
  b ++ ch "@" :: rest' = u ++ w ->
  exists b3, w = b3 ++ ch "@" :: rest' /\ b = u ++ b3.
Proof.
  revert b. induction u as [|x u IH]; intros b Hu H.
  - exists b. now split.
  - simpl in Hu. apply andb_true_iff in Hu. destruct Hu as [Hx Hu].
    destruct b as [|y b].
    + simpl in H. injection H as <- _. vm_compute in Hx. discriminate.
    + simpl in H. injection H as -> H.
      destruct (IH b Hu H) as (b3 & Hw & Hb). exists b3. split; [exact Hw|].
      simpl. now f_equal.
Qed.

(** A match of an expression that starts with [@] and can consume no
    further [@] ends before the next [@] of the text. *)
Lemma at_match_short (tail : regex) (p : option code_unit)
    (b rest' : jsstring) (st : mstate) :
  (forall c, charset tail c = true -> is_char "@" c = false) ->
  b <> [] ->
  match_here (Seq (Chars (is_char "@")) tail) p (b ++ ch "@" :: rest') = Some st ->
  exists b3, rest st = b3 ++ ch "@" :: rest' /\ length b3 < length b.
Proof.
  intros Htail Hb H. unfold match_here in H. apply hd_error_in in H.
  rewrite run_seq in H. apply in_flat_map in H.
  destruct H as (mid & Hmid & Hin).
  destruct b as [|c b]; [contradiction|].
  simpl in Hmid. destruct (is_char "@" c); [|destruct Hmid].
  destruct Hmid as [<-|[]]. apply run_consumes in Hin.
  destruct Hin as (u & E & F & _). simpl in E.
  assert (Hu : forallb (fun c => negb (is_char "@" c)) u = true).
  { apply forallb_forall. intros x Hx. rewrite forallb_forall in F.
    now rewrite (Htail x (F x Hx)). }
  destruct (split_before_at u (rest st) b rest' Hu E) as (b3 & Hw & Hbu).
  exists b3. split; [exact Hw|]. rewrite Hbu. simpl. rewrite length_app. lia.
Qed.

Section ExecLoop.
Variable r : regex.
Variable token : jsstring.
Variable good : mstate -> Prop.

(** The expression matches at the token, whatever comes before, and a
    match that starts before the token ends before it. *)
Hypothesis at_token :
  forall p, exists st, match_here r p token = Some st /\ good st.
Hypothesis before_token :
  forall p b st, b <> [] -> match_here r p (b ++ token) = Some st ->
                 exists b3, rest st = b3 ++ token /\ length b3 < length b.

Lemma find_match_before_token :
  forall (b : jsstring) (p : option code_unit),
    exists skipped st,
      find_match r p (b ++ token) = Some (skipped, st)
      /\ (good st \/ exists b3, rest st = b3 ++ token /\ length b3 < length b).
Proof.
  induction b as [|c b IH]; intro p.
  - destruct (at_token p) as (st & Hst & Hgood).
    exists [], st. simpl app. destruct token as [|x tk] eqn:Htk.
    + simpl. rewrite Hst. auto.
    + simpl. rewrite Hst. auto.
  - simpl app. cbn [find_match].
    destruct (match_here r p (c :: b ++ token)) as [st|] eqn:Hm.
    + exists [], st. split; [reflexivity|]. right.
      apply (before_token p (b := c :: b)); [discriminate|exact Hm].
    + destruct (IH (Some c)) as (skipped & st & Hf & Hor).
      rewrite Hf. exists (c :: skipped), st. split; [reflexivity|].
      destruct Hor as [Hg|(b3 & E & L)]; [now left|right].
      exists b3. split; [exact E|]. simpl. lia.
Qed.

Lemma exec_loop_reaches_token :
  forall (n : nat) (b : jsstring) (fuel : nat) (p : option code_unit),
    length b <= n -> length b < fuel ->
    exists st, In st (exec_loop fuel r p (b ++ token)) /\ good st.
Proof.
  induction n as [|n IH]; intros b fuel p Hn Hfuel;
    (destruct fuel as [|fuel]; [inversion Hfuel|]); cbn [exec_loop];
    destruct (find_match_before_token b p) as (skipped & st & Hf & Hor);
    rewrite Hf.
  - destruct Hor as [Hg|(b3 & E & L)]; [exists st; split; [now left|exact Hg]|].
    lia.
  - destruct Hor as [Hg|(b3 & E & L)]; [exists st; split; [now left|exact Hg]|].
    rewrite E.
    destruct (IH b3 fuel (prev st) ltac:(lia) ltac:(lia)) as (st' & Hin & Hg).
    exists st'. split; [now right|exact Hg].
Qed.

End ExecLoop.

Lemma mention_no_second_at (c : code_unit) :
  (is_space c || (cu_eqb c 0x202A%N || false
     || ((is_char "+" c || false || (is_digit c || is_digit c))
         || (cu_eqb c 0x202C%N || false)))) = true ->
  is_char "@" c = false.
Proof.
  rewrite !orb_false_r, !orb_true_iff.
  intros [H|[H|[[H|[H|H]]|H]]].
  - now apply space_not_at.
  - apply N.eqb_eq in H. subst c. reflexivity.
  - apply N.eqb_eq in H. subst c. reflexivity.
  - now apply digit_is_plain.
  - now apply digit_is_plain.
  - apply N.eqb_eq in H. subst c. reflexivity.
Qed.

Lemma number_mention_found (before after : jsstring) (d : code_unit)
    (digits : jsstring) :
  forallb is_digit (d :: digits) = true ->
  trim (d :: digits) = d :: digits ->
  match after with c :: _ => is_digit c = false | [] => True end ->
  In (d :: digits)
     (extractMentionedNumbers (before ++ ch "@" :: (d :: digits) ++ after)).
Proof.
  intros Hd Htrim Hafter.
  set (token := ch "@" :: (d :: digits) ++ after).
  assert (Hfound : exists st,
             In st (exec_all mentionRegex (before ++ token))
             /\ group_text 1 st = d :: digits).
  { unfold exec_all.
    apply (@exec_loop_reaches_token mentionRegex token
             (fun st => group_text 1 st = d :: digits))
      with (n := length before).
    - intro p. now apply mention_match_digits.
    - intros p b st Hb Hm. unfold token, mentionRegex in *.
      eapply at_match_short; [|exact Hb|exact Hm].
      intros c Hc. simpl in Hc. now apply mention_no_second_at.
    - lia.
    - rewrite length_app. lia. }
  destruct Hfound as (st & Hin & Hg).
  assert (Hmap : In (d :: digits)
                   (map (fun st => trim (group_text 1 st))
                        (exec_all mentionRegex (before ++ token)))).
  { apply in_map_iff. exists st. split; [|exact Hin]. now rewrite Hg. }
  unfold extractMentionedNumbers.
  destruct (before ++ token) as [|x text'] eqn:Htext.
  { destruct before; discriminate. }
  destruct (map _ _) as [|y l]; [destruct Hmap|exact Hmap].
Qed.

(** C3, as the code has it.  In every text that contains the token
    [@1234567890] not directly followed by another digit, the number
    extraction finds [1234567890].  Stripping, with whatever names and
    numbers, leaves a text in which an [@] stands only directly before a
    space or at the very end: every [@] with something attached is gone,
    the token among them, while an [@] that stood alone is kept. *)
Theorem number_mention_extracted_and_stripped (before after : jsstring) :
  (forall c rest', after = c :: rest' -> is_digit c = false) ->
  let text := before ++ js "@1234567890" ++ after in
  In (js "1234567890") (extractMentionedNumbers text)
  /\ forall mentionedNames mentionedNumbers : list jsstring,
       let stripped :=
         extractActualMessage text mentionedNames mentionedNumbers in
       (forall pre c post,
           stripped = pre ++ ch "@" :: c :: post -> c = ch " ")
       /\ ~ occurs_in (js "@1234567890") stripped.
Proof.
  intros Hafter text. split.
  - subst text.
    change (js "@1234567890" ++ after)
      with (ch "@" :: (ch "1" :: js "234567890") ++ after).
    change (js "1234567890") with (ch "1" :: js "234567890").
    apply number_mention_found.
    + vm_compute. reflexivity.
    + vm_compute. reflexivity.
    + destruct after as [|c t]; [exact I|]. now apply (Hafter c t).
  - intros names numbers stripped.
    assert (Hats : forall pre c post,
               stripped = pre ++ ch "@" :: c :: post -> c = ch " ").
    { intros pre c post E.
      pose proof (ats_spec (is_char " ") pre post c
                    (stripped_ats text names numbers) E) as H.
      now apply N.eqb_eq in H. }
    split; [exact Hats|].
    intros (pre & post & E).
    change (js "@1234567890" ++ post)
      with (ch "@" :: ch "1" :: js "234567890" ++ post) in E.
    apply Hats in E. vm_compute in E. discriminate.
Qed.

Lemma number_mention_extracted_and_stripped_witness :
  In (js "1234567890")
     (extractMentionedNumbers (js "Hey " ++ js "@1234567890" ++ js " tell him"))
  /\ ~ occurs_in (js "@1234567890")
         (extractActualMessage (js "Hey " ++ js "@1234567890" ++ js " tell him")
                               [] [js "1234567890"]).
Proof.
  assert (Hafter : forall c rest',
             js " tell him" = c :: rest' -> is_digit c = false).
  { intros c rest' E. vm_compute in E. injection E as <- _.
    vm_compute. reflexivity. }
  destruct (@number_mention_extracted_and_stripped (js "Hey ") (js " tell him")
              Hafter) as [H1 H2].
  split; [exact H1|]. apply (H2 [] [js "1234567890"]).
Defined.

(** C3 as stated fails: an [@] that stands alone survives the stripping. *)
Lemma stripped_text_keeps_lone_at :
  let text := js "@1234567890 hi @ there" in
  let numbers := extractMentionedNumbers text in
  let names := extractMentionedNames text in
  occurs_in (js "@1234567890") text
  /\ numbers = [js "1234567890"]
  /\ extractActualMessage text names numbers = js "hi @ there"
  /\ In (ch "@") (extractActualMessage text names numbers).
Proof.
  split; [exists [], (js " hi @ there"); vm_compute; reflexivity|].
  vm_compute. repeat split; try reflexivity. tauto.
Qed.

(** ** Name mentions *)


Lemma star_loop_caps (a : regex) :
  (forall st st', In st' (run a st) -> caps st' = caps st) ->
  forall n st st', In st' (star_loop (run a) n st) -> caps st' = caps st.
Proof.
  intros Ha. induction n as [|n IH]; intros st st' Hin; simpl in Hin.
  - now destruct Hin as [<-|[]].
  - apply in_app_or in Hin. destruct Hin as [Hin|[<-|[]]]; [|reflexivity].
    apply in_flat_map in Hin. destruct Hin as (mid & Hmid & Hin).
    destruct (pos st <? pos mid); [|destruct Hin].
    rewrite (IH _ _ Hin). now apply Ha.
Qed.

Lemma run_groupless_caps (r : regex) :
  groupless r = true ->
  forall st st', In st' (run r st) -> caps st' = caps st.
Proof.
  induction r as [p| |a IHa b IHb|a IHa b IHb|a IHa|i a IHa| | |];
    simpl; intros Hg st st' Hin.
  - destruct (rest st) as [|c t]; [destruct Hin|].
    destruct (p c); [|destruct Hin]. now destruct Hin as [<-|[]].
  - now destruct Hin as [<-|[]].
  - apply andb_true_iff in Hg. destruct Hg as [Hga Hgb].
    apply in_flat_map in Hin. destruct Hin as (mid & Hmid & Hin).
    rewrite (IHb Hgb _ _ Hin). now apply IHa.
  - apply andb_true_iff in Hg. destruct Hg as [Hga Hgb].
    apply in_app_or in Hin. destruct Hin as [Hin|Hin]; auto.
  - now apply (@star_loop_caps a (IHa Hg)) in Hin.
  - discriminate.
  - destruct (prev st); [destruct Hin|]. now destruct Hin as [<-|[]].
  - destruct (rest st); [|destruct Hin]. now destruct Hin as [<-|[]].
  - destruct (xorb _ _); [|destruct Hin]. now destruct Hin as [<-|[]].
Qed.

Lemma run_plus_chars_shape (p : code_unit -> bool) (st st' : mstate) :
  In st' (run (Plus (Chars p)) st) ->
  exists c u, rest st = (c :: u) ++ rest st'
              /\ forallb p (c :: u) = true
              /\ pos st' = pos st + length (c :: u)
              /\ caps st' = caps st.
Proof.
  intro Hin.
  assert (Hcaps : caps st' = caps st)
    by (now apply (@run_groupless_caps (Plus (Chars p)) eq_refl st)).
  unfold Plus in Hin. rewrite run_seq in Hin. apply in_flat_map in Hin.
  destruct Hin as (mid & Hmid & Hin). simpl in Hmid.
  destruct (rest st) as [|c t] eqn:E; [destruct Hmid|].
  destruct (p c) eqn:Hc; [|destruct Hmid]. destruct Hmid as [<-|[]].
  apply run_consumes in Hin. destruct Hin as (u & Eu & Fu & Pu).
  change (charset (Star (Chars p))) with p in Fu.
  cbn [rest pos] in Eu, Pu. exists c, u. cbn [forallb app length].
  rewrite Hc, Fu, Eu. repeat split; [lia|exact Hcaps].
Qed.


Lemma find_match_bol_later (x : regex) :
  forall (s : jsstring) (c : code_unit),
    find_match (Seq Bol x) (Some c) s = None.
Proof.
  induction s as [|d s IH]; intro c; cbn [find_match]; unfold match_here;
    rewrite run_seq; simpl; [reflexivity|]. now rewrite IH.
Qed.

Lemma find_match_bol (x : regex) (s skipped : jsstring) (st : mstate) :
  find_match (Seq Bol x) None s = Some (skipped, st) ->
  skipped = [] /\ In st (run x (mkState 0 None s [])).
Proof.
  destruct s as [|c s]; cbn [find_match]; unfold match_here;
    rewrite run_seq; simpl; rewrite app_nil_r.
  - destruct (run x _) as [|y l] eqn:E; [discriminate|]. simpl.
    intro H. injection H as <- <-. split; [reflexivity|now left].
  - destruct (run x _) as [|y l] eqn:E.
    + simpl. now rewrite find_match_bol_later.
    + simpl. intro H. injection H as <- <-. split; [reflexivity|now left].
Qed.

Lemma run_group (i : nat) (a : regex) (st : mstate) :
  run (Group i a) st
  = map (fun st' =>
           mkState (pos st') (prev st') (rest st')
             ((i, firstn (pos st' - pos st) (rest st)) :: caps st'))
        (run a st).
Proof. reflexivity. Qed.

Lemma run_opt (a : regex) (st : mstate) : run (Opt a) st = run a st ++ [st].
Proof. reflexivity. Qed.




















(** ** The message caches under any sequence of calls *)

Section OrderedMapMoreFacts.
Variables K V : Type.
Variable keqb : K -> K -> bool.
Hypothesis keqb_spec : forall a b, keqb a b = true <-> a = b.

Lemma keqb_false (a b : K) : keqb a b = false <-> a <> b.
Proof.
  split; intros H.
  - intros E. apply keqb_spec in E. congruence.
  - destruct (keqb a b) eqn:E; [apply keqb_spec in E; contradiction | reflexivity].
Qed.

Lemma map_set_keys_in (k k0 : K) (v : V) (m : omap K V) :
  In k (map_keys (map_set keqb k0 v m)) <-> k = k0 \/ In k (map_keys m).
Proof.
  induction m as [|[k' v'] m IH]; simpl.
  - intuition congruence.
  - destruct (keqb k0 k') eqn:E; simpl.
    + apply keqb_spec in E. subst. intuition congruence.
    + rewrite IH. intuition.
Qed.

Lemma map_set_nodup (k0 : K) (v : V) (m : omap K V) :
  NoDup (map_keys m) -> NoDup (map_keys (map_set keqb k0 v m)).
Proof.
  induction m as [|[k' v'] m IH]; simpl; intros H.
  - constructor; [intros [] | constructor].
  - inversion H as [|? ? Hn Hd]; subst.
    destruct (keqb k0 k') eqn:E; simpl.
    + constructor; assumption.
    + constructor; [|apply IH; assumption].
      intros Hin. apply map_set_keys_in in Hin. destruct Hin as [->|Hin].
      * rewrite (proj2 (keqb_spec k0 k0) eq_refl) in E. discriminate.
      * contradiction.
Qed.

Lemma map_delete_keys_in (k k0 : K) (m : omap K V) :
  NoDup (map_keys m) ->
  (In k (map_keys (map_delete keqb k0 m)) <-> k <> k0 /\ In k (map_keys m)).
Proof.
  induction m as [|[k' v'] m IH]; simpl; intros H.
  - intuition.
  - inversion H as [|? ? Hn Hd]; subst.
    destruct (keqb k0 k') eqn:E; simpl.
    + apply keqb_spec in E. subst k'. split.
      * intros Hin. split; [intros ->; contradiction | right; assumption].
      * intros [Hne [->|Hin]]; [contradiction | assumption].
    + apply keqb_false in E. rewrite (IH Hd). split.
      * intros [->|[Hne Hin]]; [split; [congruence | left; reflexivity] | tauto].
      * intros [Hne [->|Hin]]; [left; reflexivity | right; tauto].
Qed.

Lemma map_delete_nodup (k0 : K) (m : omap K V) :
  NoDup (map_keys m) -> NoDup (map_keys (map_delete keqb k0 m)).
Proof.
  induction m as [|[k' v'] m IH]; simpl; intros H.
  - constructor.
  - inversion H as [|? ? Hn Hd]; subst.
    destruct (keqb k0 k') eqn:E; simpl; [assumption|].
    constructor; [|apply IH; assumption].
    intros Hin. apply (map_delete_keys_in k' k0 m Hd) in Hin. tauto.
Qed.

Lemma map_set_length (k0 : K) (v : V) (m : omap K V) :
  length (map_set keqb k0 v m)
  = if map_has keqb k0 m then length m else S (length m).
Proof.
  unfold map_has. induction m as [|[k' v'] m IH]; simpl; [reflexivity|].
  destruct (keqb k0 k') eqn:E; simpl; [reflexivity|].
  rewrite IH. destruct (map_get keqb k0 m); reflexivity.
Qed.

Lemma map_delete_length (k0 : K) (m : omap K V) :
  length (map_delete keqb k0 m)
  = if map_has keqb k0 m then length m - 1 else length m.
Proof.
  unfold map_has. induction m as [|[k' v'] m IH]; simpl; [reflexivity|].
  destruct (keqb k0 k') eqn:E; simpl; [lia|].
  rewrite IH. destruct (map_get keqb k0 m) eqn:G; [|reflexivity].
  destruct m; [discriminate|simpl; lia].
Qed.

Lemma map_get_delete_same (k0 : K) (m : omap K V) :
  NoDup (map_keys m) -> map_get keqb k0 (map_delete keqb k0 m) = None.
Proof.
  intros H.
  destruct (map_get keqb k0 (map_delete keqb k0 m)) eqn:G; [|reflexivity].
  assert (Hin : In k0 (map_keys (map_delete keqb k0 m))).
  { apply (@map_has_in _ _ keqb keqb_spec). unfold map_has. rewrite G. reflexivity. }
  apply (map_delete_keys_in k0 k0 m H) in Hin. tauto.
Qed.

Lemma map_get_delete_other (k k0 : K) (m : omap K V) :
  k <> k0 -> map_get keqb k (map_delete keqb k0 m) = map_get keqb k m.
Proof.
  intros Hne. induction m as [|[k' v'] m IH]; simpl; [reflexivity|].
  destruct (keqb k0 k') eqn:E; simpl.
  - apply keqb_spec in E. subst k'.
    rewrite (proj2 (keqb_false k k0) Hne). reflexivity.
  - rewrite IH. reflexivity.
Qed.

End OrderedMapMoreFacts.

Lemma root_create_bounded (optMaxSize : option nat) :
  root_bounded (RootMessageStore.create optMaxSize).
Proof.
  unfold root_bounded, RootMessageStore.create; simpl.
  repeat split.
  - destruct optMaxSize as [[|n]|]; lia.
  - lia.
  - constructor.
  - intros k [].
Qed.

Lemma root_add_bounded (s : RootMessageStore.MessageStore)
    (message : option Message) :
  root_bounded s -> root_bounded (fst (RootMessageStore.add s message)).
Proof.
  intros (Hmax & Hlen & Hnd & Hincl).
  unfold RootMessageStore.add.
  destruct message as [m|]; [|repeat split; assumption].
  destruct (RootMessageStore.valid_id (Some m)) as [messageId|];
    [|repeat split; assumption].
  destruct (RootMessageStore.maxSize s <=? length (RootMessageStore.messageQueue s))
    eqn:Efull.
  - apply Nat.leb_le in Efull.
    destruct (RootMessageStore.messageQueue s) as [|oldestId rest'] eqn:Eq;
      [simpl in Efull; lia|].
    unfold root_bounded; simpl. repeat split.
    + assumption.
    + rewrite length_app. simpl in *. lia.
    + apply (map_set_nodup str_eqb str_eqb_spec).
      apply (map_delete_nodup str_eqb str_eqb_spec). assumption.
    + intros k Hin. apply (map_set_keys_in str_eqb str_eqb_spec) in Hin.
      apply in_or_app. destruct Hin as [->|Hin]; [right; left; reflexivity|].
      apply (map_delete_keys_in str_eqb str_eqb_spec k oldestId _ Hnd) in Hin.
      destruct Hin as [Hne Hin]. apply Hincl in Hin.
      destruct Hin as [E|Hin]; [congruence | left; assumption].
  - apply Nat.leb_gt in Efull.
    unfold root_bounded; simpl. repeat split.
    + assumption.
    + rewrite length_app. simpl. lia.
    + apply (map_set_nodup str_eqb str_eqb_spec). assumption.
    + intros k Hin. apply (map_set_keys_in str_eqb str_eqb_spec) in Hin.
      apply in_or_app. destruct Hin as [->|Hin]; [right; left; reflexivity|].
      left. apply Hincl. assumption.
Qed.

Lemma queue_remove_length (id : jsstring) (q : list jsstring) :
  length (RootMessageStore.queue_remove id q) <= length q.
Proof.
  induction q as [|x q IH]; simpl; [lia|].
  destruct (str_eqb x id); simpl; lia.
Qed.

Lemma queue_remove_in (id k : jsstring) (q : list jsstring) :
  k <> id -> In k q -> In k (RootMessageStore.queue_remove id q).
Proof.
  intros Hne. induction q as [|x q IH]; simpl; [tauto|].
  intros [->|Hin].
  - destruct (str_eqb k id) eqn:E; [apply str_eqb_spec in E; contradiction|].
    left; reflexivity.
  - destruct (str_eqb x id); [assumption | right; apply IH; assumption].
Qed.

Lemma root_remove_bounded (s : RootMessageStore.MessageStore) (id : jsstring) :
  root_bounded s -> root_bounded (fst (RootMessageStore.remove s id)).
Proof.
  intros (Hmax & Hlen & Hnd & Hincl).
  unfold RootMessageStore.remove.
  destruct (RootMessageStore.has s id); [|repeat split; assumption].
  unfold root_bounded; simpl. repeat split.
  - assumption.
  - pose proof (queue_remove_length id (RootMessageStore.messageQueue s)). lia.
  - apply (map_delete_nodup str_eqb str_eqb_spec). assumption.
  - intros k Hin.
    apply (map_delete_keys_in str_eqb str_eqb_spec k id _ Hnd) in Hin.
    destruct Hin as [Hne Hin]. apply queue_remove_in; [assumption|].
    apply Hincl. assumption.
Qed.

Lemma root_calls_bounded (calls : list RootCall) :
  forall s, root_bounded s ->
    root_bounded (root_calls calls s)
    /\ RootMessageStore.maxSize (root_calls calls s) = RootMessageStore.maxSize s.
Proof.
  induction calls as [|c calls IH]; intros s H; [split; [assumption|reflexivity]|].
  unfold root_calls in *; simpl.
  assert (Hstep : root_bounded (root_call s c)
                  /\ RootMessageStore.maxSize (root_call s c)
                     = RootMessageStore.maxSize s).
  { destruct c as [message|messageId|]; simpl.
    - split; [apply root_add_bounded; assumption|].
      unfold RootMessageStore.add.
      destruct message as [m|]; [|reflexivity].
      destruct (RootMessageStore.valid_id (Some m)); [|reflexivity].
      destruct (RootMessageStore.maxSize s <=? _); [|reflexivity].
      destruct (RootMessageStore.messageQueue s); reflexivity.
    - split; [apply root_remove_bounded; assumption|].
      unfold RootMessageStore.remove.
      destruct (RootMessageStore.has s messageId); reflexivity.
    - split; [|reflexivity].
      destruct H as (Hmax & _). unfold root_bounded; simpl.
      repeat split; [assumption | lia | constructor | intros k []]. }
  destruct Hstep as [Hb Hm]. destruct (IH _ Hb) as [Hb' Hm'].
  split; [assumption | congruence].
Qed.

(** X1.  Whatever calls are made on a store of [src/messageStore.js] after
    its construction, [add] with any argument (also one that is rejected,
    also one whose identifier is cached already), [remove] and [clear] in
    any order, the store never holds more than [maxSize] messages, its
    queue never more than [maxSize] identifiers, and [maxSize] stays what
    the constructor made it. *)
Theorem root_store_never_exceeds_capacity (optMaxSize : option nat)
    (calls : list RootCall) :
  let s := root_calls calls (RootMessageStore.create optMaxSize) in
  RootMessageStore.size s <= RootMessageStore.maxSize s
  /\ length (RootMessageStore.messageQueue s) <= RootMessageStore.maxSize s
  /\ RootMessageStore.maxSize s
     = RootMessageStore.maxSize (RootMessageStore.create optMaxSize).
Proof.
  intros s.
  destruct (root_calls_bounded calls (root_create_bounded optMaxSize))
    as [(Hmax & Hlen & Hnd & Hincl) Hm].
  fold s in Hmax, Hlen, Hnd, Hincl, Hm.
  repeat split; [|assumption|assumption].
  unfold RootMessageStore.size, map_size.
  pose proof (NoDup_incl_length Hnd Hincl) as Hle.
  unfold map_keys in Hle. rewrite length_map in Hle. lia.
Qed.

(** X2.  A message with an identifier is cached by [add] of
    [src/messageStore.js] in every state of the store: the call returns
    the identifier, and [get] and [has] find the message right after.
    Whether another cached message survives the call is decided by the
    queue, not by the number of cached messages: it is found as before
    when [messageQueue] holds fewer than [maxSize] identifiers or another
    identifier heads it, and it is lost when [messageQueue] holds
    [maxSize] identifiers or more and its identifier heads it ([messages]
    being a [Map], which holds no key twice). *)
Theorem root_added_message_is_retrievable (s : RootMessageStore.MessageStore)
    (m : Message) (id : jsstring) :
  has_id m id ->
  let r := RootMessageStore.add s (Some m) in
  snd r = Returned id
  /\ RootMessageStore.get (fst r) id = Some m
  /\ RootMessageStore.has (fst r) id = true
  /\ forall other,
       other <> id ->
       (length (RootMessageStore.messageQueue s) < RootMessageStore.maxSize s
        \/ hd_error (RootMessageStore.messageQueue s) <> Some other ->
        RootMessageStore.get (fst r) other = RootMessageStore.get s other)
       /\ (NoDup (map_keys (RootMessageStore.messages s)) ->
           RootMessageStore.maxSize s <= length (RootMessageStore.messageQueue s) ->
           hd_error (RootMessageStore.messageQueue s) = Some other ->
           RootMessageStore.get (fst r) other = None).
Proof.
  intros Hid r. subst r. unfold RootMessageStore.add.
  rewrite (root_valid_id Hid).
  unfold RootMessageStore.get, RootMessageStore.has, map_has.
  destruct (RootMessageStore.maxSize s <=? length (RootMessageStore.messageQueue s))
    eqn:Efull.
  - apply Nat.leb_le in Efull.
    destruct (RootMessageStore.messageQueue s) as [|oldestId rest'] eqn:Eq;
      cbn [fst snd RootMessageStore.messages];
      rewrite (map_get_set_same str_eqb str_eqb_spec);
      (split; [reflexivity|]); (split; [reflexivity|]); (split; [reflexivity|]);
      intros other Hne;
      rewrite (map_get_set_other str_eqb str_eqb_spec _ _ Hne).
    + split; [reflexivity | discriminate].
    + split.
      * intros [Hlt|Hhd]; [lia|].
        apply (map_get_delete_other str_eqb str_eqb_spec).
        simpl in Hhd. congruence.
      * intros Hnd _ Hhd. simpl in Hhd. injection Hhd as ->.
        now apply (map_get_delete_same str_eqb str_eqb_spec).
  - apply Nat.leb_gt in Efull. cbn [fst snd RootMessageStore.messages].
    rewrite (map_get_set_same str_eqb str_eqb_spec).
    split; [reflexivity|]. split; [reflexivity|]. split; [reflexivity|].
    intros other Hne.
    rewrite (map_get_set_other str_eqb str_eqb_spec _ _ Hne).
    split; [reflexivity | lia].
Qed.

Lemma root_added_message_is_retrievable_witness :
  let s := fst (RootMessageStore.add
                  (fst (RootMessageStore.add (RootMessageStore.create (Some 2))
                                             (Some msgA)))
                  (Some msgA)) in
  RootMessageStore.size s = 1
  /\ RootMessageStore.maxSize s = 2
  /\ RootMessageStore.get s (js "A") = Some msgA
  /\ RootMessageStore.get (fst (RootMessageStore.add s (Some msgB))) (js "B")
     = Some msgB
  /\ RootMessageStore.get (fst (RootMessageStore.add s (Some msgB))) (js "A")
     = None.
Proof.
  intro s.
  destruct (@root_added_message_is_retrievable s msgB (js "B"))
    as (_ & Hfound & _ & Hothers);
    [split; [vm_compute; reflexivity | vm_compute; discriminate]|].
  destruct (Hothers (js "A")) as [_ Hlost]; [vm_compute; discriminate|].
  split; [vm_compute; reflexivity|]. split; [vm_compute; reflexivity|].
  split; [vm_compute; reflexivity|]. split; [exact Hfound|].
  apply Hlost.
  - vm_compute. constructor; [intros [] | constructor].
  - vm_compute. lia.
  - vm_compute. reflexivity.
Defined.

(** X3.  [remove] of [src/messageStore.js] on a store whose queue lists
    the cached identifiers once each: it answers whether the identifier
    was cached, afterwards [get] misses it, every other message is still
    found, the size has dropped by one exactly when the answer is true,
    and the queue again lists the cached identifiers once each. *)
Theorem root_remove_forgets_one_message (s : RootMessageStore.MessageStore)
    (id : jsstring) :
  root_consistent s ->
  let r := RootMessageStore.remove s id in
  snd r = RootMessageStore.has s id
  /\ RootMessageStore.get (fst r) id = None
  /\ (forall other, other <> id ->
        RootMessageStore.get (fst r) other = RootMessageStore.get s other)
  /\ RootMessageStore.size (fst r)
     = RootMessageStore.size s - (if RootMessageStore.has s id then 1 else 0)
  /\ root_consistent (fst r).
Proof.
  intros Hc r. subst r.
  pose proof (root_remove_consistent id Hc) as Hc'.
  destruct Hc as [Hq Hnd]. rewrite Hq in Hnd.
  unfold RootMessageStore.remove in *.
  unfold RootMessageStore.get, RootMessageStore.size, map_size.
  destruct (RootMessageStore.has s id) eqn:Ehas; simpl.
  - split; [reflexivity|]. split; [|split; [|split]].
    + apply (map_get_delete_same str_eqb str_eqb_spec). assumption.
    + intros other Hne. apply (map_get_delete_other str_eqb str_eqb_spec). assumption.
    + rewrite (map_delete_length str_eqb).
      unfold RootMessageStore.has in Ehas. rewrite Ehas. reflexivity.
    + assumption.
  - split; [reflexivity|]. split; [|split; [|split]].
    + unfold RootMessageStore.has, map_has in Ehas.
      destruct (map_get str_eqb id (RootMessageStore.messages s));
        [discriminate | reflexivity].
    + reflexivity.
    + lia.
    + assumption.
Qed.

Lemma root_remove_forgets_one_message_witness :
  let s := fst (RootMessageStore.add
                  (fst (RootMessageStore.add (RootMessageStore.create (Some 2))
                                             (Some msgA)))
                  (Some msgB)) in
  let r := RootMessageStore.remove s (js "A") in
  snd r = true
  /\ RootMessageStore.get (fst r) (js "A") = None
  /\ RootMessageStore.get (fst r) (js "B") = Some msgB
  /\ RootMessageStore.size (fst r) = 1.
Proof.
  intros s r. subst r.
  assert (Hc : root_consistent s).
  { split; [vm_compute; reflexivity|].
    vm_compute. repeat constructor; simpl; intuition discriminate. }
  destruct (@root_remove_forgets_one_message s (js "A") Hc)
    as (H1 & H2 & H3 & H4 & _).
  split; [rewrite H1; vm_compute; reflexivity|].
  split; [exact H2|].
  split; [rewrite H3; [vm_compute; reflexivity | vm_compute; discriminate]|].
  rewrite H4. vm_compute. reflexivity.
Defined.

Lemma core_add_within_capacity (s : CoreMessageStore.MessageStore)
    (message : option Message) :
  core_within_capacity s ->
  core_within_capacity (fst (CoreMessageStore.add s message))
  /\ CoreMessageStore.maxSize (fst (CoreMessageStore.add s message))
     = CoreMessageStore.maxSize s.
Proof.
  unfold core_within_capacity, CoreMessageStore.size, map_size.
  intros H. unfold CoreMessageStore.add.
  destruct message as [m|]; [|split; [assumption|reflexivity]].
  destruct (key m) as [k|]; [|split; [assumption|reflexivity]].
  simpl. split; [|reflexivity]. unfold map_size.
  pose proof (map_set_length okey_eqb (key_id k) m (CoreMessageStore.messages s))
    as Hlen.
  set (msgs := map_set okey_eqb (key_id k) m (CoreMessageStore.messages s)) in *.
  assert (Hle : length msgs <= S (length (CoreMessageStore.messages s))).
  { rewrite Hlen. destruct (map_has _ _ _); lia. }
  destruct (CoreMessageStore.maxSize s <? length msgs) eqn:E.
  - apply Nat.ltb_lt in E.
    destruct msgs as [|[oldestKey v] others]; simpl in *; [lia|].
    rewrite (proj2 (okey_eqb_spec oldestKey oldestKey) eq_refl). lia.
  - apply Nat.ltb_ge in E. assumption.
Qed.

Lemma core_calls_within_capacity (calls : list CoreCall) :
  forall s, core_within_capacity s ->
    core_within_capacity (core_calls calls s)
    /\ CoreMessageStore.maxSize (core_calls calls s) = CoreMessageStore.maxSize s.
Proof.
  induction calls as [|c calls IH]; intros s H; [split; [assumption|reflexivity]|].
  unfold core_calls in *; simpl.
  assert (Hstep : core_within_capacity (core_call s c)
                  /\ CoreMessageStore.maxSize (core_call s c)
                     = CoreMessageStore.maxSize s).
  { destruct c as [message|messageId|]; simpl.
    - apply core_add_within_capacity. assumption.
    - split; [|reflexivity].
      unfold core_within_capacity, CoreMessageStore.size, map_size in *; simpl.
      rewrite (map_delete_length okey_eqb).
      destruct (map_has _ _ _); lia.
    - split; [|reflexivity].
      unfold core_within_capacity, CoreMessageStore.size, map_size; simpl. lia. }
  destruct Hstep as [Hb Hm]. destruct (IH _ Hb) as [Hb' Hm'].
  split; [assumption | congruence].
Qed.

(** X4.  Whatever calls are made on a store of
    [src/src/core/messageStore.js] after its construction, [add] with any
    argument (also one that makes it throw, also a message without an
    identifier), [remove] and [clear] in any order, the store never holds
    more than [maxSize] messages, and [maxSize] stays what the constructor
    made it. *)
Theorem core_store_never_exceeds_capacity (optMaxSize : option nat)
    (calls : list CoreCall) :
  let s := core_calls calls (CoreMessageStore.create optMaxSize) in
  CoreMessageStore.size s <= CoreMessageStore.maxSize s
  /\ CoreMessageStore.maxSize s
     = CoreMessageStore.maxSize (CoreMessageStore.create optMaxSize).
Proof.
  intros s. subst s. apply core_calls_within_capacity.
  unfold core_within_capacity, CoreMessageStore.size, map_size; simpl. lia.
Qed.

(** X5.  In [src/src/core/messageStore.js] adding a message whose
    identifier is cached already replaces the cached message and nothing
    else: the size and the order in which the identifiers will be evicted
    stay as they were.  So the place in the eviction order is that of the
    first [add]: with room for two messages, after [add] of [a], of [b],
    of [a] again and of [c], it is [a] that is gone, although it was added
    after [b]. *)
Theorem core_readd_keeps_eviction_order :
  (forall (s : CoreMessageStore.MessageStore) (m : Message) (id : jsstring),
      core_within_capacity s -> has_id m id ->
      CoreMessageStore.get s (Some id) <> None ->
      let s' := fst (CoreMessageStore.add s (Some m)) in
      CoreMessageStore.size s' = CoreMessageStore.size s
      /\ map_keys (CoreMessageStore.messages s')
         = map_keys (CoreMessageStore.messages s)
      /\ CoreMessageStore.get s' (Some id) = Some m
      /\ forall other, other <> Some id ->
           CoreMessageStore.get s' other = CoreMessageStore.get s other)
  /\ (forall (a b c : jsstring) (ma ma' mb mc : Message),
        has_id ma a -> has_id ma' a -> has_id mb b -> has_id mc c ->
        a <> b -> a <> c -> b <> c ->
        let s1 := fst (CoreMessageStore.add (CoreMessageStore.create (Some 2))
                                            (Some ma)) in
        let s2 := fst (CoreMessageStore.add s1 (Some mb)) in
        let s3 := fst (CoreMessageStore.add s2 (Some ma')) in
        let s4 := fst (CoreMessageStore.add s3 (Some mc)) in
        CoreMessageStore.get s3 (Some a) = Some ma'
        /\ CoreMessageStore.get s4 (Some a) = None
        /\ CoreMessageStore.get s4 (Some b) = Some mb
        /\ CoreMessageStore.get s4 (Some c) = Some mc).
Proof.
  split.
  - intros s m id Hcap Hid Hget. apply core_add_existing; try assumption.
    unfold CoreMessageStore.get in Hget. unfold map_has.
    destruct (map_get okey_eqb (Some id) (CoreMessageStore.messages s));
      [reflexivity | contradiction].
  - intros a b c ma ma' mb mc [Ha Ha0] [Ha' _] [Hb Hb0] [Hc Hc0] Hab Hac Hbc.
    destruct (key ma) as [ka|] eqn:Eka; [|discriminate].
    destruct (key ma') as [ka'|] eqn:Eka'; [|discriminate].
    destruct (key mb) as [kb|] eqn:Ekb; [|discriminate].
    destruct (key mc) as [kc|] eqn:Ekc; [|discriminate].
    simpl in Ha, Ha', Hb, Hc.
    assert (Eab : str_eqb a b = false) by (apply str_eqb_neq; assumption).
    assert (Eba : str_eqb b a = false) by (apply str_eqb_neq; congruence).
    assert (Eac : str_eqb a c = false) by (apply str_eqb_neq; assumption).
    assert (Eca : str_eqb c a = false) by (apply str_eqb_neq; congruence).
    assert (Ebc : str_eqb b c = false) by (apply str_eqb_neq; assumption).
    assert (Ecb : str_eqb c b = false) by (apply str_eqb_neq; congruence).
    unfold CoreMessageStore.add, CoreMessageStore.create, CoreMessageStore.get.
    simpl. rewrite Eka. simpl. rewrite Ekb. simpl. rewrite Ha, Hb. simpl.
    rewrite Eba. simpl. rewrite Eka'. simpl. rewrite Ha'. simpl.
    rewrite (str_eqb_refl a). simpl. rewrite Ekc. simpl. rewrite Hc. simpl.
    rewrite Eca, Ecb. simpl. rewrite (str_eqb_refl a). simpl.
    rewrite Eab, Eac, Ebc, (str_eqb_refl b), (str_eqb_refl c), Ecb.
    repeat split.
Qed.

Lemma core_readd_keeps_eviction_order_witness :
  let s1 := fst (CoreMessageStore.add (CoreMessageStore.create (Some 2))
                                      (Some msgB)) in
  let s2 := fst (CoreMessageStore.add s1 (Some msgA)) in
  map_keys (CoreMessageStore.messages (fst (CoreMessageStore.add s2 (Some msgB'))))
  = map_keys (CoreMessageStore.messages s2)
  /\ (let s3 := fst (CoreMessageStore.add s2 (Some msgB')) in
      let s4 := fst (CoreMessageStore.add s3 (Some msgC)) in
      CoreMessageStore.get s4 (Some (js "B")) = None
      /\ CoreMessageStore.get s4 (Some (js "A")) = Some msgA).
Proof.
  intros s1 s2. split.
  - apply (proj1 core_readd_keeps_eviction_order s2 msgB' (js "B")).
    + vm_compute. lia.
    + split; [vm_compute; reflexivity | vm_compute; discriminate].
    + vm_compute. discriminate.
  - destruct (proj2 core_readd_keeps_eviction_order (js "B") (js "A") (js "C")
                msgB msgB' msgA msgC) as (_ & H2 & H3 & _).
    all: try (split; [vm_compute; reflexivity | vm_compute; discriminate]).
    all: try (vm_compute; discriminate).
    split; assumption.
Defined.

(** ** Formatting a number for the transport *)

Lemma replace_all_class_filter (p : code_unit -> bool) (s : jsstring) :
  replace_all (Chars p) [] s = filter (fun c => negb (p c)) s.
Proof.
  rewrite replace_all_class.
  induction s as [|c s IH]; simpl; [reflexivity|].
  destruct (p c); simpl; now rewrite IH.
Qed.

Lemma plus_char_eq (c : code_unit) : is_char "+" c = true <-> c = 43%N.
Proof. unfold is_char, cu_eqb. rewrite N.eqb_eq. vm_compute ch. tauto. Qed.

Lemma digit_or_plus_cases (c : code_unit) :
  is_digit c || is_char "+" c = true -> (48 <= c <= 57 \/ c = 43)%N.
Proof.
  rewrite orb_true_iff. intros [H|H].
  - left. now apply digit_cases.
  - right. now apply plus_char_eq.
Qed.

Lemma digit_or_plus_visible (c : code_unit) :
  is_digit c || is_char "+" c = true -> invisibleOrSpace c = false.
Proof.
  intro H. apply digit_or_plus_cases in H.
  destruct (invisibleOrSpace c) eqn:E; [|reflexivity].
  unfold invisibleOrSpace in E.
  rewrite !orb_true_iff in E. rewrite in_range_iff in E.
  unfold cu_eqb in E. rewrite !N.eqb_eq in E.
  destruct E as [[[[E|E]|E]|E]|E]; try lia.
  apply space_cases in E. lia.
Qed.

Lemma filter_filter_visible (s : jsstring) :
  filter (fun c => negb (negb (is_digit c || is_char "+" c)))
         (filter (fun c => negb (invisibleOrSpace c)) s)
  = digitsAndPlus s.
Proof.
  unfold digitsAndPlus. induction s as [|c s IH]; simpl; [reflexivity|].
  destruct (is_digit c || is_char "+" c) eqn:E.
  - rewrite (digit_or_plus_visible _ E). simpl. rewrite E. simpl. now rewrite IH.
  - destruct (invisibleOrSpace c); simpl; [exact IH|]. rewrite E. simpl. exact IH.
Qed.

(** [/^\d+$/.test(s)]: [s] is a non-empty run of digits. *)
Lemma test_digitsOnly (s : jsstring) :
  test digitsOnlyRegex s = nonempty s && forallb is_digit s.
Proof.
  unfold test, digitsOnlyRegex.
  destruct (find_match _ None s) as [[skipped st]|] eqn:E.
  - apply find_match_bol in E. destruct E as [_ Hin].
    rewrite run_seq in Hin. apply in_flat_map in Hin.
    destruct Hin as (mid & Hmid & Hend).
    apply run_plus_chars_shape in Hmid.
    destruct Hmid as (c & u & Hrest & Hall & _ & _).
    simpl in Hend. destruct (rest mid) eqn:Er; [|contradiction].
    simpl in Hrest. rewrite app_nil_r in Hrest. subst s. simpl in *.
    now rewrite Hall.
  - destruct s as [|c u]; [reflexivity|]. simpl.
    destruct (is_digit c && forallb is_digit u) eqn:Hall; [|reflexivity].
    exfalso.
    pose proof (first_plus_chars is_digit c u 0 None [] [] Hall I) as Hp.
    rewrite app_nil_r in Hp.
    assert (Hm : first_match (Seq (Plus (Chars is_digit)) Eol)
                   (mkState 0 None (c :: u) []) <> None).
    { erewrite first_seq; [discriminate | exact Hp | reflexivity]. }
    cbn [find_match] in E. unfold match_here in E. rewrite run_seq in E.
    simpl in E. rewrite app_nil_r in E. unfold first_match in Hm.
    destruct (hd_error _) eqn:Eh; [discriminate | now apply Hm].
Qed.

Lemma replace_first_head (c : code_unit) (s : jsstring) :
  replace_first c (c :: s) = s.
Proof. simpl. unfold cu_eqb. now rewrite N.eqb_refl. Qed.

Lemma startsWith_plus (s : jsstring) :
  startsWith s (js "+") = match s with c :: _ => is_char "+" c | [] => false end.
Proof.
  destruct s as [|c s]; [reflexivity|].
  change (js "+") with [ch "+"]. simpl. unfold is_char.
  now rewrite andb_true_r.
Qed.

(** What [formatNumberForWhatsApp] computes, in terms of the digits and
    plus signs of its argument. *)
Lemma formatNumber_unfold (number : jsstring) :
  formatNumberForWhatsApp number
  = let digits :=
      match digitsAndPlus number with
      | c :: t => if is_char "+" c then t else c :: t
      | [] => []
      end in
    if nonempty digits && forallb is_digit digits
    then Some (digits ++ js "@s.whatsapp.net") else None.
Proof.
  unfold formatNumberForWhatsApp.
  destruct number as [|n0 number]; [reflexivity|].
  cbn [nonempty negb].
  unfold notDigitOrPlus. cbv zeta.
  rewrite !replace_all_class_filter, filter_filter_visible, startsWith_plus.
  set (kept := digitsAndPlus (n0 :: number)).
  match goal with
  | |- context [replace_first ?a ?b] =>
      assert (E : replace_first a b
                  = match kept return list code_unit with
                    | c :: t => if is_char "+" c then t else c :: t
                    | [] => []
                    end)
  end.
  { destruct kept as [|c t]; [vm_compute; reflexivity|].
    destruct (is_char "+" c) eqn:Ec; simpl.
    - unfold is_char in Ec. now rewrite Ec.
    - reflexivity. }
  rewrite E. rewrite test_digitsOnly. clear E.
  match goal with |- context [forallb is_digit ?x] => generalize x end.
  intros [|d ds]; [reflexivity|].
  cbn [nonempty negb orb andb].
  destruct (forallb is_digit (d :: ds)); reflexivity.
Qed.

Lemma digit_not_plus (c : code_unit) : is_digit c = true -> is_char "+" c = false.
Proof. intro H. now destruct (digit_is_plain c H) as (_ & _ & E & _). Qed.

Lemma plus_not_digit (c : code_unit) : is_char "+" c = true -> is_digit c = false.
Proof.
  intro H. destruct (is_digit c) eqn:E; [|reflexivity].
  apply digit_not_plus in E. congruence.
Qed.

Lemma formatNumber_iff (number address : jsstring) :
  formatNumberForWhatsApp number = Some address
  <-> exists digits,
        digit_run digits
        /\ (digitsAndPlus number = digits
            \/ digitsAndPlus number = ch "+" :: digits)
        /\ address = digits ++ js "@s.whatsapp.net".
Proof.
  rewrite formatNumber_unfold. cbv zeta.
  destruct (digitsAndPlus number) as [|c t] eqn:Ek.
  - simpl. split; [discriminate|].
    intros (digits & [Hne Hall] & [E|E] & _); [congruence | discriminate].
  - destruct (is_char "+" c) eqn:Ec.
    + split.
      * destruct (nonempty t && forallb is_digit t) eqn:Ev; [|discriminate].
        intro H. injection H as <-. apply andb_true_iff in Ev.
        destruct Ev as [Hne Hall].
        exists t. repeat split; try assumption.
        -- destruct t; [discriminate | discriminate].
        -- right. apply plus_char_eq in Ec. subst c. reflexivity.
      * intros (digits & [Hne Hall] & [E|E] & ->).
        -- subst digits. simpl in Hall. apply andb_true_iff in Hall.
           destruct Hall as [Hc _]. apply digit_not_plus in Hc. congruence.
        -- injection E as _ <-. rewrite Hall.
           destruct t; [contradiction | reflexivity].
    + split.
      * destruct (nonempty (c :: t) && forallb is_digit (c :: t)) eqn:Ev;
          [|discriminate].
        intro H. injection H as <-. apply andb_true_iff in Ev.
        destruct Ev as [_ Hall].
        exists (c :: t). repeat split; try assumption; [discriminate | now left].
      * intros (digits & [Hne Hall] & [E|E] & ->).
        -- subst digits. rewrite Hall. reflexivity.
        -- injection E as -> _. vm_compute in Ec. discriminate.
Qed.

(** X6.  [formatNumberForWhatsApp] looks only at the digits and plus signs
    of its argument: it answers an address exactly when these are a
    non-empty run of digits, preceded by at most one plus sign, and the
    address is then that run of digits followed by [@s.whatsapp.net].
    Every other argument gives [null]: so does the empty string, a text
    without a digit, and a text with a plus sign behind a digit. *)
Theorem format_number_spec (number address : jsstring) :
  (formatNumberForWhatsApp number = Some address
   <-> exists digits,
         digit_run digits
         /\ (digitsAndPlus number = digits
             \/ digitsAndPlus number = ch "+" :: digits)
         /\ address = digits ++ js "@s.whatsapp.net")
  /\ (existsb is_digit number = false -> formatNumberForWhatsApp number = None)
  /\ (forall before after : jsstring,
        existsb is_digit before = true ->
        formatNumberForWhatsApp (before ++ ch "+" :: after) = None).
Proof.
  split; [apply formatNumber_iff|]. split.
  - intro Hno.
    destruct (formatNumberForWhatsApp number) as [a|] eqn:E; [|reflexivity].
    apply formatNumber_iff in E.
    destruct E as (digits & [Hne Hall] & Hkept & _).
    destruct digits as [|d digits]; [contradiction|].
    assert (Hin : In d (digitsAndPlus number))
      by (destruct Hkept as [-> | ->]; [now left | right; now left]).
    apply filter_In in Hin. destruct Hin as [Hin _].
    simpl in Hall. apply andb_true_iff in Hall. destruct Hall as [Hd _].
    assert (Hex : existsb is_digit number = true)
      by (apply existsb_exists; now exists d).
    congruence.
  - intros before after Hdigit.
    destruct (formatNumberForWhatsApp (before ++ ch "+" :: after)) as [a|] eqn:E;
      [|reflexivity].
    apply formatNumber_iff in E.
    destruct E as (digits & [Hne Hall] & Hkept & _).
    apply existsb_exists in Hdigit. destruct Hdigit as (d & Hd & Hdd).
    apply in_split in Hd. destruct Hd as (b1 & b2 & ->).
    unfold digitsAndPlus in Hkept.
    rewrite <- !app_assoc, filter_app in Hkept. simpl in Hkept.
    rewrite Hdd in Hkept. simpl in Hkept.
    rewrite filter_app in Hkept. simpl in Hkept.
    change (is_digit (ch "+") || is_char "+" (ch "+")) with true in Hkept.
    set (k1 := filter _ b1) in *. set (k2 := filter _ b2) in *.
    set (k3 := filter _ after) in *.
    assert (Hplus : In (ch "+") digits).
    { destruct Hkept as [<-|Hkept].
      - apply in_or_app. right. right. apply in_or_app. right. now left.
      - destruct k1 as [|x k1]; simpl in Hkept.
        + injection Hkept as Hd0 _. rewrite Hd0 in Hdd. discriminate.
        + injection Hkept as _ <-.
          apply in_or_app. right. right. apply in_or_app. right. now left. }
    rewrite forallb_forall in Hall. apply Hall in Hplus. discriminate.
Qed.

Lemma format_number_spec_witness :
  formatNumberForWhatsApp (js "+880 1711-111111") = Some (js "8801711111111@s.whatsapp.net")
  /\ formatNumberForWhatsApp (js "12+34") = None.
Proof.
  split.
  - apply (proj2 (proj1 (format_number_spec (js "+880 1711-111111")
                           (js "8801711111111@s.whatsapp.net")))).
    exists (js "8801711111111"). split; [split|split].
    + vm_compute. discriminate.
    + vm_compute. reflexivity.
    + right. vm_compute. reflexivity.
    + vm_compute. reflexivity.
  - destruct (formatNumberForWhatsApp (js "12+34")) as [address|] eqn:E;
      [|reflexivity].
    exfalso.
    pose proof (proj2 (proj2 (format_number_spec [] []))
                  (js "12") (js "34") eq_refl) as Hnone.
    change (js "12" ++ ch "+" :: js "34") with (js "12+34") in Hnone.
    congruence.
Defined.

Lemma filter_digits_kept (s : jsstring) :
  filter is_digit (digitsAndPlus s) = filter is_digit s.
Proof.
  unfold digitsAndPlus. induction s as [|c s IH]; simpl; [reflexivity|].
  destruct (is_digit c) eqn:E; simpl; [rewrite E; now rewrite IH|].
  destruct (is_char "+" c); simpl; [rewrite E|]; exact IH.
Qed.

Lemma filter_all {A : Type} (p : A -> bool) (s : list A) :
  forallb p s = true -> filter p s = s.
Proof.
  induction s as [|c s IH]; simpl; [reflexivity|].
  intro H. apply andb_true_iff in H. destruct H as [Hc Hs].
  rewrite Hc. now rewrite IH.
Qed.

Lemma digitsAndPlus_digits (digits : jsstring) :
  forallb is_digit digits = true -> digitsAndPlus digits = digits.
Proof.
  intro H. unfold digitsAndPlus. apply filter_all.
  rewrite forallb_forall in *. intros c Hc. now rewrite (H c Hc).
Qed.

Lemma before_at_digits (digits after : jsstring) :
  forallb is_digit digits = true ->
  before_at (digits ++ ch "@" :: after) = digits.
Proof.
  induction digits as [|d digits IH]; intro H.
  - simpl. change (is_char "@" (ch "@")) with true. reflexivity.
  - simpl in H. apply andb_true_iff in H. destruct H as [Hd Hs].
    destruct (digit_is_plain d Hd) as (_ & _ & _ & Hat).
    simpl. rewrite Hat. now rewrite IH.
Qed.

Lemma address_digits (digits : jsstring) :
  forallb is_digit digits = true ->
  digitsAndPlus (digits ++ js "@s.whatsapp.net") = digits
  /\ before_at (digits ++ js "@s.whatsapp.net") = digits.
Proof.
  intro H. split.
  - unfold digitsAndPlus. rewrite filter_app.
    fold (digitsAndPlus digits). rewrite (digitsAndPlus_digits _ H).
    assert (E : filter (fun c => is_digit c || is_char "+" c)
                       (js "@s.whatsapp.net") = [])
      by (vm_compute; reflexivity).
    rewrite E. apply app_nil_r.
  - assert (E : js "@s.whatsapp.net" = ch "@" :: js "s.whatsapp.net")
      by (vm_compute; reflexivity).
    rewrite E. now apply before_at_digits.
Qed.

Lemma formatNumber_digits (number address : jsstring) :
  formatNumberForWhatsApp number = Some address ->
  address = filter is_digit number ++ js "@s.whatsapp.net"
  /\ digit_run (filter is_digit number).
Proof.
  intro H. apply formatNumber_iff in H.
  destruct H as (digits & [Hne Hall] & Hkept & ->).
  assert (Hd : filter is_digit number = digits).
  { rewrite <- filter_digits_kept.
    destruct Hkept as [E|E]; rewrite E.
    - now apply filter_all.
    - simpl. change (is_digit (ch "+")) with false. now apply filter_all. }
  rewrite Hd. split; [reflexivity | split; assumption].
Qed.

(** X7.  An address answered by [formatNumberForWhatsApp] is the digits of
    the argument followed by [@s.whatsapp.net].  Taking the part before
    the [@], as [findPhoneNumberByName] does with a stored address, gives
    these digits back, and formatting the address itself, or its part
    before the [@], answers the same address again. *)
Theorem format_number_round_trip (number address : jsstring) :
  formatNumberForWhatsApp number = Some address ->
  address = filter is_digit number ++ js "@s.whatsapp.net"
  /\ directAddress address
  /\ before_at address = filter is_digit number
  /\ formatNumberForWhatsApp address = Some address
  /\ formatNumberForWhatsApp (before_at address) = Some address.
Proof.
  intro H. destruct (formatNumber_digits _ H) as [-> [Hne Hall]].
  set (digits := filter is_digit number) in *.
  destruct (address_digits digits Hall) as [Hk Hb].
  rewrite Hb.
  split; [reflexivity|].
  split; [exists digits; split; [split; assumption | reflexivity]|].
  split; [reflexivity|].
  split; apply formatNumber_iff; exists digits;
    (split; [split; assumption|]); (split; [left | reflexivity]).
  - exact Hk.
  - now apply digitsAndPlus_digits.
Qed.

Lemma format_number_round_trip_witness :
  before_at (js "8801711111111@s.whatsapp.net") = js "8801711111111"
  /\ formatNumberForWhatsApp (js "8801711111111@s.whatsapp.net")
     = Some (js "8801711111111@s.whatsapp.net").
Proof.
  assert (H : formatNumberForWhatsApp (js "+880 1711-111111")
              = Some (js "8801711111111@s.whatsapp.net"))
    by (vm_compute; reflexivity).
  destruct (format_number_round_trip _ H) as (_ & _ & Hb & Hf & _).
  split; [rewrite Hb; vm_compute; reflexivity | exact Hf].
Defined.

(** ** Every extracted number can be addressed *)

Lemma trim_plain (s : jsstring) :
  forallb (fun c => negb (is_space c)) s = true -> trim s = s.
Proof.
  intro H. unfold trim.
  assert (T : forall t, forallb (fun c => negb (is_space c)) t = true ->
                        trimStart t = t).
  { intros [|c t] Ht; [reflexivity|]. simpl in Ht.
    apply andb_true_iff in Ht. destruct Ht as [Hc _].
    apply negb_true_iff in Hc. unfold trimStart. now rewrite Hc. }
  rewrite (T s H). rewrite T; [apply rev_involutive|].
  rewrite forallb_forall in *. intros c Hc. apply H. now apply in_rev.
Qed.

Lemma number_shape_plain (number : jsstring) :
  number_shape number ->
  forallb (fun c => negb (is_space c)) number = true
  /\ digitsAndPlus number = number
  /\ number <> [].
Proof.
  intros (digits & [Hne Hall] & Hn).
  assert (Hsp : forallb (fun c => negb (is_space c)) digits = true).
  { rewrite forallb_forall in *. intros c Hc.
    destruct (digit_is_plain c (Hall c Hc)) as (E & _). now rewrite E. }
  destruct Hn as [->| ->].
  - split; [assumption|]. split; [now apply digitsAndPlus_digits | assumption].
  - split; [|split; [|discriminate]].
    + simpl. rewrite Hsp. reflexivity.
    + unfold digitsAndPlus. simpl. change (is_char "+" (ch "+")) with true.
      change (is_digit (ch "+")) with false. simpl. f_equal.
      now apply digitsAndPlus_digits.
Qed.

Lemma number_shape_formats (number : jsstring) :
  number_shape number ->
  formatNumberForWhatsApp number
  = Some (filter is_digit number ++ js "@s.whatsapp.net").
Proof.
  intro Hs. destruct (number_shape_plain Hs) as (_ & Hk & _).
  destruct Hs as (digits & Hrun & Hn).
  assert (Hf : formatNumberForWhatsApp number
               = Some (digits ++ js "@s.whatsapp.net")).
  { apply formatNumber_iff. exists digits. split; [assumption|].
    split; [|reflexivity]. rewrite Hk. assumption. }
  rewrite Hf. f_equal. f_equal.
  destruct Hrun as [_ Hall].
  destruct Hn as [->| ->]; simpl.
  - symmetry. now apply filter_all.
  - change (is_digit (ch "+")) with false. symmetry. now apply filter_all.
Qed.

Lemma in_run_seq (a b : regex) (st st' : mstate) :
  In st' (run (Seq a b) st) <-> exists mid, In mid (run a st) /\ In st' (run b mid).
Proof. rewrite run_seq. apply in_flat_map. Qed.

(** What [\+?\d+] consumes. *)
Lemma run_signed_digits_shape (st st' : mstate) :
  In st' (run (Seq (Opt (Chars (is_char "+"))) (Plus (Chars is_digit))) st) ->
  exists number, rest st = number ++ rest st' /\ number_shape number
                 /\ pos st' = pos st + length number /\ caps st' = caps st.
Proof.
  intro H. apply in_run_seq in H. destruct H as (mid & Hmid & Hd).
  apply run_plus_chars_shape in Hd.
  destruct Hd as (c & u & Hrest & Hall & Hpos & Hcaps).
  rewrite run_opt in Hmid. apply in_app_or in Hmid.
  destruct Hmid as [Hplus|[<-|[]]].
  - simpl in Hplus. destruct (rest st) as [|x t] eqn:Er; [contradiction|].
    destruct (is_char "+" x) eqn:Ex; [|contradiction].
    destruct Hplus as [<-|[]]. simpl in *.
    apply plus_char_eq in Ex. subst x.
    exists (ch "+" :: c :: u). repeat split.
    + simpl. f_equal. exact Hrest.
    + exists (c :: u). split; [split; [discriminate | exact Hall] | now right].
    + simpl in *. lia.
    + exact Hcaps.
  - exists (c :: u). repeat split; try assumption.
    exists (c :: u). split; [split; [discriminate | exact Hall] | now left].
Qed.

Lemma mention_group_shape (st st' : mstate) :
  In st' (run mentionRegex st) -> number_shape (group_text 1 st').
Proof.
  unfold mentionRegex. intro H.
  apply in_run_seq in H. destruct H as (m1 & _ & H).
  apply in_run_seq in H. destruct H as (m2 & _ & H).
  apply in_run_seq in H. destruct H as (m3 & _ & H).
  apply in_run_seq in H. destruct H as (g & Hg & Htail).
  assert (Hcaps : caps st' = caps g).
  { apply (@run_groupless_caps (Opt (Chars (fun c => cu_eqb c 0x202C%N))));
      [reflexivity | exact Htail]. }
  rewrite run_group in Hg. apply in_map_iff in Hg.
  destruct Hg as (g' & <- & Hg').
  apply run_signed_digits_shape in Hg'.
  destruct Hg' as (number & Hrest & Hshape & Hpos & _).
  unfold group_text. rewrite Hcaps. simpl.
  replace (pos g' - pos m3) with (length number) by lia.
  rewrite Hrest, firstn_length_app. exact Hshape.
Qed.

Lemma find_match_origin (r : regex) :
  forall (s : jsstring) (p : option code_unit) (skipped : jsstring) (st : mstate),
    find_match r p s = Some (skipped, st) ->
    exists p' s', In st (run r (mkState 0 p' s' [])).
Proof.
  induction s as [|c s IH]; intros p skipped st; cbn [find_match];
    unfold match_here.
  - destruct (hd_error _) eqn:E; [|discriminate].
    intro H. injection H as _ <-. exists p, []. now apply hd_error_in.
  - destruct (hd_error _) eqn:E.
    + intro H. injection H as _ <-. exists p, (c :: s). now apply hd_error_in.
    + destruct (find_match r (Some c) s) as [[sk st0]|] eqn:Ef; [|discriminate].
      intro H. injection H as _ <-. eapply IH. exact Ef.
Qed.

Lemma exec_loop_origin (r : regex) :
  forall (fuel : nat) (p : option code_unit) (s : jsstring) (st : mstate),
    In st (exec_loop fuel r p s) ->
    exists p' s', In st (run r (mkState 0 p' s' [])).
Proof.
  induction fuel as [|fuel IH]; intros p s st; simpl; [tauto|].
  destruct (find_match r p s) as [[sk st0]|] eqn:Ef; [|intros []].
  intros [<-|Hin].
  - eapply find_match_origin. exact Ef.
  - eapply IH. exact Hin.
Qed.

Lemma test_wholeNumber_shape (s : jsstring) :
  test wholeNumberRegex s = true -> number_shape s.
Proof.
  unfold test, wholeNumberRegex.
  destruct (find_match _ None s) as [[skipped st]|] eqn:E; [|discriminate].
  intros _. apply find_match_bol in E. destruct E as [_ Hin].
  apply in_run_seq in Hin. destruct Hin as (m1 & Hm1 & Hin).
  apply in_run_seq in Hin. destruct Hin as (m2 & Hm2 & Hend).
  assert (Hsd : In m2 (run (Seq (Opt (Chars (is_char "+")))
                                (Plus (Chars is_digit)))
                           (mkState 0 None s []))).
  { apply in_run_seq. exists m1. split; assumption. }
  apply run_signed_digits_shape in Hsd.
  destruct Hsd as (number & Hrest & Hshape & _ & _).
  simpl in Hend. destruct (rest m2); [|contradiction].
  simpl in Hrest. rewrite app_nil_r in Hrest. now subst s.
Qed.

(** X8.  Every number that [extractMentionedNumbers] returns, by the
    expression or by the simpler approach, is a non-empty run of digits
    with at most a plus sign in front, so [formatNumberForWhatsApp] never
    answers [null] for it: it answers the digits followed by
    [@s.whatsapp.net]. *)
Theorem extracted_numbers_can_be_addressed (messageText number : jsstring) :
  In number (extractMentionedNumbers messageText) ->
  number_shape number
  /\ formatNumberForWhatsApp number
     = Some (filter is_digit number ++ js "@s.whatsapp.net").
Proof.
  intro Hin.
  assert (Hshape : number_shape number).
  { unfold extractMentionedNumbers in Hin.
    destruct messageText as [|c0 text]; [contradiction|].
    destruct (map _ (exec_all mentionRegex (c0 :: text))) as [|x l] eqn:Em.
    - unfold alternativeNumbers in Hin. apply in_flat_map in Hin.
      destruct Hin as (word & _ & Hw).
      destruct (startsWith word (js "@")); [|contradiction].
      destruct (nonempty _ && test wholeNumberRegex _) eqn:Et; [|contradiction].
      destruct Hw as [<-|[]]. apply andb_true_iff in Et.
      now apply test_wholeNumber_shape.
    - rewrite <- Em in Hin. apply in_map_iff in Hin.
      destruct Hin as (st & <- & Hst).
      apply exec_loop_origin in Hst. destruct Hst as (p' & s' & Hrun).
      apply mention_group_shape in Hrun.
      destruct (number_shape_plain Hrun) as (Hplain & _).
      now rewrite (trim_plain _ Hplain). }
  split; [assumption | now apply number_shape_formats].
Qed.

Lemma extracted_numbers_can_be_addressed_witness :
  In (js "+8801711111111")
     (extractMentionedNumbers (js "Hey @+8801711111111, tell him"))
  /\ formatNumberForWhatsApp (js "+8801711111111")
     = Some (js "8801711111111@s.whatsapp.net").
Proof.
  assert (Hin : In (js "+8801711111111")
                   (extractMentionedNumbers (js "Hey @+8801711111111, tell him")))
    by (vm_compute; left; reflexivity).
  split; [exact Hin|].
  destruct (extracted_numbers_can_be_addressed _ _ Hin) as [_ Hf].
  rewrite Hf. vm_compute. reflexivity.
Defined.

(** ** Delivering a mention *)

(** The ways [sendDirectMessage] can go. *)
Lemma sendDirectMessage_cases (send : Socket) (log : list Sent)
    (number text : jsstring) :
  let r := sendDirectMessage (Some send) log number text in
  let attempt :=
    mkSent (Some (filter is_digit number ++ js "@s.whatsapp.net")) text in
  (r = (log, None)
   /\ (number = [] \/ text = [] \/ formatNumberForWhatsApp number = None))
  \/ (text <> [] /\ digit_run (filter is_digit number)
      /\ formatNumberForWhatsApp number <> None
      /\ ((fst r = log ++ [attempt] /\ send log attempt = Returned (snd r))
          \/ (fst r = log ++ [attempt; attempt] /\ send log attempt = Thrown
              /\ match send (log ++ [attempt]) attempt with
                 | Returned result => snd r = result
                 | Thrown => snd r = None
                 end))).
Proof.
  cbv zeta. unfold sendDirectMessage.
  destruct number as [|n0 number]; [left; split; [reflexivity | now left]|].
  destruct text as [|t0 text]; [left; split; [reflexivity | right; now left]|].
  cbn [nonempty negb].
  destruct (formatNumberForWhatsApp (n0 :: number)) as [address|] eqn:Ef;
    [|left; split; [reflexivity | right; now right]].
  destruct (formatNumber_digits _ Ef) as [-> Hrun].
  right. split; [discriminate|]. split; [exact Hrun|]. split; [discriminate|].
  destruct (send log _) as [result|] eqn:E1.
  - left. split; reflexivity.
  - right. destruct (send (log ++ _) _) as [result|] eqn:E2;
      repeat split; reflexivity.
Qed.

(** X9.  [sendDirectMessage] hands nothing to the transport and resolves
    to [null] when the socket is missing, when the number or the text is
    empty, or when the number cannot be formatted.  Otherwise it hands the
    text over, unchanged and addressed to the digits of the number
    followed by [@s.whatsapp.net], once, and a second time exactly when the
    transport rejected the first; it resolves to what the transport
    resolved to, and to [null] when both were rejected.  It never
    rejects. *)
Theorem direct_message_attempts (sock : option Socket) (log : list Sent)
    (number text : jsstring) :
  let r := sendDirectMessage sock log number text in
  let attempt :=
    mkSent (Some (filter is_digit number ++ js "@s.whatsapp.net")) text in
  exists attempts,
    fst r = log ++ attempts
    /\ (attempts = [] \/ attempts = [attempt] \/ attempts = [attempt; attempt])
    /\ (attempts = [] <->
        sock = None \/ number = [] \/ text = []
        \/ formatNumberForWhatsApp number = None)
    /\ (attempts <> [] -> digit_run (filter is_digit number))
    /\ (attempts = [] -> snd r = None)
    /\ (forall send, sock = Some send ->
          (attempts = [attempt] -> send log attempt = Returned (snd r))
          /\ (attempts = [attempt; attempt] ->
              send log attempt = Thrown
              /\ match send (log ++ [attempt]) attempt with
                 | Returned result => snd r = result
                 | Thrown => snd r = None
                 end)).
Proof.
  cbv zeta. destruct sock as [send|].
  2:{ exists []. simpl. rewrite app_nil_r.
      repeat split; try tauto; try discriminate; intros; try discriminate;
        try (now left). }
  destruct (sendDirectMessage_cases send log number text)
    as [[E Hwhy]|(Ht & Hrun & Hf & [[E1 E2]|(E1 & E2 & E3)])].
  - exists []. rewrite E. simpl. rewrite app_nil_r.
    split; [reflexivity|]. split; [now left|]. split; [split; tauto|].
    split; [intro H; now elim H|]. split; [reflexivity|].
    intros send' _. split; discriminate.
  - eexists. split; [exact E1|]. split; [right; now left|].
    split.
    { split; [discriminate|]. intros [H|[H|[H|H]]]; exfalso.
      - discriminate.
      - subst number. destruct Hrun as [Hne _]. now apply Hne.
      - contradiction.
      - contradiction. }
    split; [intros _; exact Hrun|]. split; [discriminate|].
    intros send' Hs. injection Hs as <-. split; [intros _; exact E2|discriminate].
  - eexists. split; [exact E1|]. split; [right; now right|].
    split.
    { split; [discriminate|]. intros [H|[H|[H|H]]]; exfalso.
      - discriminate.
      - subst number. destruct Hrun as [Hne _]. now apply Hne.
      - contradiction.
      - contradiction. }
    split; [intros _; exact Hrun|]. split; [discriminate|].
    intros send' Hs. injection Hs as <-.
    split; [discriminate | intros _; split; assumption].
Qed.

Lemma direct_message_attempts_witness :
  let send : Socket :=
    fun log _ => match log with [] => Thrown | _ :: _ => Returned None end in
  let attempt := mkSent (Some (js "8801@s.whatsapp.net")) (js "hi") in
  sendDirectMessage (Some send) [] (js "+8801") (js "hi")
  = ([attempt; attempt], None)
  /\ digit_run (filter is_digit (js "+8801")).
Proof.
  intros send attempt.
  destruct (direct_message_attempts (Some send) [] (js "+8801") (js "hi"))
    as (attempts & E & _ & _ & Hrun & _).
  split; [vm_compute; reflexivity|].
  apply Hrun. intro H. rewrite H in E. vm_compute in E. discriminate.
Defined.

Lemma array_includes_spec (l : list jsstring) (x : jsstring) :
  array_includes l x = true <-> In x l.
Proof.
  unfold array_includes. rewrite existsb_exists. split.
  - intros (y & Hin & E). apply str_eqb_spec in E. now subst.
  - intro H. exists x. split; [assumption | apply str_eqb_refl].
Qed.

Lemma array_includes_false (l : list jsstring) (x : jsstring) :
  array_includes l x = false <-> ~ In x l.
Proof.
  rewrite <- array_includes_spec. destruct (array_includes l x); split;
    congruence.
Qed.

Lemma reportedNumbers_app (a b : list MentionResult) :
  reportedNumbers (a ++ b) = reportedNumbers a ++ reportedNumbers b.
Proof. apply flat_map_app. Qed.

Lemma reportedRecipients_app (a b : list MentionResult) :
  reportedRecipients (a ++ b) = reportedRecipients a ++ reportedRecipients b.
Proof. apply flat_map_app. Qed.

Section RelayFacts.
Variable toLowerCase : jsstring -> jsstring.
Variable toUpperCase : jsstring -> jsstring.
Variable enhanceMessageWithAI :
  jsstring -> jsstring -> option jsstring -> jsstring -> bool -> jsstring.
Variable send : Socket.
Variable fs : FileSystem.
Variable k : MessageKey.
Variable md : Metadata.
Variable senderName : jsstring.

Local Abbreviation relayedTo recipientName :=
  (relayedMessage toLowerCase toUpperCase enhanceMessageWithAI
     (md_messageText md) (md_mentionedNames md) (md_mentionedNumbers md)
     recipientName (md_groupName md) senderName).

Local Abbreviation numberStep :=
  (relayToNumber toLowerCase toUpperCase enhanceMessageWithAI send k md senderName).

Local Abbreviation nameStep :=
  (relayToName toLowerCase toUpperCase enhanceMessageWithAI send fs k md senderName).

(** What the steps after [sendDirectMessage] add to the state. *)
Lemma afterDirectMessage_spec (st : MentionState) (recipient text : jsstring)
    (confirmationText : jsstring) (report : bool -> bool -> MentionResult)
    (failure : MentionResult) :
  let st' :=
    afterDirectMessage send k st
      (sendDirectMessage (Some send) (sent st) recipient text)
      recipient confirmationText report failure in
  let attempt :=
    mkSent (Some (filter is_digit recipient ++ js "@s.whatsapp.net")) text in
  exists attempts confirmations newResults,
    sent st' = sent st ++ attempts ++ confirmations
    /\ (attempts = [] \/ attempts = [attempt] \/ attempts = [attempt; attempt])
    /\ (confirmations = []
        \/ (confirmations = [mkSent (remoteJid k) confirmationText]
            /\ attempts <> []))
    /\ (attempts <> [] -> digit_run (filter is_digit recipient))
    /\ processedNumbers st' = processedNumbers st ++ [recipient]
    /\ results st' = results st ++ newResults
    /\ (newResults = [report false false] \/ newResults = [failure]
        \/ exists result, newResults = [SentMessage result; report true false]).
Proof.
  cbv zeta. unfold afterDirectMessage.
  destruct (sendDirectMessage_cases send (sent st) recipient text)
    as [[E _]|(Ht & Hrun & _ & Hsent)].
  - rewrite E. simpl. exists [], [], [report false false].
    rewrite !app_nil_r.
    split; [reflexivity|]. split; [now left|]. split; [now left|].
    split; [intro H; now elim H|].
    split; [reflexivity|]. split; [reflexivity|]. now left.
  - set (r := sendDirectMessage (Some send) (sent st) recipient text) in *.
    assert (Hatt : exists attempts,
               fst r = sent st ++ attempts /\ attempts <> []
               /\ (attempts = []
                   \/ attempts = [mkSent (Some (filter is_digit recipient
                                                  ++ js "@s.whatsapp.net")) text]
                   \/ attempts = [mkSent (Some (filter is_digit recipient
                                                  ++ js "@s.whatsapp.net")) text;
                                  mkSent (Some (filter is_digit recipient
                                                  ++ js "@s.whatsapp.net")) text])).
    { destruct Hsent as [[E1 _]|(E1 & _)]; eexists; (split; [exact E1|]);
        (split; [discriminate|]); [right; now left | right; now right]. }
    destruct Hatt as (attempts & Ea & Hne & Hshape).
    destruct (snd r) as [result|].
    + destruct (send (fst r) _) eqn:Ec; simpl; rewrite Ea.
      * exists attempts, [mkSent (remoteJid k) confirmationText],
          [SentMessage result; report true false].
        rewrite <- app_assoc.
        split; [reflexivity|]. split; [exact Hshape|].
        split; [right; split; [reflexivity | exact Hne]|].
        split; [intros _; exact Hrun|].
        split; [reflexivity|]. split; [reflexivity|].
        right. right. now exists result.
      * exists attempts, [mkSent (remoteJid k) confirmationText], [failure].
        rewrite <- app_assoc.
        split; [reflexivity|]. split; [exact Hshape|].
        split; [right; split; [reflexivity | exact Hne]|].
        split; [intros _; exact Hrun|].
        split; [reflexivity|]. split; [reflexivity|].
        right. now left.
    + simpl. rewrite Ea. exists attempts, [], [report false false].
      rewrite app_nil_r.
      split; [reflexivity|]. split; [exact Hshape|].
      split; [now left|].
      split; [intros _; exact Hrun|].
      split; [reflexivity|]. split; [reflexivity|].
      now left.
Qed.

Lemma firstOccurrences_skip (seen l : list jsstring) (x : jsstring) :
  array_includes seen x = true ->
  firstOccurrences seen (x :: l) = firstOccurrences seen l.
Proof. intro H. simpl. now rewrite H. Qed.

(** The loop over the mentioned numbers. *)
Lemma number_loop_spec (numbers : list jsstring) :
  forall st : MentionState,
    let st' := fold_left numberStep numbers st in
    let firsts := firstOccurrences (processedNumbers st) numbers in
    exists handed newResults,
      sent st' = sent st ++ concat handed
      /\ Forall2 (numberPass (remoteJid k) (relayedTo [])) firsts handed
      /\ processedNumbers st' = processedNumbers st ++ firsts
      /\ results st' = results st ++ newResults
      /\ reportedNumbers newResults = firsts
      /\ reportedRecipients newResults = firsts
      /\ forall name phoneNumber success withError,
           ~ In (NameReport name phoneNumber success withError) newResults.
Proof.
  induction numbers as [|number numbers IH]; intro st; cbv zeta.
  - exists [], []. simpl. rewrite !app_nil_r.
    repeat split; try constructor. intros ? ? ? ? [].
  - cbn [fold_left firstOccurrences].
    destruct (array_includes (processedNumbers st) number) eqn:Einc.
    + replace (numberStep st number) with st
        by (unfold relayToNumber; now rewrite Einc).
      apply IH.
    + replace (numberStep st number)
        with (afterDirectMessage send k st
                (sendDirectMessage (Some send) (sent st) number (relayedTo []))
                number (numberConfirmation number)
                (NumberReport number) (NumberReport number false true))
        by (unfold relayToNumber; now rewrite Einc).
      destruct (afterDirectMessage_spec st number (relayedTo [])
                  (numberConfirmation number) (NumberReport number)
                  (NumberReport number false true))
        as (attempts & confirmations & new1 & Es & Hatt & Hconf & Hrun & Ep & Er & Hnew).
      match goal with
      | |- context [fold_left _ numbers ?s] => set (st1 := s) in *
      end.
      destruct (IH st1) as (handed & new2 & Es2 & Hpass & Ep2 & Er2 & Hn2 & Hr2 & Hno).
      rewrite Ep in *.
      exists ((attempts ++ confirmations) :: handed), (new1 ++ new2).
      split; [rewrite Es2, Es; simpl; now rewrite <- !app_assoc|].
      split.
      { constructor; [|exact Hpass].
        exists attempts, confirmations. split; [reflexivity|].
        split; [exact Hatt|]. split; [exact Hrun | exact Hconf]. }
      split; [rewrite Ep2; now rewrite <- app_assoc|].
      split; [rewrite Er2, Er; now rewrite <- app_assoc|].
      rewrite reportedNumbers_app, reportedRecipients_app, Hn2, Hr2.
      split; [destruct Hnew as [->|[->|[result ->]]]; reflexivity|].
      split; [destruct Hnew as [->|[->|[result ->]]]; reflexivity|].
      intros name phoneNumber success withError Hin.
      apply in_app_or in Hin. destruct Hin as [Hin|Hin]; [|now apply Hno in Hin].
      destruct Hnew as [->|[->|[result ->]]]; simpl in Hin;
        intuition discriminate.
Qed.

Lemma pass_destinations (number : jsstring) (attempts confirmations : list Sent)
    (text confirmationText : jsstring) (recipientName : jsstring) :
  text = relayedTo recipientName ->
  chatNoticeText confirmationText ->
  (attempts = []
   \/ attempts = [mkSent (Some (filter is_digit number ++ js "@s.whatsapp.net")) text]
   \/ attempts = [mkSent (Some (filter is_digit number ++ js "@s.whatsapp.net")) text;
                  mkSent (Some (filter is_digit number ++ js "@s.whatsapp.net")) text]) ->
  (attempts <> [] -> digit_run (filter is_digit number)) ->
  (confirmations = []
   \/ (confirmations = [mkSent (remoteJid k) confirmationText] /\ attempts <> [])) ->
  Forall (relayDestination (remoteJid k) (fun recipientName => relayedTo recipientName))
         (attempts ++ confirmations).
Proof.
  intros Ht Hc Hatt Hrun Hconf.
  assert (Hdirect : attempts <> [] ->
            relayDestination (remoteJid k) (fun recipientName => relayedTo recipientName)
              (mkSent (Some (filter is_digit number ++ js "@s.whatsapp.net")) text)).
  { intro Hne. right. split.
    - eexists. split; [reflexivity|]. eexists. split; [apply Hrun, Hne | reflexivity].
    - exists recipientName. exact Ht. }
  apply Forall_app. split.
  - destruct Hatt as [->|[E|E]]; [constructor| |].
    + rewrite E in *.
      constructor; [apply Hdirect; discriminate | constructor].
    + rewrite E in *.
      constructor; [apply Hdirect; discriminate|].
      constructor; [apply Hdirect; discriminate | constructor].
  - destruct Hconf as [->|[-> _]]; [constructor|].
    constructor; [left; split; [reflexivity | exact Hc] | constructor].
Qed.

Lemma numberPass_destinations (number : jsstring) (handed : list Sent) :
  numberPass (remoteJid k) (relayedTo []) number handed ->
  Forall (relayDestination (remoteJid k) (fun recipientName => relayedTo recipientName))
         handed.
Proof.
  intros (attempts & confirmations & -> & Hatt & Hrun & Hconf).
  apply (@pass_destinations number attempts confirmations (relayedTo [])
           (numberConfirmation number) []); try assumption.
  - reflexivity.
  - exists number. now left.
Qed.

(** The loop over the mentioned names. *)
Lemma name_loop_spec (names : list jsstring) :
  forall st : MentionState,
    let st' := fold_left nameStep names st in
    exists handed added newResults,
      sent st' = sent st ++ handed
      /\ Forall (relayDestination (remoteJid k)
                   (fun recipientName => relayedTo recipientName)) handed
      /\ processedNumbers st' = processedNumbers st ++ added
      /\ results st' = results st ++ newResults
      /\ reportedNumbers newResults = []
      /\ (NoDup (processedNumbers st) ->
          NoDup (processedNumbers st ++ added)
          /\ incl (reportedRecipients newResults) added
          /\ NoDup (reportedRecipients newResults)).
Proof.
  induction names as [|name names IH]; intro st; cbv zeta.
  - exists [], [], []. simpl. rewrite !app_nil_r.
    split; [reflexivity|]. split; [constructor|].
    split; [reflexivity|]. split; [reflexivity|]. split; [reflexivity|].
    intro H. split; [exact H|]. split; [intros x []|constructor].
  - cbn [fold_left].
    match goal with
    | |- context [fold_left _ names ?s] => set (st1 := s) in *
    end.
    destruct (IH st1) as (handed2 & added2 & new2 & Es2 & Hd2 & Ep2 & Er2 & Hn2 & Hnd2).
    assert (Hstep : exists handed1 added1 new1,
               sent st1 = sent st ++ handed1
               /\ Forall (relayDestination (remoteJid k)
                            (fun recipientName => relayedTo recipientName)) handed1
               /\ processedNumbers st1 = processedNumbers st ++ added1
               /\ results st1 = results st ++ new1
               /\ reportedNumbers new1 = []
               /\ ((added1 = [] /\ reportedRecipients new1 = [])
                   \/ exists phoneNumber,
                        added1 = [phoneNumber]
                        /\ ~ In phoneNumber (processedNumbers st)
                        /\ (reportedRecipients new1 = [phoneNumber]
                            \/ reportedRecipients new1 = []))).
    { subst st1. unfold relayToName.
      destruct (findPhoneNumberByName toLowerCase fs name) as [[|p0 phone]|] eqn:Ef.
      - destruct (send (sent st) _); simpl;
          [exists [mkSent (remoteJid k) (notFoundNotice name)], [], []
          |exists [mkSent (remoteJid k) (notFoundNotice name)], [],
             [NameReport name None false true]];
          rewrite ?app_nil_r;
          (split; [reflexivity|]);
          (split; [constructor;
                   [left; split; [reflexivity | exists name; right; now right]
                   | constructor]|]);
          (split; [reflexivity|]); (split; [reflexivity|]);
          (split; [reflexivity|]); left; split; reflexivity.
      - destruct (array_includes (processedNumbers st) (p0 :: phone)) eqn:Einc.
        + exists [], [], []. rewrite !app_nil_r.
          split; [reflexivity|]. split; [constructor|].
          split; [reflexivity|]. split; [reflexivity|]. split; [reflexivity|].
          left. split; reflexivity.
        + destruct (afterDirectMessage_spec st (p0 :: phone) (relayedTo name)
                      (nameConfirmation name) (NameReport name (Some (p0 :: phone)))
                      (NameReport name None false true))
            as (attempts & confirmations & new1 & Es & Hatt & Hconf & Hrun & Ep
                & Er & Hnew).
          exists (attempts ++ confirmations), [p0 :: phone], new1.
          split; [exact Es|].
          split.
          { apply (@pass_destinations (p0 :: phone) attempts confirmations
                     (relayedTo name) (nameConfirmation name) name);
              try assumption; [reflexivity|].
            exists name. right. now left. }
          split; [exact Ep|]. split; [exact Er|].
          split; [destruct Hnew as [->|[->|[result ->]]]; reflexivity|].
          right. exists (p0 :: phone). split; [reflexivity|].
          split; [now apply array_includes_false|].
          destruct Hnew as [->|[->|[result ->]]]; [now left | now right | now left].
      - destruct (send (sent st) _); simpl;
          [exists [mkSent (remoteJid k) (notFoundNotice name)], [], []
          |exists [mkSent (remoteJid k) (notFoundNotice name)], [],
             [NameReport name None false true]];
          rewrite ?app_nil_r;
          (split; [reflexivity|]);
          (split; [constructor;
                   [left; split; [reflexivity | exists name; right; now right]
                   | constructor]|]);
          (split; [reflexivity|]); (split; [reflexivity|]);
          (split; [reflexivity|]); left; split; reflexivity. }
    destruct Hstep as (handed1 & added1 & new1 & Es1 & Hd1 & Ep1 & Er1 & Hn1 & Hcase).
    exists (handed1 ++ handed2), (added1 ++ added2), (new1 ++ new2).
    split; [rewrite Es2, Es1; now rewrite app_assoc|].
    split; [apply Forall_app; split; assumption|].
    split; [rewrite Ep2, Ep1; now rewrite app_assoc|].
    split; [rewrite Er2, Er1; now rewrite app_assoc|].
    split; [rewrite reportedNumbers_app, Hn1, Hn2; reflexivity|].
    intro Hnd. rewrite reportedRecipients_app. rewrite Ep1 in Hnd2.
    destruct Hcase as [[-> Hr1]|(phoneNumber & -> & Hfresh & Hr1)].
    + rewrite app_nil_r in Hnd2. destruct (Hnd2 Hnd) as (H1 & H2 & H3).
      rewrite Hr1. simpl. split; [exact H1|]. split; assumption.
    + assert (Hnd1 : NoDup (processedNumbers st ++ [phoneNumber])).
      { apply NoDup_app; [exact Hnd | constructor; [intros [] | constructor] |].
        intros x Hx [<-|[]]. contradiction. }
      destruct (Hnd2 Hnd1) as (H1 & H2 & H3).
      rewrite <- app_assoc in H1. split; [exact H1|].
      assert (Hnot : ~ In phoneNumber added2).
      { apply NoDup_remove_2 in H1. intro Hin. apply H1.
        apply in_or_app. now right. }
      destruct Hr1 as [->| ->]; simpl.
      * split; [intros x [<-|Hx]; [now left | right; now apply H2]|].
        constructor; [intro Hin; apply Hnot; now apply H2 | exact H3].
      * split; [intros x Hx; right; now apply H2 | exact H3].
Qed.

(** The loop over the mentioned names when none of them resolves. *)
Lemma unresolved_names_loop (names : list jsstring) :
  (forall name, In name names ->
     findPhoneNumberByName toLowerCase fs name = None
     \/ findPhoneNumberByName toLowerCase fs name = Some []) ->
  forall st : MentionState,
    let st' := fold_left nameStep names st in
    sent st' = sent st ++ map (fun name => mkSent (remoteJid k) (notFoundNotice name)) names
    /\ processedNumbers st' = processedNumbers st
    /\ exists newResults,
         results st' = results st ++ newResults
         /\ Forall (fun r => exists name, In name names
                                         /\ r = NameReport name None false true)
                   newResults
         /\ ((forall l m, send l m <> Thrown) -> newResults = []).
Proof.
  induction names as [|name names IH]; intros Hun st; cbv zeta.
  - simpl. rewrite app_nil_r. split; [reflexivity|]. split; [reflexivity|].
    exists []. rewrite app_nil_r.
    split; [reflexivity|]. split; [constructor | reflexivity].
  - cbn [fold_left map].
    match goal with
    | |- context [fold_left _ names ?s] => set (st1 := s) in *
    end.
    assert (Hun' : forall name0, In name0 names ->
              findPhoneNumberByName toLowerCase fs name0 = None
              \/ findPhoneNumberByName toLowerCase fs name0 = Some [])
      by (intros n Hn; apply Hun; now right).
    destruct (IH Hun' st1) as (Es2 & Ep2 & new2 & Er2 & Hf2 & Hok2).
    assert (Hstep : sent st1 = sent st ++ [mkSent (remoteJid k) (notFoundNotice name)]
                    /\ processedNumbers st1 = processedNumbers st
                    /\ (results st1 = results st
                        \/ (results st1
                            = results st ++ [NameReport name None false true]
                            /\ exists l m, send l m = Thrown))).
    { subst st1. unfold relayToName.
      destruct (Hun name (or_introl eq_refl)) as [-> | ->];
        destruct (send (sent st) _) eqn:Esend; simpl;
        (split; [reflexivity|]); (split; [reflexivity|]);
        try (now left); right; (split; [reflexivity|]); eauto. }
    destruct Hstep as (Es1 & Ep1 & Er1).
    split; [rewrite Es2, Es1; now rewrite <- app_assoc|].
    split; [congruence|].
    assert (Hf2' : Forall (fun r => exists name0, In name0 (name :: names)
                                     /\ r = NameReport name0 None false true) new2).
    { eapply Forall_impl; [|exact Hf2].
      intros r (n & Hn & ->). exists n. split; [now right | reflexivity]. }
    destruct Er1 as [Er1|[Er1 (l & m & Hrej)]]; rewrite Er2, Er1.
    + exists new2. split; [reflexivity|]. split; [exact Hf2' | exact Hok2].
    + exists (NameReport name None false true :: new2).
      split; [now rewrite <- app_assoc|].
      split; [constructor;
              [exists name; split; [now left | reflexivity] | exact Hf2']|].
      intro Hok. exfalso. now apply (Hok l m).
Qed.

End RelayFacts.

Lemma firstOccurrences_nodup (l : list jsstring) :
  forall seen, NoDup seen -> NoDup (seen ++ firstOccurrences seen l).
Proof.
  induction l as [|x l IH]; intros seen Hnd; simpl.
  - now rewrite app_nil_r.
  - destruct (array_includes seen x) eqn:E; [now apply IH|].
    apply array_includes_false in E.
    assert (Hnd' : NoDup (seen ++ [x])).
    { apply NoDup_app; [exact Hnd | constructor; [intros [] | constructor] |].
      intros y Hy [<-|[]]. contradiction. }
    specialize (IH _ Hnd'). now rewrite <- app_assoc in IH.
Qed.

Section MentionFacts.
Variable toLowerCase : jsstring -> jsstring.
Variable toUpperCase : jsstring -> jsstring.
Variable enhanceMessageWithAI :
  jsstring -> jsstring -> option jsstring -> jsstring -> bool -> jsstring.

Local Abbreviation handle :=
  (handleMentions toLowerCase toUpperCase enhanceMessageWithAI).

Local Abbreviation relayedFor md senderName :=
  (fun recipientName =>
     relayedMessage toLowerCase toUpperCase enhanceMessageWithAI
       (md_messageText md) (md_mentionedNames md) (md_mentionedNumbers md)
       recipientName (md_groupName md) senderName).

(** What [handleMentions] resolves to. *)
Lemma handleMentions_returned (send : Socket) (fs : FileSystem)
    (log : list Sent) (message : Message) (md : Metadata)
    (log' : list Sent) (results' : list MentionResult) :
  handle (Some send) fs log (Some message) (Some md) = Returned (log', results') ->
  (md_mentionedNumbers md = [] /\ md_mentionedNames md = []
   /\ log' = log /\ results' = [])
  \/ exists k senderName,
       key message = Some k
       /\ mentionSenderName message md k = Some senderName
       /\ let st :=
            fold_left (relayToName toLowerCase toUpperCase enhanceMessageWithAI
                         send fs k md senderName)
              (md_mentionedNames md)
              (fold_left (relayToNumber toLowerCase toUpperCase
                            enhanceMessageWithAI send k md senderName)
                 (md_mentionedNumbers md) (mkMentionState log [] [])) in
          log' = sent st /\ results' = results st.
Proof.
  unfold handleMentions.
  destruct (md_mentionedNumbers md) as [|n0 numbers] eqn:En;
    destruct (md_mentionedNames md) as [|m0 names] eqn:Em; cbn [nonempty negb andb].
  - intro H. injection H as <- <-. left. repeat split.
  - destruct (key message) as [k|] eqn:Ek; [|discriminate].
    destruct (mentionSenderName message md k) as [senderName|] eqn:Es;
      [|discriminate].
    intro H. injection H as <- <-. right. exists k, senderName. repeat split.
    exact Es.
  - destruct (key message) as [k|] eqn:Ek; [|discriminate].
    destruct (mentionSenderName message md k) as [senderName|] eqn:Es;
      [|discriminate].
    intro H. injection H as <- <-. right. exists k, senderName. repeat split.
    exact Es.
  - destruct (key message) as [k|] eqn:Ek; [|discriminate].
    destruct (mentionSenderName message md k) as [senderName|] eqn:Es;
      [|discriminate].
    intro H. injection H as <- <-. right. exists k, senderName. repeat split.
    exact Es.
Qed.

(** X10.  Whatever the transport answers, every message that
    [handleMentions] hands to it goes to one of two places: back to the
    chat the mention came from, and then it is a confirmation or the
    notice that no number was found, or to the address of a direct chat,
    digits followed by [@s.whatsapp.net], and then it is the relayed text
    in its frame.  Nothing is sent when the socket, the message or its
    metadata is missing. *)
Theorem mention_messages_destinations (sock : option Socket) (fs : FileSystem)
    (log : list Sent) (message : option Message) (metadata : option Metadata)
    (log' : list Sent) (results' : list MentionResult) :
  handle sock fs log message metadata = Returned (log', results') ->
  exists handed,
    log' = log ++ handed
    /\ (sock = None \/ message = None \/ metadata = None -> handed = [])
    /\ forall a, In a handed ->
         exists md senderName,
           metadata = Some md
           /\ relayDestination
                (bind_opt (bind_opt message key) remoteJid)
                (relayedFor md senderName) a.
Proof.
  intro H.
  destruct sock as [send|];
    [|injection H as <- <-; exists []; rewrite app_nil_r;
      split; [reflexivity|]; split; [reflexivity | intros a []]].
  destruct message as [message|];
    [|injection H as <- <-; exists []; rewrite app_nil_r;
      split; [reflexivity|]; split; [reflexivity | intros a []]].
  destruct metadata as [md|];
    [|injection H as <- <-; exists []; rewrite app_nil_r;
      split; [reflexivity|]; split; [reflexivity | intros a []]].
  apply handleMentions_returned in H.
  destruct H as [(_ & _ & -> & ->)|(k & senderName & Ek & Es & H)].
  - exists []. rewrite app_nil_r.
    split; [reflexivity|]. split; [reflexivity | intros a []].
  - cbv zeta in H. destruct H as [-> _].
    destruct (number_loop_spec toLowerCase toUpperCase enhanceMessageWithAI
                send k md senderName (md_mentionedNumbers md)
                (mkMentionState log [] []))
      as (handed1 & _ & Es1 & Hpass & _ & _ & _ & _ & _).
    match type of Es1 with sent ?s = _ => set (st1 := s) in * end.
    destruct (name_loop_spec toLowerCase toUpperCase enhanceMessageWithAI
                send fs k md senderName (md_mentionedNames md) st1)
      as (handed2 & _ & _ & Es2 & Hd2 & _).
    exists (concat handed1 ++ handed2).
    split; [rewrite Es2, Es1; simpl; now rewrite app_assoc|].
    split; [intros [E|[E|E]]; discriminate|].
    intros a Hin. exists md, senderName. split; [reflexivity|].
    simpl. rewrite Ek. simpl.
    apply in_app_or in Hin. destruct Hin as [Hin|Hin].
    + apply in_concat in Hin. destruct Hin as (chunk & Hchunk & Ha).
      clear Es1.
      induction Hpass as [|number chunk0 firsts handed0 Hp Hrest IH];
        [contradiction|].
      destruct Hchunk as [->|Hchunk]; [|now apply IH].
      apply (numberPass_destinations toLowerCase toUpperCase
               enhanceMessageWithAI k md senderName) in Hp.
      rewrite Forall_forall in Hp. now apply Hp.
    + rewrite Forall_forall in Hd2. now apply Hd2.
Qed.

Lemma str_eqb_longer (c : code_unit) (s : jsstring) : str_eqb s (c :: s) = false.
Proof.
  apply str_eqb_neq. intro E.
  apply (f_equal (@length code_unit)) in E. simpl in E. lia.
Qed.

(** X11.  However often the same string is mentioned as a number,
    [handleMentions] makes one pass for it: the reports on numbers name
    the distinct mentioned strings once each, in the order of their first
    mention, and the messages handed to the transport begin with one
    group per such string, the relayed text for the address made of its
    digits, at most twice, followed by at most one confirmation for the
    chat.  Mentions are compared as they are written: a number mentioned
    once with a plus sign and once without is two strings, and both are
    reported. *)
Theorem repeated_mention_gets_one_pass (send : Socket) (fs : FileSystem)
    (log : list Sent) (message : Message) (md : Metadata)
    (log' : list Sent) (results' : list MentionResult) :
  handle (Some send) fs log (Some message) (Some md) = Returned (log', results') ->
  let firsts := firstOccurrences [] (md_mentionedNumbers md) in
  reportedNumbers results' = firsts
  /\ NoDup firsts
  /\ (exists senderName handed afterwards,
        log' = log ++ concat handed ++ afterwards
        /\ Forall2 (numberPass (bind_opt (key message) remoteJid)
                      (relayedFor md senderName []))
                   firsts handed
        /\ (md_mentionedNames md = [] -> afterwards = []))
  /\ (forall digits,
        md_mentionedNumbers md = [ch "+" :: digits; digits] ->
        reportedNumbers results' = [ch "+" :: digits; digits]).
Proof.
  intros H firsts.
  assert (Hmain :
            reportedNumbers results' = firsts
            /\ NoDup firsts
            /\ exists senderName handed afterwards,
                 log' = log ++ concat handed ++ afterwards
                 /\ Forall2 (numberPass (bind_opt (key message) remoteJid)
                               (relayedFor md senderName []))
                            firsts handed
                 /\ (md_mentionedNames md = [] -> afterwards = [])).
  {
    assert (Hnd : NoDup firsts)
      by (apply (firstOccurrences_nodup (md_mentionedNumbers md) (@NoDup_nil _))).
    apply handleMentions_returned in H.
    destruct H as [(En & Em & -> & ->)|(k & senderName & Ek & Es & H)].
    - subst firsts. rewrite En. split; [reflexivity|]. split; [constructor|].
      exists [], [], []. split; [now rewrite app_nil_r|].
      split; [constructor | reflexivity].
    - cbv zeta in H. destruct H as [-> ->].
      destruct (number_loop_spec toLowerCase toUpperCase enhanceMessageWithAI
                  send k md senderName (md_mentionedNumbers md)
                  (mkMentionState log [] []))
        as (handed1 & new1 & Es1 & Hpass & _ & Er1 & Hn1 & _ & _).
      match type of Es1 with sent ?s = _ => set (st1 := s) in * end.
      destruct (name_loop_spec toLowerCase toUpperCase enhanceMessageWithAI
                  send fs k md senderName (md_mentionedNames md) st1)
        as (handed2 & _ & new2 & Es2 & _ & _ & Er2 & Hn2 & _).
      simpl in Es1, Er1, Hpass, Hn1.
      split; [rewrite Er2, Er1; simpl;
              rewrite reportedNumbers_app, Hn1, Hn2; apply app_nil_r|].
      split; [exact Hnd|].
      exists senderName, handed1, handed2.
      split; [rewrite Es2, Es1; now rewrite app_assoc|].
      split; [rewrite Ek; exact Hpass|].
      intro Em. rewrite Em in Es2. simpl in Es2.
      rewrite <- (app_nil_r (sent st1)) in Es2 at 1.
      apply app_inv_head in Es2. now symmetry.
  }
  destruct Hmain as (Hreported & Hdistinct & Hhanded).
  split; [exact Hreported|]. split; [exact Hdistinct|]. split; [exact Hhanded|].
  intros digits Hmd. rewrite Hreported. subst firsts. rewrite Hmd.
  cbn [firstOccurrences array_includes existsb app orb].
  now rewrite str_eqb_longer.
Qed.

Lemma firstOccurrences_in (l : list jsstring) (x : jsstring) :
  forall seen, In x l -> In x seen \/ In x (firstOccurrences seen l).
Proof.
  induction l as [|y l IH]; intros seen Hin; [contradiction|]. simpl.
  destruct (array_includes seen y) eqn:E.
  - destruct Hin as [->|Hin]; [left; now apply array_includes_spec | now apply IH].
  - destruct Hin as [->|Hin]; [right; now left|].
    destruct (IH (seen ++ [y]) Hin) as [H|H]; [|right; now right].
    apply in_app_or in H. destruct H as [H|[->|[]]]; [now left | right; now left].
Qed.

(** X12.  When no number is mentioned and none of the mentioned names
    resolves to a number, [handleMentions] sends one notice per name back
    to the chat the mention came from, in the order of the names, and
    nothing else; no number counts as processed, and the array it resolves
    to holds a failure report for each notice that the transport rejected,
    so it is empty when the transport rejects nothing. *)
Theorem unresolved_names_get_a_notice (send : Socket) (fs : FileSystem)
    (log : list Sent) (message : Message) (md : Metadata)
    (log' : list Sent) (results' : list MentionResult) :
  md_mentionedNumbers md = [] ->
  (forall name, In name (md_mentionedNames md) ->
     findPhoneNumberByName toLowerCase fs name = None
     \/ findPhoneNumberByName toLowerCase fs name = Some []) ->
  handle (Some send) fs log (Some message) (Some md) = Returned (log', results') ->
  log' = log ++ map (fun name =>
                       mkSent (bind_opt (key message) remoteJid)
                              (notFoundNotice name))
                    (md_mentionedNames md)
  /\ Forall (fun r => exists name, In name (md_mentionedNames md)
                                   /\ r = NameReport name None false true)
            results'
  /\ ((forall l m, send l m <> Thrown) -> results' = []).
Proof.
  intros En Hun H. apply handleMentions_returned in H.
  destruct H as [(_ & Em & -> & ->)|(k & senderName & Ek & Es & H)].
  - rewrite Em. simpl. rewrite app_nil_r. repeat split; constructor.
  - cbv zeta in H. destruct H as [-> ->]. rewrite En. cbn [fold_left].
    destruct (unresolved_names_loop toLowerCase toUpperCase enhanceMessageWithAI
                send fs k md senderName (md_mentionedNames md) Hun
                (mkMentionState log [] []))
      as (Es1 & _ & new & Er & Hf & Hok).
    rewrite Ek. simpl in *. rewrite Es1, Er. repeat split; assumption.
Qed.

(** X13.  No string is reported twice as a recipient by
    [handleMentions]: the strings that its reports carry as numbers, the
    mentioned numbers as they are written and the numbers that mentioned
    names resolved to, are pairwise different, since a pass for a string
    that was processed before is skipped.  So a report on a name never
    carries a string that is also among the mentioned numbers.  The
    comparison is between strings: a number with a plus sign and the same
    number without are different recipients to it. *)
Theorem no_string_is_reported_twice (send : Socket) (fs : FileSystem)
    (log : list Sent) (message : Message) (md : Metadata)
    (log' : list Sent) (results' : list MentionResult) :
  handle (Some send) fs log (Some message) (Some md) = Returned (log', results') ->
  NoDup (reportedRecipients results')
  /\ forall name phoneNumber success withError,
       In (NameReport name (Some phoneNumber) success withError) results' ->
       ~ In phoneNumber (md_mentionedNumbers md).
Proof.
  intro H. apply handleMentions_returned in H.
  destruct H as [(_ & _ & -> & ->)|(k & senderName & Ek & Es & H)].
  - split; [constructor | intros ? ? ? ? []].
  - cbv zeta in H. destruct H as [_ ->].
    destruct (number_loop_spec toLowerCase toUpperCase enhanceMessageWithAI
                send k md senderName (md_mentionedNumbers md)
                (mkMentionState log [] []))
      as (_ & new1 & _ & _ & Ep1 & Er1 & _ & Hr1 & Hno).
    match type of Er1 with results ?s = _ => set (st1 := s) in * end.
    destruct (name_loop_spec toLowerCase toUpperCase enhanceMessageWithAI
                send fs k md senderName (md_mentionedNames md) st1)
      as (_ & added & new2 & _ & _ & _ & Er2 & _ & Hnd2).
    simpl in Ep1, Er1, Hr1.
    assert (Hnd1 : NoDup (processedNumbers st1)).
    { rewrite Ep1.
      apply (firstOccurrences_nodup (md_mentionedNumbers md) (@NoDup_nil _)). }
    destruct (Hnd2 Hnd1) as (Hall & Hincl & Hnd).
    rewrite Ep1 in Hall. rewrite Er2, Er1.
    split.
    + rewrite reportedRecipients_app, Hr1.
      apply NoDup_app; [rewrite <- Ep1; exact Hnd1 | exact Hnd |].
      intros x Hx Hx'. apply Hincl in Hx'.
      clear - Hall Hx Hx'.
      induction (firstOccurrences [] (md_mentionedNumbers md)) as [|y l IH];
        [contradiction|].
      simpl in Hall. inversion Hall as [|? ? Hny Hl]; subst.
      destruct Hx as [->|Hx]; [apply Hny; apply in_or_app; now right|].
      now apply IH.
    + intros name phoneNumber success withError Hin Hmentioned.
      apply in_app_or in Hin. destruct Hin as [Hin|Hin]; [now apply Hno in Hin|].
      assert (Hrr : In phoneNumber (reportedRecipients new2)).
      { unfold reportedRecipients. apply in_flat_map.
        eexists. split; [exact Hin|]. now left. }
      apply Hincl in Hrr.
      destruct (firstOccurrences_in _ _ [] Hmentioned) as [[]|Hf].
      clear - Hall Hf Hrr.
      induction (firstOccurrences [] (md_mentionedNumbers md)) as [|y l IH];
        [contradiction|].
      simpl in Hall. inversion Hall as [|? ? Hny Hl]; subst.
      destruct Hf as [->|Hf]; [apply Hny; apply in_or_app; now right|].
      now apply IH.
Qed.

End MentionFacts.

Lemma mention_messages_destinations_witness :
  let text := js "@8801711111111 @Nobody are you coming" in
  exists log' results' handed,
    handleMentions asciiLowerCase asciiUpperCase verbatim (Some acceptingSocket)
      [] [] (Some (mentionFromAlice text)) (Some (metadataOf text))
    = Returned (log', results')
    /\ log' = [] ++ handed
    /\ length handed = 3.
Proof.
  intro text.
  destruct (handleMentions asciiLowerCase asciiUpperCase verbatim
              (Some acceptingSocket) [] []
              (Some (mentionFromAlice text)) (Some (metadataOf text)))
    as [[log' results']|] eqn:E; [|vm_compute in E; discriminate].
  destruct (@mention_messages_destinations _ _ _ _ _ _ _ _ _ _ E)
    as (handed & El & _ & _).
  exists log', results', handed.
  split; [reflexivity|]. split; [exact El|].
  assert (Hlen : length log' = 3)
    by (vm_compute in E; injection E as <- _; reflexivity).
  rewrite El in Hlen. exact Hlen.
Defined.

Lemma repeated_mention_gets_one_pass_witness :
  let text := js "@8801711111111 and again @8801711111111 call me" in
  let spelled := js "@+8801711111111 @8801711111111" in
  md_mentionedNumbers (metadataOf text) = [js "8801711111111"; js "8801711111111"]
  /\ (exists log' results',
        handleMentions asciiLowerCase asciiUpperCase verbatim (Some acceptingSocket)
          [] [] (Some (mentionFromAlice text)) (Some (metadataOf text))
        = Returned (log', results')
        /\ reportedNumbers results' = [js "8801711111111"])
  /\ (exists log' results',
        handleMentions asciiLowerCase asciiUpperCase verbatim (Some acceptingSocket)
          [] [] (Some (mentionFromAlice spelled)) (Some (metadataOf spelled))
        = Returned (log', results')
        /\ reportedNumbers results' = [js "+8801711111111"; js "8801711111111"]).
Proof.
  intros text spelled. split; [vm_compute; reflexivity|]. split.
  - destruct (handleMentions asciiLowerCase asciiUpperCase verbatim
                (Some acceptingSocket) [] []
                (Some (mentionFromAlice text)) (Some (metadataOf text)))
      as [[log' results']|] eqn:E; [|vm_compute in E; discriminate].
    exists log', results'. split; [reflexivity|].
    destruct (@repeated_mention_gets_one_pass _ _ _ _ _ _ _ _ _ _ E) as (Hn & _).
    rewrite Hn. vm_compute. reflexivity.
  - destruct (handleMentions asciiLowerCase asciiUpperCase verbatim
                (Some acceptingSocket) [] []
                (Some (mentionFromAlice spelled)) (Some (metadataOf spelled)))
      as [[log' results']|] eqn:E; [|vm_compute in E; discriminate].
    exists log', results'. split; [reflexivity|].
    destruct (@repeated_mention_gets_one_pass _ _ _ _ _ _ _ _ _ _ E)
      as (_ & _ & _ & Hspelled).
    apply (Hspelled (js "8801711111111")). vm_compute. reflexivity.
Defined.

Lemma unresolved_names_get_a_notice_witness :
  let text := js "@Nobody are you coming" in
  handleMentions asciiLowerCase asciiUpperCase verbatim (Some acceptingSocket)
    [] [] (Some (mentionFromAlice text)) (Some (metadataOf text))
  = Returned ([mkSent (Some (js "120363001@g.us")) (notFoundNotice (js "Nobody"))],
              []).
Proof.
  intro text.
  destruct (handleMentions asciiLowerCase asciiUpperCase verbatim
              (Some acceptingSocket) [] []
              (Some (mentionFromAlice text)) (Some (metadataOf text)))
    as [[log' results']|] eqn:E; [|vm_compute in E; discriminate].
  assert (Hun : forall name, In name (md_mentionedNames (metadataOf text)) ->
            findPhoneNumberByName asciiLowerCase [] name = None
            \/ findPhoneNumberByName asciiLowerCase [] name = Some []).
  { intros name Hin. left. unfold findPhoneNumberByName.
    destruct (negb (nonempty name)); reflexivity. }
  destruct (@unresolved_names_get_a_notice asciiLowerCase asciiUpperCase verbatim
              acceptingSocket [] [] (mentionFromAlice text) (metadataOf text)
              log' results' eq_refl Hun E) as (El & _ & Hr).
  rewrite El, Hr; [reflexivity|]. intros l m. discriminate.
Defined.

Lemma no_string_is_reported_twice_witness :
  let text := js "@8801711111111 @Karim are you coming" in
  let spelled := js "@+8801711111111 @Karim are you coming" in
  let fs := karimFiles (js "8801711111111@s.whatsapp.net") (js "120363001@g.us")
                       (js "8801722222222@s.whatsapp.net") in
  findPhoneNumberByName asciiLowerCase fs (js "Karim") = Some (js "8801711111111")
  /\ md_mentionedNames (metadataOf text) = [js "Karim"]
  /\ (exists log' results',
        handleMentions asciiLowerCase asciiUpperCase verbatim (Some acceptingSocket)
          fs [] (Some (mentionFromAlice text)) (Some (metadataOf text))
        = Returned (log', results')
        /\ NoDup (reportedRecipients results')
        /\ reportedRecipients results' = [js "8801711111111"])
  /\ (exists log' results',
        handleMentions asciiLowerCase asciiUpperCase verbatim (Some acceptingSocket)
          fs [] (Some (mentionFromAlice spelled)) (Some (metadataOf spelled))
        = Returned (log', results')
        /\ NoDup (reportedRecipients results')
        /\ reportedRecipients results'
           = [js "+8801711111111"; js "8801711111111"]).
Proof.
  intros text spelled fs.
  split; [vm_compute; reflexivity|]. split; [vm_compute; reflexivity|]. split.
  - destruct (handleMentions asciiLowerCase asciiUpperCase verbatim
                (Some acceptingSocket) fs []
                (Some (mentionFromAlice text)) (Some (metadataOf text)))
      as [[log' results']|] eqn:E; [|vm_compute in E; discriminate].
    exists log', results'. split; [reflexivity|].
    split; [exact (proj1 (@no_string_is_reported_twice _ _ _ _ _ _ _ _ _ _ E))|].
    vm_compute in E. injection E as _ <-. reflexivity.
  - destruct (handleMentions asciiLowerCase asciiUpperCase verbatim
                (Some acceptingSocket) fs []
                (Some (mentionFromAlice spelled)) (Some (metadataOf spelled)))
      as [[log' results']|] eqn:E; [|vm_compute in E; discriminate].
    exists log', results'. split; [reflexivity|].
    split; [exact (proj1 (@no_string_is_reported_twice _ _ _ _ _ _ _ _ _ _ E))|].
    vm_compute in E. injection E as _ <-. reflexivity.
Defined.

(** ** The conversation history and the statistics *)

Lemma lastN_all {A : Type} (n : nat) (l : list A) :
  length l <= n -> lastN n l = l.
Proof.
  intro H. unfold lastN. replace (length l - n) with 0 by lia. reflexivity.
Qed.

Lemma lastN_length {A : Type} (n : nat) (l : list A) :
  length (lastN n l) = Nat.min n (length l).
Proof. unfold lastN. rewrite length_skipn. lia. Qed.

Lemma lastN_app {A : Type} (n : nat) (a b : list A) :
  lastN n (lastN n a ++ b) = lastN n (a ++ b).
Proof.
  unfold lastN. rewrite !length_app, length_skipn.
  destruct (Nat.le_gt_cases (length a) n) as [Hle|Hgt].
  - replace (length a - n) with 0 by lia. simpl.
    now replace (length a - 0 + length b - n) with (length a + length b - n) by lia.
  - replace (length a - (length a - n) + length b - n) with (length b) by lia.
    rewrite skipn_app, length_skipn.
    replace (length b - (length a - (length a - n))) with (length b - n) by lia.
    rewrite (skipn_app (length a + length b - n)).
    replace (length a + length b - n - length a) with (length b - n) by lia.
    f_equal. rewrite skipn_skipn. f_equal. lia.
Qed.

Lemma lastN_map {A B : Type} (f : A -> B) (n : nat) (l : list A) :
  map f (lastN n l) = lastN n (map f l).
Proof. unfold lastN. now rewrite skipn_map, length_map. Qed.

Lemma conversationLimit_positive (env : Env) : 1 <= conversationLimit env.
Proof.
  unfold conversationLimit. destruct (maxConversationLength env) as [[|n]|]; lia.
Qed.

(** What one call of [addMessageToConversation] does to the history and to
    the message count. *)
Lemma add_message_history (env : Env) (fs : FileSystem) (userId : jsstring)
    (isGroup : bool) (message : MessageArg) (fromMe : bool) :
  let before := loadUserData env fs userId isGroup in
  let after := snd (addMessageToConversation env fs userId isGroup message fromMe) in
  map mo_text (conversation_history after)
  = lastN (conversationLimit env)
          (map mo_text (conversation_history before) ++ [arg_text message])
  /\ messageCount (stats after) = messageCount (stats before) + 1.
Proof.
  cbv zeta. unfold addMessageToConversation.
  set (d := loadUserData env fs userId isGroup).
  set (obj := mkMessageObj _ _ _ _ _ _).
  assert (Hobj : mo_text obj = arg_text message) by reflexivity.
  clearbody obj.
  match goal with
  | |- context [let '(a, b) := ?c in _] => destruct c as [participants2 stats'] eqn:Ec
  end.
  cbn [snd set_profile conversation_history stats].
  split.
  - destruct (conversationLimit env <? length (conversation_history d ++ [obj])) eqn:E.
    + rewrite lastN_map, map_app. simpl. now rewrite Hobj.
    + apply Nat.ltb_ge in E. rewrite (@lastN_all _ (conversationLimit env)).
      * rewrite map_app. simpl. now rewrite Hobj.
      * rewrite length_app, length_map. rewrite length_app in E. exact E.
  - revert Ec.
    destruct (if negb fromMe then _ else None) as [s|];
      [destruct (negb fromMe && isGroup && nonempty (sender_id s))|];
      intro Ec; injection Ec as _ <-; reflexivity.
Qed.

Lemma addMessages_history (env env' : Env) (userId : jsstring) (isGroup : bool) :
  forall (rest' : list (MessageArg * bool)) (fs : FileSystem)
         (m : MessageArg * bool),
    let before := loadUserData env fs userId isGroup in
    let after :=
      loadUserData env' (addMessages env fs userId isGroup (m :: rest'))
                   userId isGroup in
    map mo_text (conversation_history after)
    = lastN (conversationLimit env)
            (map mo_text (conversation_history before)
             ++ map (fun m => arg_text (fst m)) (m :: rest'))
    /\ messageCount (stats after)
       = messageCount (stats before) + length (m :: rest').
Proof.
  induction rest' as [|m' rest' IH]; intros fs m; cbv zeta.
  - unfold addMessages. cbn [fold_left map length].
    rewrite add_message_stored. apply add_message_history.
  - unfold addMessages in *. cbn [fold_left] in *.
    set (fs1 := fst (addMessageToConversation env fs userId isGroup (fst m) (snd m))).
    destruct (IH fs1 m') as [Ht Hc]. cbn [fold_left] in Ht, Hc.
    assert (E1 : loadUserData env fs1 userId isGroup
                 = snd (addMessageToConversation env fs userId isGroup
                          (fst m) (snd m)))
      by apply add_message_stored.
    destruct (add_message_history env fs userId isGroup (fst m) (snd m))
      as [Ht1 Hc1].
    rewrite E1 in Ht, Hc. split.
    + rewrite Ht, Ht1, lastN_app. cbn [map]. now rewrite <- app_assoc.
    + rewrite Hc, Hc1. cbn [length]. lia.
Qed.

(** X14.  After [addMessageToConversation] has been called for one or more
    messages of a chat, whatever the record held before, the stored
    history is the texts of the former history and of these messages, in
    that order, cut down to the latest [maxConversationLength] (100 when
    the preference is missing or zero); it never holds more entries than
    that, while [stats.messageCount] has grown by one for each message,
    those cut off included. *)
Theorem history_holds_the_latest_messages (env env' : Env) (fs : FileSystem)
    (userId : jsstring) (isGroup : bool) (messages : list (MessageArg * bool)) :
  messages <> [] ->
  let before := loadUserData env fs userId isGroup in
  let after :=
    loadUserData env' (addMessages env fs userId isGroup messages)
                 userId isGroup in
  map mo_text (conversation_history after)
  = lastN (conversationLimit env)
          (map mo_text (conversation_history before)
           ++ map (fun m => arg_text (fst m)) messages)
  /\ length (conversation_history after) <= conversationLimit env
  /\ messageCount (stats after)
     = messageCount (stats before) + length messages.
Proof.
  intros Hne before after. subst before after.
  destruct messages as [|m rest']; [contradiction|].
  destruct (addMessages_history env env' userId isGroup rest' fs m) as [Ht Hc].
  split; [exact Ht|]. split; [|exact Hc].
  rewrite <- (length_map mo_text), Ht, lastN_length. lia.
Qed.

Lemma history_holds_the_latest_messages_witness :
  let env := mkEnv (js "2024-01-01T00:00:00.000Z") (js "1704067200000") (Some 2) true in
  let user := js "8801@s.whatsapp.net" in
  let after :=
    loadUserData env
      (addMessages env [] user false
         [(TextArg (js "one"), false); (TextArg (js "two"), true);
          (TextArg (js "three"), false)])
      user false in
  map mo_text (conversation_history after) = [js "two"; js "three"]
  /\ messageCount (stats after) = 3.
Proof.
  intros env user after. subst after.
  destruct (@history_holds_the_latest_messages env env [] user false
              [(TextArg (js "one"), false); (TextArg (js "two"), true);
               (TextArg (js "three"), false)])
    as (Ht & _ & Hc); [discriminate|].
  split; [rewrite Ht; vm_compute; reflexivity | rewrite Hc; vm_compute; reflexivity].
Defined.

(** ** The most active participants *)

Lemma descending_cons (x : TopParticipant) (l : list TopParticipant) :
  descending (x :: l)
  <-> match l with y :: _ => tp_messageCount y <= tp_messageCount x | [] => True end
      /\ descending l.
Proof. destruct l; simpl; tauto. Qed.

Lemma insertByCount_head (x : TopParticipant) (l : list TopParticipant) :
  match insertByCount x l with
  | z :: _ => z = x \/ exists t, l = z :: t
  | [] => False
  end.
Proof.
  destruct l as [|y l]; simpl; [now left|].
  destruct (tp_messageCount x <? tp_messageCount y); [right; eauto | now left].
Qed.

Lemma insertByCount_descending (x : TopParticipant) (l : list TopParticipant) :
  descending l -> descending (insertByCount x l).
Proof.
  induction l as [|y l IH]; intro H; [exact I|].
  cbn [insertByCount].
  destruct (tp_messageCount x <? tp_messageCount y) eqn:E.
  - apply Nat.ltb_lt in E. apply descending_cons in H. destruct H as [Hy Hl].
    apply descending_cons. split; [|now apply IH].
    pose proof (insertByCount_head x l) as Hh.
    destruct (insertByCount x l) as [|z t]; [exact I|].
    destruct Hh as [->|[t' ->]]; [lia | exact Hy].
  - apply Nat.ltb_ge in E. apply descending_cons. split; assumption.
Qed.

Lemma sortByCount_descending (l : list TopParticipant) :
  descending (sortByCount l).
Proof.
  unfold sortByCount. induction l as [|x l IH]; [exact I|].
  simpl. now apply insertByCount_descending.
Qed.

Lemma sortByCount_sorted (l : list TopParticipant) :
  descending l -> sortByCount l = l.
Proof.
  unfold sortByCount. induction l as [|x l IH]; intro H; [reflexivity|].
  apply descending_cons in H. destruct H as [Hx Hl].
  cbn [fold_right]. rewrite (IH Hl).
  destruct l as [|y l]; [reflexivity|]. cbn [insertByCount].
  destruct (tp_messageCount x <? tp_messageCount y) eqn:E; [|reflexivity].
  apply Nat.ltb_lt in E. lia.
Qed.

Lemma firstn_descending (n : nat) (l : list TopParticipant) :
  descending l -> descending (firstn n l).
Proof.
  revert l. induction n as [|n IH]; intros l H; [exact I|].
  destruct l as [|x l]; [exact I|].
  apply descending_cons in H. destruct H as [Hx Hl].
  cbn [firstn]. apply descending_cons. split; [|now apply IH].
  destruct l as [|y l]; [destruct n; exact I|].
  destruct n; [exact I | exact Hx].
Qed.

Lemma descending_app_last (l : list TopParticipant) (x : TopParticipant) :
  descending l ->
  (forall p, In p l -> tp_messageCount x <= tp_messageCount p) ->
  descending (l ++ [x]).
Proof.
  induction l as [|y l IH]; intros H Hall; [exact I|].
  apply descending_cons in H. destruct H as [Hy Hl].
  cbn [app]. apply descending_cons. split.
  - destruct l as [|z l]; simpl; [apply Hall; now left | exact Hy].
  - apply IH; [exact Hl|]. intros p Hp. apply Hall. now right.
Qed.

Lemma bumpParticipant_none (env : Env) (s : Sender) (l : list TopParticipant) :
  (forall p, In p l -> tp_id p <> sender_id s) ->
  bumpParticipant env s l = None.
Proof.
  induction l as [|p l IH]; intro H; [reflexivity|]. simpl.
  destruct (str_eqb (tp_id p) (sender_id s)) eqn:E.
  - apply str_eqb_spec in E. exfalso. apply (H p); [now left | exact E].
  - rewrite IH; [reflexivity|]. intros q Hq. apply H. now right.
Qed.

Lemma updateTopParticipants_ranked (env : Env) (s : Sender)
    (l : list TopParticipant) :
  descending (updateTopParticipants env s l)
  /\ length (updateTopParticipants env s l) <= 10.
Proof.
  unfold updateTopParticipants. split.
  - apply firstn_descending, sortByCount_descending.
  - rewrite length_firstn. lia.
Qed.

Lemma updateTopParticipants_full (env : Env) (s : Sender)
    (l : list TopParticipant) :
  length l = 10 -> descending l ->
  (forall p, In p l -> 1 <= tp_messageCount p) ->
  (forall p, In p l -> tp_id p <> sender_id s) ->
  updateTopParticipants env s l = l.
Proof.
  intros Hlen Hd Hpos Hnew. unfold updateTopParticipants.
  rewrite (bumpParticipant_none env s l Hnew).
  rewrite sortByCount_sorted.
  - rewrite <- Hlen. apply firstn_length_app.
  - apply descending_app_last; [exact Hd|]. intros p Hp. simpl. now apply Hpos.
Qed.

(** The [topParticipants] that [addMessageToConversation] stores for a
    message of a group that is not from the bot. *)
Lemma add_message_top (env : Env) (fs : FileSystem) (userId : jsstring)
    (message : MessageArg) (k : MessageKey) :
  arg_key message = Some k ->
  userId <> [] ->
  topParticipants
    (stats (snd (addMessageToConversation env fs userId true message false)))
  = updateTopParticipants env
      (mkSender (senderIdOf userId true k)
                (str_or (arg_pushName message) (js "Unknown User")))
      (topParticipants (stats (loadUserData env fs userId true))).
Proof.
  intros Hk Hid. unfold addMessageToConversation. rewrite Hk.
  cbn [negb andb].
  assert (Hs : nonempty (senderIdOf userId true k) = true).
  { unfold senderIdOf, str_or, or_else. cbn [andb].
    destruct (truthy (participant k)) eqn:Ep.
    - destruct (participant k) as [[|c t]|]; try discriminate.
      reflexivity.
    - destruct (truthy (remoteJid k)) eqn:Er.
      + destruct (remoteJid k) as [[|c t]|]; try discriminate. reflexivity.
      + destruct userId; [contradiction | reflexivity]. }
  cbn [sender_id]. rewrite Hs. reflexivity.
Qed.

(** X15.  After a message of a group member has been added to the record
    of a group, [stats.topParticipants] holds at most ten entries and no
    entry is followed by one with a larger message count.  When the list
    is full, ten entries in that order each with a count of at least one,
    a member who is not in it does not enter it: the entry appended for
    the newcomer has the count one, sorts behind the ten and is cut off,
    and the list is stored as it was. *)
Theorem top_participants_are_ranked (env : Env) (fs : FileSystem)
    (userId : jsstring) (message : MessageArg) (k : MessageKey) :
  arg_key message = Some k ->
  userId <> [] ->
  let before := topParticipants (stats (loadUserData env fs userId true)) in
  let after :=
    topParticipants
      (stats (snd (addMessageToConversation env fs userId true message false))) in
  descending after
  /\ length after <= 10
  /\ (length before = 10 -> descending before ->
      (forall p, In p before -> 1 <= tp_messageCount p) ->
      (forall p, In p before -> tp_id p <> senderIdOf userId true k) ->
      after = before).
Proof.
  intros Hk Hid before after. subst after.
  rewrite (add_message_top env fs message Hk Hid). fold before.
  destruct (updateTopParticipants_ranked env
              (mkSender (senderIdOf userId true k)
                        (str_or (arg_pushName message) (js "Unknown User")))
              before) as [Hd Hl].
  split; [exact Hd|]. split; [exact Hl|].
  intros Hlen Hdesc Hpos Hnew. now apply updateTopParticipants_full.
Qed.

Lemma top_participants_are_ranked_witness :
  let groupId := js "120363001@g.us" in
  topParticipants
    (stats (snd (addMessageToConversation sampleEnv (busyGroupFiles groupId)
                   groupId true (ObjectArg helloFromAlice) false)))
  = tenMembers
  /\ forall p, In p tenMembers -> tp_id p <> js "8801@s.whatsapp.net".
Proof.
  intro groupId.
  assert (Hnew : forall p, In p tenMembers -> tp_id p <> js "8801@s.whatsapp.net").
  { intros p Hp. vm_compute in Hp.
    repeat (destruct Hp as [<-|Hp]; [vm_compute; discriminate|]).
    contradiction. }
  split; [|exact Hnew].
  destruct (@top_participants_are_ranked sampleEnv (busyGroupFiles groupId)
              groupId (ObjectArg helloFromAlice)
              (mkKey (Some (js "M1")) (Some (js "120363001@g.us"))
                     (Some (js "8801@s.whatsapp.net"))))
    as (_ & _ & Hfull); [reflexivity | vm_compute; discriminate|].
  rewrite Hfull.
  - vm_compute. reflexivity.
  - vm_compute. reflexivity.
  - vm_compute. repeat split; lia.
  - intros p Hp. vm_compute in Hp.
    repeat (destruct Hp as [<-|Hp]; [vm_compute; lia|]). contradiction.
  - intros p Hp. apply Hnew.
    replace tenMembers
      with (topParticipants (stats (loadUserData sampleEnv (busyGroupFiles groupId)
                                      groupId true)))
      by (vm_compute; reflexivity).
    exact Hp.
Defined.

(** ** Records are kept per storage key *)



(** ** Known names of participants *)

Lemma truthy_or_else_right (a b : option jsstring) :
  truthy b = true -> truthy (or_else a b) = true.
Proof. intro H. unfold or_else. destruct (truthy a) eqn:E; assumption. Qed.

Lemma truthy_or_else_left (a b : option jsstring) :
  truthy a = true -> or_else a b = a.
Proof. intro H. unfold or_else. now rewrite H. Qed.

Lemma truthy_str_or (v : option jsstring) (default : jsstring) :
  default <> [] -> truthy (Some (str_or v default)) = true.
Proof.
  intro H. unfold str_or, or_else.
  destruct (truthy v) eqn:E.
  - destruct v as [[|c t]|]; try discriminate. reflexivity.
  - destruct default; [contradiction | reflexivity].
Qed.

Lemma mergeParticipants_named (env : Env) (id : jsstring)
    (incoming : omap jsstring Participant) :
  forall current : omap jsstring Participant,
    (exists p, map_get str_eqb id current = Some p
               /\ truthy (participant_name p) = true) ->
    exists p, map_get str_eqb id (mergeParticipants env incoming current) = Some p
              /\ truthy (participant_name p) = true.
Proof.
  unfold mergeParticipants.
  induction incoming as [|[id' info] incoming IH]; intros current H; [exact H|].
  cbn [fold_left fst snd]. apply IH.
  destruct H as (p & Hp & Hn).
  destruct (str_eqb id id') eqn:E.
  - apply str_eqb_spec in E. subst id'.
    rewrite (map_get_set_same str_eqb str_eqb_spec). eexists. split; [reflexivity|].
    rewrite Hp. unfold mergeParticipant. cbn [participant_name bind_opt].
    unfold or_else at 1.
    destruct (truthy (or_else (participant_name info) (participant_name p)))
      eqn:E0; [exact E0|].
    rewrite truthy_or_else_right in E0; [discriminate | exact Hn].
  - apply str_eqb_neq in E.
    rewrite (map_get_set_other str_eqb str_eqb_spec _ _ E). now exists p.
Qed.

Lemma update_profile_named (env : Env) (fs : FileSystem) (userId : jsstring)
    (isGroup : bool) (info : ProfileInfo) (additionalData : AdditionalData)
    (id : jsstring) :
  named_in id (loadUserData env fs userId isGroup) ->
  named_in id (snd (updateUserProfile env fs userId isGroup info additionalData)).
Proof.
  unfold named_in, updateUserProfile. cbn [snd participants].
  destruct (ad_participants additionalData) as [incoming|]; [|tauto].
  apply mergeParticipants_named.
Qed.

Lemma seen_named (env : Env) (id sender : jsstring)
    (newName : option jsstring) (current : omap jsstring Participant) :
  (exists p, map_get str_eqb id current = Some p
             /\ truthy (participant_name p) = true) ->
  exists p, map_get str_eqb id
              (map_set str_eqb sender
                 (seenParticipant env (map_get str_eqb sender current) newName)
                 current) = Some p
            /\ truthy (participant_name p) = true.
Proof.
  intros (p & Hp & Hn).
  destruct (str_eqb id sender) eqn:E.
  - apply str_eqb_spec in E. subst sender.
    rewrite (map_get_set_same str_eqb str_eqb_spec). eexists. split; [reflexivity|].
    unfold seenParticipant. cbn [participant_name].
    apply truthy_str_or. vm_compute. discriminate.
  - apply str_eqb_neq in E.
    rewrite (map_get_set_other str_eqb str_eqb_spec _ _ E). now exists p.
Qed.

Lemma add_message_named (env : Env) (fs : FileSystem) (userId : jsstring)
    (isGroup : bool) (message : MessageArg) (fromMe : bool) (id : jsstring) :
  named_in id (loadUserData env fs userId isGroup) ->
  named_in id (snd (addMessageToConversation env fs userId isGroup message fromMe)).
Proof.
  unfold named_in, addMessageToConversation.
  set (d := loadUserData env fs userId isGroup). intro H.
  destruct (if negb fromMe then _ else None) as [s|] eqn:Es.
  - assert (H1 := @seen_named env id (sender_id s) (arg_pushName message)
                    (participants d) H).
    destruct (negb fromMe && isGroup && nonempty (sender_id s));
      cbn [snd set_profile participants]; [|exact H1].
    apply seen_named. exact H1.
  - cbn [snd set_profile participants]. exact H.
Qed.

Lemma named_in_env (env env' : Env) (fs : FileSystem) (userId : jsstring)
    (isGroup : bool) (id : jsstring) :
  named_in id (loadUserData env fs userId isGroup) ->
  named_in id (loadUserData env' fs userId isGroup).
Proof.
  unfold named_in, loadUserData.
  destruct (map_get path_eqb (getUserDataPath userId isGroup) fs) as [[d|]|];
    [tauto | |]; intros (p & Hp & _); discriminate.
Qed.

Lemma add_message_other_participants (env : Env) (fs : FileSystem)
    (userId : jsstring) (isGroup : bool) (message : MessageArg) (fromMe : bool)
    (id : jsstring) :
  (forall k, fromMe = false -> arg_key message = Some k ->
             senderIdOf userId isGroup k <> id) ->
  map_get str_eqb id
    (participants (snd (addMessageToConversation env fs userId isGroup
                          message fromMe)))
  = map_get str_eqb id (participants (loadUserData env fs userId isGroup)).
Proof.
  intro Hother. unfold addMessageToConversation.
  set (d := loadUserData env fs userId isGroup).
  destruct fromMe; cbn [negb]; [reflexivity|].
  destruct (arg_key message) as [k|]; [|reflexivity].
  assert (Hne : id <> senderIdOf userId isGroup k)
    by (intro E; apply (Hother k eq_refl eq_refl); now symmetry).
  cbn [sender_id andb].
  destruct (isGroup && nonempty (senderIdOf userId isGroup k));
    cbn [snd set_profile participants];
    now rewrite ?(map_get_set_other str_eqb str_eqb_spec _ _ Hne).
Qed.

Lemma str_or_truthy (v : option jsstring) (default : jsstring) :
  truthy v = true -> Some (str_or v default) = v.
Proof.
  intro H. unfold str_or, or_else. rewrite H.
  destruct v; [reflexivity | discriminate].
Qed.

Lemma str_or_falsy (v : option jsstring) (default : jsstring) :
  truthy v = false -> str_or v default = default.
Proof. intro H. unfold str_or, or_else. now rewrite H. Qed.

Lemma add_message_sender_name (env : Env) (fs : FileSystem)
    (userId : jsstring) (isGroup : bool) (message : MessageArg) (k : MessageKey) :
  arg_key message = Some k ->
  let id := senderIdOf userId isGroup k in
  let stored :=
    bind_opt (map_get str_eqb id
                (participants (loadUserData env fs userId isGroup)))
             participant_name in
  bind_opt (map_get str_eqb id
              (participants (snd (addMessageToConversation env fs userId isGroup
                                    message false))))
           participant_name
  = if truthy (arg_pushName message) then arg_pushName message
    else if isGroup && nonempty id then Some (js "Unknown User")
    else Some (str_or stored (js "Unknown User")).
Proof.
  intros Hk id stored. unfold addMessageToConversation.
  set (d := loadUserData env fs userId isGroup) in *.
  rewrite Hk. cbn [negb sender_id sender_name andb]. fold id.
  destruct (isGroup && nonempty id) eqn:Eg;
    cbn [snd set_profile participants];
    rewrite !(map_get_set_same str_eqb str_eqb_spec);
    cbn [bind_opt seenParticipant participant_name]; fold stored.
  - destruct (truthy (arg_pushName message)) eqn:Ep.
    + assert (Hs : truthy (Some (str_or (arg_pushName message) (js "Unknown User")))
                   = true) by (apply truthy_str_or; vm_compute; discriminate).
      rewrite (@truthy_or_else_left _ _ Hs), (@str_or_truthy _ _ Hs).
      now apply str_or_truthy.
    + rewrite (@str_or_falsy _ _ Ep). reflexivity.
  - destruct (truthy (arg_pushName message)) eqn:Ep.
    + rewrite (@truthy_or_else_left _ _ Ep). now apply str_or_truthy.
    + unfold or_else at 1. rewrite Ep. reflexivity.
Qed.

(** X17.  A participant of whom the record of a chat holds a non-empty
    name never becomes nameless: after [addMessageToConversation], after
    [updateUserProfile] with any arguments, and after the refresh of a
    group in [processMessage], the record still holds a non-empty name
    for the participant.  It need not be the same name.
    [addMessageToConversation] leaves the entry of every participant but
    the sender as it is; the name of the sender becomes the [pushName] of
    the message when that is not empty; without a [pushName] the stored
    name is kept in a direct chat, and replaced by the placeholder
    [Unknown User] in a group. *)
Theorem participants_never_become_nameless (env env' : Env) (fs : FileSystem)
    (userId : jsstring) (isGroup : bool) (id : jsstring) :
  named_in id (loadUserData env fs userId isGroup) ->
  let before := participants (loadUserData env fs userId isGroup) in
  let after := fun message fromMe =>
    participants
      (loadUserData env'
         (fst (addMessageToConversation env fs userId isGroup message fromMe))
         userId isGroup) in
  (forall (message : MessageArg) (fromMe : bool),
      named_in id
        (loadUserData env'
           (fst (addMessageToConversation env fs userId isGroup message fromMe))
           userId isGroup))
  /\ (forall (info : ProfileInfo) (additionalData : AdditionalData),
        named_in id
          (loadUserData env'
             (fst (updateUserProfile env fs userId isGroup info additionalData))
             userId isGroup))
  /\ (forall (sv : Services) (message : Message),
        isGroup = true ->
        named_in id
          (loadUserData env' (refreshGroup env sv fs userId message) userId true))
  /\ (forall (message : MessageArg) (fromMe : bool),
        (forall k, fromMe = false -> arg_key message = Some k ->
                   senderIdOf userId isGroup k <> id) ->
        map_get str_eqb id (after message fromMe) = map_get str_eqb id before)
  /\ (forall (message : MessageArg) (k : MessageKey),
        arg_key message = Some k ->
        senderIdOf userId isGroup k = id ->
        bind_opt (map_get str_eqb id (after message false)) participant_name
        = if truthy (arg_pushName message) then arg_pushName message
          else if isGroup && nonempty id then Some (js "Unknown User")
          else bind_opt (map_get str_eqb id before) participant_name).
Proof.
  intros H before after. subst before after. cbv beta.
  split; [|split; [|split; [|split]]].
  - intros message fromMe. rewrite add_message_stored.
    now apply add_message_named.
  - intros info additionalData. rewrite update_profile_stored.
    now apply update_profile_named.
  - intros sv message ->. unfold refreshGroup.
    destruct (truthy _ && negb _); [|exact (@named_in_env env env' fs userId true id H)].
    destruct (fetchedGroupMetadata sv) as [gm|];
      [destruct (gm_participants gm)|];
      rewrite update_profile_stored; now apply update_profile_named.
  - intros message fromMe Hother. rewrite add_message_stored.
    now apply add_message_other_participants.
  - intros message k Hk Hsender. rewrite add_message_stored.
    pose proof (@add_message_sender_name env fs userId isGroup message k Hk) as Hn.
    cbv zeta in Hn. rewrite Hsender in Hn. rewrite Hn.
    destruct (truthy (arg_pushName message)); [reflexivity|].
    destruct (isGroup && nonempty id); [reflexivity|].
    destruct H as (p & Hp & Hnamed). rewrite Hp. cbn [bind_opt].
    now apply str_or_truthy.
Qed.

Lemma participants_never_become_nameless_witness :
  let fs := karimFiles (js "8801711111111@s.whatsapp.net") (js "120363001@g.us")
                       (js "8801722222222@s.whatsapp.net") in
  let fromKarim :=
    ObjectArg (textMessage (Some (js "M7")) (Some (js "120363001@g.us"))
                           (Some (js "8801722222222@s.whatsapp.net")) None
                           (js "on my way")) in
  bind_opt (map_get str_eqb (js "8801722222222@s.whatsapp.net")
              (participants (loadUserData sampleEnv fs (js "120363001@g.us") true)))
           participant_name
  = Some (js "Karim Uddin")
  /\ bind_opt (map_get str_eqb (js "8801722222222@s.whatsapp.net")
                 (participants
                    (loadUserData sampleEnv
                       (fst (addMessageToConversation sampleEnv fs
                               (js "120363001@g.us") true fromKarim false))
                       (js "120363001@g.us") true)))
              participant_name
     = Some (js "Unknown User").
Proof.
  intros fs fromKarim. split; [vm_compute; reflexivity|].
  destruct (@participants_never_become_nameless sampleEnv sampleEnv fs
              (js "120363001@g.us") true (js "8801722222222@s.whatsapp.net"))
    as (_ & _ & _ & _ & Hsender);
    [eexists; split; [vm_compute; reflexivity | reflexivity]|].
  rewrite (Hsender fromKarim
             (mkKey (Some (js "M7")) (Some (js "120363001@g.us"))
                    (Some (js "8801722222222@s.whatsapp.net"))));
    vm_compute; reflexivity.
Defined.

(** ** Groups and direct chats *)

Lemma endsWith_last (s suffix : jsstring) (c : code_unit) :
  endsWith s (suffix ++ [c]) = true -> exists s', s = s' ++ [c].
Proof.
  unfold endsWith. rewrite rev_app_distr. simpl.
  destruct (rev s) as [|x r] eqn:E; [discriminate|].
  intro H. apply andb_true_iff in H. destruct H as [Hx _].
  apply N.eqb_eq in Hx. subst x.
  exists (rev r). rewrite <- (rev_involutive s), E. reflexivity.
Qed.

(** X18.  No message is both a group message and a direct message
    ([isGroupMessage] and [isDirectMessage] look at the end of the same
    address), and the category of a group message is [group] whatever
    custom rule the preferences hold: a custom rule is only asked about
    messages that do not come from a group, and decides their category
    when it answers a non-empty one, which is [inbox] otherwise. *)
Theorem group_and_direct_exclude_each_other (message : Message)
    (customCategories : option (Message -> option jsstring)) :
  (isGroupMessage message = true -> isDirectMessage message = false)
  /\ (isGroupMessage message = true ->
      categorizeMessage message customCategories = js "group")
  /\ (isGroupMessage message = false ->
      categorizeMessage message customCategories
      = match customCategories with
        | Some rule =>
            match rule message with
            | Some (c :: t) => c :: t
            | _ => js "inbox"
            end
        | None => js "inbox"
        end).
Proof.
  split; [|split].
  - unfold isGroupMessage, isDirectMessage.
    destruct (bind_opt (key message) remoteJid) as [jid|]; [|reflexivity].
    intro Hg. apply andb_true_iff in Hg. destruct Hg as [_ Hg].
    destruct (nonempty jid && endsWith jid (js "@s.whatsapp.net")) eqn:Hd;
      [|reflexivity].
    apply andb_true_iff in Hd. destruct Hd as [_ Hd].
    change (js "@g.us") with (js "@g.u" ++ [ch "s"]) in Hg.
    change (js "@s.whatsapp.net") with (js "@s.whatsapp.ne" ++ [ch "t"]) in Hd.
    apply endsWith_last in Hg. apply endsWith_last in Hd.
    destruct Hg as (s1 & E1). destruct Hd as (s2 & E2).
    rewrite E1 in E2. apply app_inj_tail in E2. destruct E2 as [_ E2].
    vm_compute in E2. discriminate.
  - intro H. unfold categorizeMessage. now rewrite H.
  - intro H. unfold categorizeMessage. rewrite H.
    destruct customCategories as [rule|]; [|reflexivity].
    destruct (rule message) as [[|c t]|]; reflexivity.
Qed.

Lemma group_and_direct_exclude_each_other_witness :
  isDirectMessage helloFromAlice = false
  /\ categorizeMessage helloFromAlice (Some (fun _ => Some (js "work")))
     = js "group"
  /\ categorizeMessage msgA (Some (fun _ => Some (js "work"))) = js "work".
Proof.
  destruct (group_and_direct_exclude_each_other helloFromAlice
              (Some (fun _ => Some (js "work")))) as (H1 & H2 & _).
  destruct (group_and_direct_exclude_each_other msgA
              (Some (fun _ => Some (js "work")))) as (_ & _ & H3).
  split; [apply H1; vm_compute; reflexivity|].
  split; [apply H2; vm_compute; reflexivity|].
  rewrite H3; [reflexivity | vm_compute; reflexivity].
Defined.

(** ** Messages that were processed before *)

Lemma NoDup_skipn {A : Type} (n : nat) (l : list A) :
  NoDup l -> NoDup (skipn n l).
Proof.
  revert l. induction n as [|n IH]; intros l H; [exact H|].
  destruct l as [|x l]; [exact H|]. simpl. apply IH. now inversion H.
Qed.

Lemma In_skipn {A : Type} (n : nat) (l : list A) (x : A) :
  In x (skipn n l) -> In x l.
Proof.
  revert l. induction n as [|n IH]; intros l H; [exact H|].
  destruct l as [|y l]; [exact H|]. right. now apply IH.
Qed.

Lemma lastN_last {A : Type} (n : nat) (l : list A) (x : A) :
  1 <= n -> In x (lastN n (l ++ [x])).
Proof.
  intro Hn. unfold lastN. rewrite length_app. simpl.
  rewrite skipn_app. apply in_or_app. right.
  replace (length l + 1 - n - length l) with 0 by lia. now left.
Qed.

Lemma rememberProcessed_spec (messageId : jsstring) (processed : list jsstring) :
  length processed <= 1000 -> NoDup processed ->
  let remembered := rememberProcessed messageId processed in
  In messageId remembered
  /\ length remembered <= 1000
  /\ NoDup remembered
  /\ (forall x, In x remembered -> x = messageId \/ In x processed)
  /\ (length processed < 1000 ->
      forall x, In x processed -> In x remembered).
Proof.
  intros Hlen Hnd. cbv zeta. unfold rememberProcessed.
  destruct (array_includes processed messageId) eqn:Einc.
  - apply array_includes_spec in Einc.
    destruct (1000 <? length processed) eqn:E;
      [apply Nat.ltb_lt in E; lia|].
    repeat split; try assumption; [now right | trivial].
  - apply array_includes_false in Einc.
    assert (Hnd' : NoDup (processed ++ [messageId])).
    { apply NoDup_app; [exact Hnd | constructor; [intros [] | constructor] |].
      intros y Hy [<-|[]]. contradiction. }
    rewrite length_app. simpl.
    destruct (1000 <? length processed + 1) eqn:E.
    + apply Nat.ltb_lt in E.
      split; [apply lastN_last; lia|].
      split; [rewrite lastN_length; lia|].
      split; [now apply NoDup_skipn|].
      split.
      * intros x Hx. apply In_skipn in Hx. apply in_app_or in Hx.
        destruct Hx as [Hx|[<-|[]]]; [now right | now left].
      * intro Hlt. lia.
    + split; [apply in_or_app; right; now left|].
      apply Nat.ltb_ge in E.
      split; [rewrite length_app; simpl; lia|].
      split; [exact Hnd'|].
      split.
      * intros x Hx. apply in_app_or in Hx.
        destruct Hx as [Hx|[<-|[]]]; [now right | now left].
      * intros _ x Hx. apply in_or_app. now left.
Qed.

(** The set of processed messages after [processMessage]. *)
Lemma processMessage_processed (env : Env) (sv : Services) (st st' : PipelineState)
    (message : Message) :
  processMessage env sv st message = Returned st' ->
  exists k,
    key message = Some k
    /\ processedMessages st'
       = match key_id k with
         | Some (c :: t) =>
             if array_includes (processedMessages st) (c :: t)
             then processedMessages st
             else rememberProcessed (c :: t) (processedMessages st)
         | _ => processedMessages st
         end.
Proof.
  unfold processMessage.
  destruct (key message) as [k|]; [|discriminate].
  intro H. exists k. split; [reflexivity|].
  destruct (if truthy (pushName message) && negb (isGroupMessage message)
            then _ else Returned _) as [fs|]; [|discriminate].
  destruct (key_id k) as [[|c t]|]; cbn [truthy negb andb str_or or_else] in H.
  - rewrite andb_false_r in H. injection H as <-. reflexivity.
  - destruct (array_includes (processedMessages st) (c :: t));
      cbn [negb andb] in H; [injection H as <-; reflexivity|].
    destruct (nonempty _ || nonempty _); injection H as <-; reflexivity.
  - injection H as <-. reflexivity.
Qed.

(** X19.  The set of processed messages that [processMessage] keeps stays
    bounded and without repetitions: from a set of at most 1000
    identifiers it makes a set of at most 1000 identifiers, and the
    identifier of the message that was just handled, when it has one, is
    in it.  Identifiers are only forgotten when the set was full: an
    identifier that was in a set of fewer than 1000 is still in it. *)
Theorem processed_messages_stay_bounded (env : Env) (sv : Services)
    (st st' : PipelineState) (message : Message) :
  processMessage env sv st message = Returned st' ->
  length (processedMessages st) <= 1000 ->
  NoDup (processedMessages st) ->
  length (processedMessages st') <= 1000
  /\ NoDup (processedMessages st')
  /\ (forall id, has_id message id -> In id (processedMessages st'))
  /\ (length (processedMessages st) < 1000 ->
      forall x, In x (processedMessages st) -> In x (processedMessages st')).
Proof.
  intros H Hlen Hnd. apply processMessage_processed in H.
  destruct H as (k & Hk & ->).
  destruct (key_id k) as [[|c t]|] eqn:Eid.
  - repeat split; try assumption; [|trivial].
    intros id [Hid Hne]. rewrite Hk in Hid. simpl in Hid. congruence.
  - destruct (array_includes (processedMessages st) (c :: t)) eqn:Einc.
    + repeat split; try assumption; [|trivial].
      intros id [Hid _]. rewrite Hk in Hid. simpl in Hid.
      rewrite Eid in Hid. injection Hid as <-.
      now apply array_includes_spec.
    + destruct (rememberProcessed_spec (c :: t) Hlen Hnd)
        as (Hin & Hl & Hn & _ & Hkeep).
      repeat split; try assumption.
      intros id [Hid _]. rewrite Hk in Hid. simpl in Hid.
      rewrite Eid in Hid. now injection Hid as <-.
  - repeat split; try assumption; [|trivial].
    intros id [Hid Hne]. rewrite Hk in Hid. simpl in Hid. congruence.
Qed.

Lemma processed_messages_stay_bounded_witness :
  exists st',
    processMessage sampleEnv unknownGroupServices (mkPipeline [] [js "M0"])
                   helloFromAlice = Returned st'
    /\ In (js "M1") (processedMessages st')
    /\ In (js "M0") (processedMessages st').
Proof.
  destruct (processMessage sampleEnv unknownGroupServices
              (mkPipeline [] [js "M0"]) helloFromAlice) as [st'|] eqn:E;
    [|vm_compute in E; discriminate].
  exists st'. split; [reflexivity|].
  assert (Hlen : length (processedMessages (mkPipeline [] [js "M0"])) <= 1000)
    by (simpl; lia).
  assert (Hnd : NoDup (processedMessages (mkPipeline [] [js "M0"])))
    by (simpl; constructor; [intros [] | constructor]).
  destruct (@processed_messages_stay_bounded _ _ _ _ _ E Hlen Hnd)
    as (_ & _ & Hin & Hkeep).
  split.
  - apply Hin. split; [vm_compute; reflexivity | vm_compute; discriminate].
  - apply Hkeep; [simpl; lia | now left].
Defined.

(** [updateUserProfile] leaves every conversation history as it is. *)
Lemma update_profile_keeps_histories (env env' : Env) (fs : FileSystem)
    (userId : jsstring) (isGroup : bool) (info : ProfileInfo)
    (additionalData : AdditionalData) (otherId : jsstring) (otherIsGroup : bool) :
  conversation_history
    (loadUserData env'
       (fst (updateUserProfile env fs userId isGroup info additionalData))
       otherId otherIsGroup)
  = conversation_history (loadUserData env' fs otherId otherIsGroup).
Proof.
  unfold updateUserProfile. cbn [fst]. unfold saveUserData.
  set (path := getUserDataPath userId isGroup).
  set (other := getUserDataPath otherId otherIsGroup).
  destruct (path_eqb other path) eqn:E.
  - apply path_eqb_spec in E. unfold loadUserData at 1. fold other. rewrite E.
    rewrite (map_get_set_same path_eqb path_eqb_spec).
    cbn [set_profile conversation_history].
    unfold loadUserData. fold path other. rewrite E.
    destruct (map_get path_eqb path fs) as [[d|]|]; reflexivity.
  - assert (Hne : other <> path).
    { intro H. rewrite H in E.
      rewrite (proj2 (path_eqb_spec path path) eq_refl) in E. discriminate. }
    unfold loadUserData. fold other.
    now rewrite (map_get_set_other path_eqb path_eqb_spec _ _ Hne).
Qed.

Lemma refreshGroup_keeps_histories (env env' : Env) (sv : Services)
    (fs : FileSystem) (jid : jsstring) (message : Message)
    (otherId : jsstring) (otherIsGroup : bool) :
  conversation_history
    (loadUserData env' (refreshGroup env sv fs jid message) otherId otherIsGroup)
  = conversation_history (loadUserData env' fs otherId otherIsGroup).
Proof.
  unfold refreshGroup.
  destruct (truthy _ && negb _); [|reflexivity].
  destruct (fetchedGroupMetadata sv) as [gm|];
    [destruct (gm_participants gm)|];
    apply update_profile_keeps_histories.
Qed.

(** X20.  A message that [processMessage] has processed before, or that
    has no identifier, is not recorded a second time: when the call
    returns, the set of processed messages is as it was and no
    conversation history, of this chat or of any other, has changed, so
    neither the message nor a generated reply was appended to one. *)
Theorem repeated_message_adds_nothing (env env' : Env) (sv : Services)
    (st st' : PipelineState) (message : Message) :
  processMessage env sv st message = Returned st' ->
  (forall id, has_id message id -> In id (processedMessages st)) ->
  processedMessages st' = processedMessages st
  /\ forall (userId : jsstring) (isGroup : bool),
       conversation_history (loadUserData env' (files st') userId isGroup)
       = conversation_history (loadUserData env' (files st) userId isGroup).
Proof.
  intros H Hseen.
  destruct (processMessage_processed _ _ _ _ H) as (k & Hk & Hp).
  assert (Hskip : negb (match key_id k with
                        | Some messageId =>
                            array_includes (processedMessages st) messageId
                        | None => false
                        end) && truthy (key_id k) = false).
  { destruct (key_id k) as [[|c t]|] eqn:Eid; try reflexivity;
      [now rewrite andb_false_r|].
    assert (Hin : In (c :: t) (processedMessages st)).
    { apply Hseen. split; [|discriminate]. rewrite Hk. simpl. exact Eid. }
    apply array_includes_spec in Hin. now rewrite Hin. }
  split.
  - rewrite Hp. destruct (key_id k) as [[|c t]|] eqn:Eid; try reflexivity.
    assert (Hin : In (c :: t) (processedMessages st)).
    { apply Hseen. split; [|discriminate]. rewrite Hk. simpl. exact Eid. }
    apply array_includes_spec in Hin. now rewrite Hin.
  - intros userId isGroup. unfold processMessage in H. rewrite Hk in H.
    set (fs1 := if isGroupMessage message
                then refreshGroup env sv (files st) (str_or (remoteJid k) []) message
                else files st) in *.
    assert (H1 : conversation_history (loadUserData env' fs1 userId isGroup)
                 = conversation_history (loadUserData env' (files st) userId isGroup)).
    { subst fs1. destruct (isGroupMessage message); [|reflexivity].
      apply refreshGroup_keeps_histories. }
    destruct (truthy (pushName message) && negb (isGroupMessage message)).
    + destruct (remoteJid k) as [jid|]; [|discriminate].
      rewrite Hskip in H.
      match type of H with
      | Returned {| files := ?f; processedMessages := _ |} = _ =>
          assert (Hf : files st' = f) by (injection H as <-; reflexivity)
      end.
      rewrite Hf, update_profile_keeps_histories. exact H1.
    + rewrite Hskip in H.
      assert (Hf : files st' = fs1) by (injection H as <-; reflexivity).
      rewrite Hf. exact H1.
Qed.

Lemma repeated_message_adds_nothing_witness :
  exists st1 st2,
    processMessage sampleEnv unknownGroupServices (mkPipeline [] [])
                   helloFromAlice = Returned st1
    /\ processMessage sampleEnv unknownGroupServices st1 helloFromAlice
       = Returned st2
    /\ processedMessages st2 = processedMessages st1
    /\ length (conversation_history
                 (loadUserData sampleEnv (files st2) (js "120363001@g.us") true))
       = 2.
Proof.
  destruct (processMessage sampleEnv unknownGroupServices (mkPipeline [] [])
              helloFromAlice) as [st1|] eqn:E1; [|vm_compute in E1; discriminate].
  destruct (processMessage sampleEnv unknownGroupServices st1 helloFromAlice)
    as [st2|] eqn:E2;
    [|vm_compute in E1; injection E1 as <-; vm_compute in E2; discriminate].
  exists st1, st2. split; [reflexivity|]. split; [exact E2|].
  assert (Hseen : forall id, has_id helloFromAlice id -> In id (processedMessages st1)).
  { intros id [Hid _]. vm_compute in Hid. injection Hid as <-.
    vm_compute in E1. injection E1 as <-. now left. }
  destruct (@repeated_message_adds_nothing sampleEnv sampleEnv _ _ _ _ E2 Hseen)
    as [Hp Hh].
  split; [exact Hp|]. rewrite Hh.
  vm_compute in E1. injection E1 as <-. reflexivity.
Defined.

(** ** The two language detectors *)

Lemma trimStart_blank (s : jsstring) :
  forallb is_space s = true -> trimStart s = [].
Proof.
  unfold trimStart. induction s as [|c s IH]; [reflexivity|].
  simpl. intro H. apply andb_true_iff in H. destruct H as [Hc Hs].
  rewrite Hc. now apply IH.
Qed.

Lemma trim_blank (s : jsstring) : forallb is_space s = true -> trim s = [].
Proof. intro H. unfold trim. now rewrite (trimStart_blank _ H). Qed.

(** X21.  [detectLanguage] of the mention service answers one of [bn],
    [en] and [auto], never [ar] or [hi].  A text of white space gives
    [auto].  A text with a code unit of the Bengali block gives [bn]
    whatever else it holds, and so does the detector of the conversation
    records, so the two agree on Bengali script.  When [detectLanguage]
    answers [en] the text has a Latin letter and no code unit of the
    Bengali block; when it answers [auto] the text has neither. *)
Theorem relay_language_detection (toLowerCase : jsstring -> jsstring)
    (text : jsstring) :
  let detected := detectLanguage toLowerCase text in
  (detected = js "bn" \/ detected = js "en" \/ detected = js "auto")
  /\ (forallb is_space text = true -> detected = js "auto")
  /\ (existsb bengaliRange text = true ->
      detected = js "bn" /\ detectedLanguage text = js "bn")
  /\ (detected = js "en" ->
      existsb is_alpha text = true /\ existsb bengaliRange text = false)
  /\ (detected = js "auto" ->
      forallb is_space text = true
      \/ (existsb is_alpha text = false /\ existsb bengaliRange text = false)).
Proof.
  cbv zeta. unfold detectLanguage, bengaliPattern, englishPattern.
  rewrite !test_class.
  destruct (negb (nonempty text) || (length (trim text) =? 0)) eqn:Eblank.
  - assert (Hsp : forallb is_space text = true).
    { apply orb_true_iff in Eblank. destruct Eblank as [E|E].
      - destruct text; [reflexivity | discriminate].
      - apply Nat.eqb_eq in E. apply trim_nil.
        destruct (trim text); [reflexivity | discriminate]. }
    split; [right; now right|]. split; [reflexivity|].
    split.
    { intro Hb. exfalso.
      pose proof (bengali_detected text Hb) as Hd.
      assert (Hn : detectedLanguage text <> js "auto")
        by (rewrite Hd; vm_compute; discriminate).
      apply not_auto_not_blank in Hn. congruence. }
    split; [intro H; vm_compute in H; discriminate|].
    intros _. now left.
  - assert (Hns : forallb is_space text = false).
    { destruct (forallb is_space text) eqn:E; [|reflexivity].
      apply orb_false_iff in Eblank. destruct Eblank as [_ E2].
      rewrite (trim_blank _ E) in E2. discriminate. }
    rewrite Hns.
    destruct (existsb bengaliRange text) eqn:Eb.
    + cbn [Nat.ltb Nat.leb].
      split; [now left|]. split; [discriminate|].
      split; [intros _; split; [reflexivity | now apply bengali_detected]|].
      split; intro H; vm_compute in H; discriminate.
    + cbn [Nat.ltb Nat.leb].
      match goal with
      | |- context [if ?c then js "bn" else _] => destruct c
      end.
      * split; [now left|]. split; [discriminate|]. split; [discriminate|].
        split; intro H; vm_compute in H; discriminate.
      * destruct (existsb is_alpha text) eqn:Ea; cbn [Nat.ltb Nat.leb].
        -- split; [right; now left|]. split; [discriminate|].
           split; [discriminate|].
           split; [intros _; split; reflexivity|].
           intro H; vm_compute in H; discriminate.
        -- split; [right; now right|]. split; [discriminate|].
           split; [discriminate|].
           split; [intro H; vm_compute in H; discriminate|].
           intros _. right. split; reflexivity.
Qed.

Lemma relay_language_detection_witness :
  detectLanguage asciiLowerCase (js "আমি আসছি, wait") = js "bn"
  /\ detectedLanguage (js "আমি আসছি, wait") = js "bn"
  /\ detectLanguage asciiLowerCase (js "   ") = js "auto".
Proof.
  destruct (relay_language_detection asciiLowerCase (js "আমি আসছি, wait"))
    as (_ & _ & Hb & _).
  destruct (relay_language_detection asciiLowerCase (js "   "))
    as (_ & Hblank & _).
  destruct Hb as [H1 H2]; [vm_compute; reflexivity|].
  split; [exact H1|]. split; [exact H2|].
  apply Hblank. vm_compute. reflexivity.
Defined.

(** ** Replying to a cached message *)

Lemma split_on_nonempty (sep : code_unit) (s : jsstring) : split_on sep s <> [].
Proof.
  destruct s as [|c t]; simpl; [discriminate|].
  destruct (cu_eqb c sep); [discriminate|].
  destruct (split_on sep t); discriminate.
Qed.

Lemma split_on_plain (sep : code_unit) (w : jsstring) :
  existsb (fun c => cu_eqb c sep) w = false -> split_on sep w = [w].
Proof.
  induction w as [|c w IH]; simpl; [reflexivity|].
  intro H. apply orb_false_iff in H. destruct H as [Hc Hw].
  rewrite Hc, (IH Hw). reflexivity.
Qed.

Lemma split_on_word (sep : code_unit) (w s : jsstring) :
  existsb (fun c => cu_eqb c sep) w = false ->
  split_on sep (w ++ sep :: s) = w :: split_on sep s.
Proof.
  induction w as [|c w IH]; simpl.
  - intros _. unfold cu_eqb. now rewrite N.eqb_refl.
  - intro H. apply orb_false_iff in H. destruct H as [Hc Hw].
    rewrite Hc, (IH Hw). reflexivity.
Qed.

Lemma join_split_on (sep : code_unit) (s : jsstring) :
  join [sep] (split_on sep s) = s.
Proof.
  induction s as [|c t IH]; [reflexivity|].
  simpl split_on. destruct (cu_eqb c sep) eqn:E.
  - apply N.eqb_eq in E. subst c.
    pose proof (split_on_nonempty sep t) as Hne.
    simpl. destruct (split_on sep t) as [|p ps]; [contradiction|].
    simpl in IH |- *. now rewrite IH.
  - pose proof (split_on_nonempty sep t) as Hne.
    destruct (split_on sep t) as [|p ps]; [contradiction|].
    simpl in IH |- *. destruct ps; simpl in *; now rewrite <- IH.
Qed.

Lemma split_on_length (sep : code_unit) (s : jsstring) :
  length (split_on sep s) = S (length (filter (fun c => cu_eqb c sep) s)).
Proof.
  induction s as [|c t IH]; [reflexivity|].
  simpl. destruct (cu_eqb c sep); simpl; [now rewrite IH|].
  pose proof (split_on_nonempty sep t) as Hne.
  destruct (split_on sep t) as [|p ps]; [contradiction|].
  simpl in *. exact IH.
Qed.

(** X22.  A reply command names a cached message by the word behind
    [!reply]: when the identifier has no space and a [MessageStore] of
    [src/messageStore.js] holds a message under it, [processReplyCommand]
    hands the transport exactly one call, to the chat of that message,
    quoting it, with the rest of the command as text, spaces and all; it
    returns [true] when the transport resolves and [false] when it
    rejects. *)
Theorem reply_command_answers_cached_message
    (send : ReplySocket) (s : RootMessageStore.MessageStore)
    (id text : jsstring) (m : Message) (k : MessageKey) :
  existsb (is_char " ") id = false ->
  RootMessageStore.get s id = Some m ->
  key m = Some k ->
  let request := mkReply (remoteJid k) text m in
  processReplyCommand (Some send) (js "!reply " ++ id ++ js " " ++ text) s
  = ([request], match send request with Returned _ => true | Thrown => false end).
Proof.
  intros Hid Hget Hkey request. unfold processReplyCommand.
  assert (Hstart : startsWith (js "!reply " ++ id ++ js " " ++ text) (js "!reply ")
                   = true) by reflexivity.
  rewrite Hstart. cbn [negb].
  assert (Hparts : split_on (ch " ") (js "!reply " ++ id ++ js " " ++ text)
                   = js "!reply" :: id :: split_on (ch " ") text).
  { change (js "!reply " ++ id ++ js " " ++ text)
      with (js "!reply" ++ ch " " :: (id ++ ch " " :: text)).
    rewrite (@split_on_word (ch " ") (js "!reply")) by reflexivity.
    now rewrite (@split_on_word (ch " ") id text Hid). }
  rewrite Hparts.
  pose proof (split_on_nonempty (ch " ") text) as Hne.
  destruct (split_on (ch " ") text) as [|p ps] eqn:Esplit; [contradiction|].
  cbn [length Nat.ltb Nat.leb nth skipn]. rewrite Hget, Hkey.
  rewrite <- Esplit.
  change (js " ") with [ch " "]. rewrite join_split_on.
  unfold sendReply. fold request.
  destruct (send request); reflexivity.
Qed.

Lemma reply_command_answers_cached_message_witness :
  let s := fst (RootMessageStore.add (RootMessageStore.create None) (Some msgA)) in
  processReplyCommand (Some acceptingReplySocket)
                      (js "!reply A on my  way") s
  = ([mkReply (Some (js "8801@s.whatsapp.net")) (js "on my  way") msgA], true).
Proof.
  intro s.
  apply (@reply_command_answers_cached_message acceptingReplySocket s
           (js "A") (js "on my  way") msgA
           (mkKey (Some (js "A")) (Some (js "8801@s.whatsapp.net")) None));
    vm_compute; reflexivity.
Defined.

(** X23.  [processReplyCommand] never replies to anything but a cached
    message: it hands the transport at most one call, and a call it hands
    quotes the message that the store holds under the second word of the
    command and goes to the chat of that message.  It returns [true] only
    when the transport took that call and resolved.  A command that does
    not start with [!reply ] or has fewer than two spaces sends nothing
    and returns [false], and so does one whose identifier is not
    cached. *)
Theorem reply_command_quotes_only_cached_messages
    (sock : option ReplySocket) (command : jsstring)
    (s : RootMessageStore.MessageStore) :
  let calls := fst (processReplyCommand sock command s) in
  let done := snd (processReplyCommand sock command s) in
  let messageId := nth 1 (split_on (ch " ") command) [] in
  length calls <= 1
  /\ (forall request, In request calls ->
        RootMessageStore.get s messageId = Some (reply_quoted request)
        /\ bind_opt (key (reply_quoted request)) remoteJid = reply_jid request)
  /\ (done = true ->
        exists send request,
          sock = Some send /\ calls = [request] /\ send request <> Thrown)
  /\ (startsWith command (js "!reply ") = false
      \/ length (filter (is_char " ") command) < 2
      \/ RootMessageStore.get s messageId = None ->
      calls = [] /\ done = false).
Proof.
  cbv zeta. unfold processReplyCommand.
  rewrite (split_on_length (ch " ") command).
  change (fun c => cu_eqb c (ch " ")) with (is_char " ").
  destruct (startsWith command (js "!reply ")) eqn:Estart; cbn [negb];
    [|simpl; repeat split; try lia; try discriminate; intros ? []].
  destruct (S (length (filter (is_char " ") command)) <? 3) eqn:Eparts;
    [simpl; repeat split; try lia; try discriminate; intros ? []|].
  apply Nat.ltb_ge in Eparts.
  destruct (RootMessageStore.get s (nth 1 (split_on (ch " ") command) []))
    as [originalMessage|] eqn:Eget;
    [|simpl; repeat split; try lia; try discriminate; intros ? []].
  destruct (key originalMessage) as [k|] eqn:Ekey;
    [|simpl; repeat split; try lia; try discriminate;
      try (intros ? []); intros [H|[H|H]]; try discriminate; lia].
  destruct sock as [send|]; unfold sendReply.
  - destruct (send _) as [sentMessage|] eqn:Esend; cbn [fst snd length].
    + split; [lia|]. split.
      { intros request [<-|[]]. cbn [reply_quoted reply_jid].
        rewrite Ekey. split; reflexivity. }
      split.
      { intros _. exists send. eexists. split; [reflexivity|].
        split; [reflexivity|]. rewrite Esend. discriminate. }
      intros [H|[H|H]]; try discriminate; lia.
    + split; [lia|]. split.
      { intros request [<-|[]]. cbn [reply_quoted reply_jid].
        rewrite Ekey. split; reflexivity. }
      split; [discriminate|].
      intros [H|[H|H]]; try discriminate; lia.
  - cbn [fst snd length]. split; [lia|].
    split; [intros ? []|]. split; [discriminate|].
    intros [H|[H|H]]; try discriminate; lia.
Qed.

Lemma reply_command_quotes_only_cached_messages_witness :
  let s := fst (RootMessageStore.add (RootMessageStore.create None) (Some msgA)) in
  processReplyCommand (Some acceptingReplySocket) (js "!reply B hello") s
  = ([], false)
  /\ processReplyCommand (Some acceptingReplySocket) (js "!reply A") s
     = ([], false).
Proof.
  intro s.
  destruct (reply_command_quotes_only_cached_messages
              (Some acceptingReplySocket) (js "!reply B hello") s)
    as (_ & _ & _ & Hmiss).
  destruct (reply_command_quotes_only_cached_messages
              (Some acceptingReplySocket) (js "!reply A") s)
    as (_ & _ & _ & Hshort).
  destruct Hmiss as [Hc Hd]; [right; right; vm_compute; reflexivity|].
  destruct Hshort as [Hc' Hd']; [right; left; vm_compute; lia|].
  split; apply injective_projections; simpl; assumption.
Defined.

(** ** Texts without a mention *)

Lemma match_here_wrong_start (q : code_unit -> bool) (tail : regex)
    (p : option code_unit) (s : jsstring) :
  hd_error (map q s) <> Some true ->
  match_here (Seq (Chars q) tail) p s = None.
Proof.
  intro H. unfold match_here. simpl.
  destruct s as [|c t]; [reflexivity|].
  simpl in H. destruct (q c); [now elim H | reflexivity].
Qed.

Lemma find_match_wrong_start (q : code_unit -> bool) (tail : regex) (s : jsstring) :
  existsb q s = false ->
  forall p, find_match (Seq (Chars q) tail) p s = None.
Proof.
  induction s as [|c t IH]; intros H p.
  - cbn [find_match]. now rewrite match_here_wrong_start by discriminate.
  - simpl in H. apply orb_false_iff in H. destruct H as [Hc Ht].
    cbn [find_match].
    rewrite match_here_wrong_start by (simpl; rewrite Hc; discriminate).
    now rewrite (IH Ht).
Qed.

Lemma exec_all_wrong_start (q : code_unit -> bool) (tail : regex) (s : jsstring) :
  existsb q s = false -> exec_all (Seq (Chars q) tail) s = [].
Proof.
  intro H. unfold exec_all. cbn [exec_loop].
  now rewrite (@find_match_wrong_start q tail s H).
Qed.

Lemma replace_loop_wrong_start (q : code_unit -> bool) (tail : regex)
    (replacement : jsstring) (fuel : nat) :
  forall (s : jsstring) (p : option code_unit),
    existsb q s = false ->
    replace_loop fuel (Seq (Chars q) tail) replacement p s = s.
Proof.
  induction fuel as [|fuel IH]; intros s p H; [reflexivity|].
  cbn [replace_loop]. destruct s as [|c t].
  - now rewrite match_here_wrong_start by discriminate.
  - simpl in H. apply orb_false_iff in H. destruct H as [Hc Ht].
    rewrite match_here_wrong_start by (simpl; rewrite Hc; discriminate).
    now rewrite (IH t (Some c) Ht).
Qed.

Lemma atPositionsFrom_none (s : jsstring) :
  existsb (is_char "@") s = false -> forall i, atPositionsFrom i s = [].
Proof.
  induction s as [|c t IH]; intros H i; [reflexivity|].
  simpl in H. apply orb_false_iff in H. destruct H as [Hc Ht].
  simpl. rewrite Hc. now apply IH.
Qed.

(** The pieces of a split hold code units of the text only. *)
Lemma split_loop_units (r : regex) (fuel : nat) :
  forall (p : option code_unit) (piece s : jsstring),
    Forall (fun w => forall c, In c w -> In c (piece ++ s))
           (split_loop fuel r p piece s).
Proof.
  induction fuel as [|fuel IH]; intros p piece s.
  - simpl. constructor; [|constructor]. intros c Hc. exact Hc.
  - cbn [split_loop]. destruct s as [|c t].
    + constructor; [|constructor]. intros x Hx. apply in_or_app. now left.
    + assert (Hadv : Forall (fun w => forall x, In x w -> In x (piece ++ c :: t))
                            (split_loop fuel r (Some c) (piece ++ [c]) t)).
      { eapply Forall_impl; [|apply IH]. intros w Hw x Hx.
        specialize (Hw x Hx). now rewrite <- app_assoc in Hw. }
      destruct (match_here r p (c :: t)) as [st|] eqn:Em; [|exact Hadv].
      assert (Hcut : Forall (fun w => forall x, In x w -> In x (piece ++ c :: t))
                            (piece :: split_loop fuel r (prev st) [] (rest st))).
      { constructor.
        - intros x Hx. apply in_or_app. now left.
        - eapply Forall_impl; [|apply IH]. intros w Hw x Hx.
          specialize (Hw x Hx). simpl in Hw.
          unfold match_here in Em. apply hd_error_in in Em.
          apply run_consumes in Em. destruct Em as (u & E & _ & _).
          simpl in E. rewrite E. apply in_or_app. right.
          apply in_or_app. now right. }
      destruct piece as [|y piece]; [|exact Hcut].
      destruct (pos st =? 0); [exact Hadv | exact Hcut].
Qed.

Lemma split_by_units (r : regex) (s : jsstring) :
  Forall (fun w => forall c, In c w -> In c s) (split_by r s).
Proof.
  unfold split_by. destruct s as [|c t].
  - destruct (match_here r None []); constructor; [|constructor].
    intros c [].
  - apply (split_loop_units r (S (2 * length (c :: t))) None [] (c :: t)).
Qed.

Lemma alternativeNumbers_none (text : jsstring) :
  existsb (is_char "@") text = false -> alternativeNumbers text = [].
Proof.
  intro H. unfold alternativeNumbers.
  pose proof (split_by_units (Plus (Chars is_space)) text) as Hunits.
  induction Hunits as [|word words Hword _ IH]; [reflexivity|].
  cbn [flat_map]. rewrite IH, app_nil_r.
  destruct word as [|c word]; [reflexivity|].
  assert (Hc : is_char "@" c = false).
  { destruct (is_char "@" c) eqn:E; [|reflexivity].
    assert (Hex : existsb (is_char "@") text = true)
      by (apply existsb_exists; exists c; split; [apply Hword; now left | exact E]).
    congruence. }
  change (startsWith (c :: word) (js "@")) with (cu_eqb c (ch "@") && true).
  change (cu_eqb c (ch "@")) with (is_char "@" c). now rewrite Hc.
Qed.

Lemma extractMentionedNumbers_none (text : jsstring) :
  existsb (is_char "@") text = false -> extractMentionedNumbers text = [].
Proof.
  intro H. unfold extractMentionedNumbers. destruct text as [|c t] eqn:E;
    [reflexivity|]. rewrite <- E in *.
  unfold mentionRegex. rewrite (@exec_all_wrong_start _ _ text H). simpl.
  now apply alternativeNumbers_none.
Qed.

Lemma extractMentionedNames_none (text : jsstring) :
  existsb (is_char "@") text = false -> extractMentionedNames text = [].
Proof.
  intro H. unfold extractMentionedNames. destruct text as [|c t] eqn:E;
    [reflexivity|]. rewrite <- E in *.
  unfold underscoreNameRegex, atSymbolPositions.
  rewrite (@exec_all_wrong_start _ _ text H), (@atPositionsFrom_none text H).
  reflexivity.
Qed.

(** X24.  A text without [@] mentions no one: [extractMentionedNumbers]
    and [extractMentionedNames] both return the empty list, also through
    the word-by-word fallback; [extractActualMessage] with these lists
    only collapses and trims the white space of the text; and
    [handleMentions] on these lists sends nothing and reports nothing,
    whatever the transport and the records. *)
Theorem text_without_at_is_not_relayed
    (toLowerCase toUpperCase : jsstring -> jsstring)
    (enhanceMessageWithAI :
       jsstring -> jsstring -> option jsstring -> jsstring -> bool -> jsstring)
    (text : jsstring) :
  existsb (is_char "@") text = false ->
  extractMentionedNumbers text = []
  /\ extractMentionedNames text = []
  /\ extractActualMessage text (extractMentionedNames text)
                          (extractMentionedNumbers text)
     = trim (replace_all spaces (js " ") text)
  /\ forall sock fs log message groupName senderName,
       handleMentions toLowerCase toUpperCase enhanceMessageWithAI
                      sock fs log message
                      (Some (mkMetadata (extractMentionedNumbers text)
                                        (extractMentionedNames text) text
                                        groupName senderName))
       = Returned (log, []).
Proof.
  intro H.
  rewrite (@extractMentionedNumbers_none text H), (@extractMentionedNames_none text H).
  split; [reflexivity|]. split; [reflexivity|]. split.
  - unfold extractActualMessage. destruct text as [|c t] eqn:E; [reflexivity|].
    rewrite <- E in *. cbn [removeMentions fold_left].
    unfold leftoverMention at 1. unfold replace_all at 2.
    now rewrite (@replace_loop_wrong_start _ _ _ _ _ _ H).
  - intros sock fs log message groupName senderName. unfold handleMentions.
    destruct sock, message; reflexivity.
Qed.

Lemma text_without_at_is_not_relayed_witness :
  extractMentionedNumbers (js "call 8801712345678  now ") = []
  /\ extractActualMessage (js "call 8801712345678  now ") [] []
     = js "call 8801712345678 now".
Proof.
  destruct (@text_without_at_is_not_relayed asciiLowerCase asciiUpperCase verbatim
              (js "call 8801712345678  now "))
    as (Hnumbers & Hnames & Hmessage & _); [vm_compute; reflexivity|].
  split; [exact Hnumbers|].
  rewrite Hnumbers, Hnames in Hmessage. rewrite Hmessage. vm_compute. reflexivity.
Defined.

(** ** The relayed text has normalized white space *)

Lemma class_run (p : code_unit -> bool) (s : jsstring) :
  exists u v, s = u ++ v
              /\ forallb p u = true
              /\ match v with d :: _ => p d = false | [] => True end.
Proof.
  induction s as [|c s (u & v & E & Hu & Hv)].
  - now exists [], [].
  - destruct (p c) eqn:Hc.
    + exists (c :: u), v. simpl. rewrite Hc, Hu, E. now repeat split.
    + exists [], (c :: s). now repeat split.
Qed.

Lemma match_here_spaces_none (p : option code_unit) (s : jsstring) :
  starts_plain s = true -> match_here spaces p s = None.
Proof.
  intro H. unfold match_here, spaces, Plus. rewrite run_seq.
  rewrite run_chars_fail; [reflexivity|]. simpl.
  destruct s as [|c t]; [exact I|]. simpl in H.
  now apply negb_true_iff in H.
Qed.

Lemma match_here_spaces_run (p : option code_unit) (c : code_unit)
    (t : jsstring) :
  is_space c = true ->
  exists st, match_here spaces p (c :: t) = Some st
             /\ 0 < pos st /\ starts_plain (rest st) = true
             /\ length (rest st) <= length t.
Proof.
  intro Hc. destruct (class_run is_space t) as (u & v & E & Hu & Hv).
  assert (Hcu : forallb is_space (c :: u) = true) by (simpl; now rewrite Hc).
  pose proof (first_plus_chars is_space c u 0 p v [] Hcu Hv) as Hfirst.
  eexists. split.
  - unfold match_here, spaces. rewrite E. exact Hfirst.
  - cbn [pos rest]. split; [simpl; lia|]. split.
    + destruct v as [|d v]; [reflexivity|]. simpl. now rewrite Hv.
    + rewrite E, length_app. lia.
Qed.

(** Collapsing the runs of white space leaves single U+0020. *)
Lemma collapse_single_spaced (fuel : nat) :
  forall (s : jsstring) (p : option code_unit),
    length s < fuel ->
    single_spaced (replace_loop fuel spaces (js " ") p s) = true
    /\ (starts_plain s = true ->
        starts_plain (replace_loop fuel spaces (js " ") p s) = true).
Proof.
  induction fuel as [|fuel IH]; intros s p Hlen; [lia|].
  cbn [replace_loop]. destruct s as [|c t].
  - rewrite match_here_spaces_none by reflexivity. now split.
  - simpl in Hlen. destruct (is_space c) eqn:Hc.
    + destruct (@match_here_spaces_run p c t Hc) as (st & Hm & Hpos & Hplain & Hrest).
      rewrite Hm. apply Nat.ltb_lt in Hpos. rewrite Hpos.
      destruct (IH (rest st) (prev st)) as [Hs Hp]; [lia|].
      split; [|simpl; rewrite Hc; discriminate].
      change (js " " ++ replace_loop fuel spaces (js " ") (prev st) (rest st))
        with (ch " " :: replace_loop fuel spaces (js " ") (prev st) (rest st)).
      cbn [single_spaced]. rewrite Hs, (Hp Hplain). reflexivity.
    + rewrite match_here_spaces_none by (simpl; now rewrite Hc).
      destruct (IH t (Some c)) as [Hs _]; [lia|].
      split; [|intros _; simpl; now rewrite Hc].
      cbn [single_spaced]. now rewrite Hc, Hs.
Qed.

Lemma single_spaced_suffix (u a : jsstring) :
  single_spaced (u ++ a) = true -> single_spaced a = true.
Proof.
  induction u as [|c u IH]; [trivial|].
  simpl. intro H. apply andb_true_iff in H. now apply IH.
Qed.

Lemma single_spaced_prefix (a b : jsstring) :
  single_spaced (a ++ b) = true -> single_spaced a = true.
Proof.
  induction a as [|c a IH]; [reflexivity|].
  simpl. intro H. apply andb_true_iff in H. destruct H as [Hc Ha].
  rewrite (IH Ha), andb_true_r.
  destruct (is_space c); [|reflexivity]. simpl in *.
  apply andb_true_iff in Hc. destruct Hc as [-> Hnext]. simpl.
  destruct a; [reflexivity | exact Hnext].
Qed.

Lemma trimStart_plain (s : jsstring) : starts_plain (trimStart s) = true.
Proof.
  destruct (trimStart s) as [|c t] eqn:E; [reflexivity|].
  simpl. now rewrite (@trimStart_head _ _ _ E).
Qed.

Lemma trimStart_of_plain (s : jsstring) :
  starts_plain s = true -> trimStart s = s.
Proof.
  destruct s as [|c t]; [reflexivity|]. simpl. intro H.
  apply negb_true_iff in H. now rewrite H.
Qed.

(** [trim] cuts a piece out of the text. *)
Lemma trim_infix (s : jsstring) : exists u v, s = u ++ trim s ++ v.
Proof.
  destruct (trimStart_suffix s) as (u & Hu).
  destruct (trimStart_suffix (rev (trimStart s))) as (w & Hw).
  exists u, (rev w). unfold trim. rewrite <- rev_app_distr, <- Hw, rev_involutive.
  exact Hu.
Qed.

Lemma trim_ends_plain (s : jsstring) :
  starts_plain (trim s) = true /\ starts_plain (rev (trim s)) = true.
Proof.
  split.
  - destruct (trimStart_suffix (rev (trimStart s))) as (w & Hw).
    assert (Ha : trimStart s = trim s ++ rev w).
    { unfold trim. rewrite <- rev_app_distr, <- Hw. now rewrite rev_involutive. }
    pose proof (trimStart_plain s) as Hp. rewrite Ha in Hp.
    destruct (trim s); [reflexivity | exact Hp].
  - unfold trim. rewrite rev_involutive. apply trimStart_plain.
Qed.

Lemma trim_normalized (s : jsstring) :
  single_spaced s = true -> normalized (trim s) = true.
Proof.
  intro H. destruct (trim_infix s) as (u & v & E).
  destruct (trim_ends_plain s) as [Hhead Hlast].
  unfold normalized. rewrite Hhead, Hlast.
  rewrite E in H. apply single_spaced_suffix, single_spaced_prefix in H.
  now rewrite H.
Qed.

Lemma normalized_trim (s : jsstring) : normalized s = true -> trim s = s.
Proof.
  unfold normalized. intro H.
  apply andb_true_iff in H. destruct H as [H Hlast].
  apply andb_true_iff in H. destruct H as [Hhead _].
  unfold trim. rewrite (@trimStart_of_plain _ Hhead), (@trimStart_of_plain _ Hlast).
  apply rev_involutive.
Qed.

(** X25.  The text that [extractActualMessage] returns has normalized
    white space, whatever the message and the mention lists: it neither
    starts nor ends with white space, every white space code unit in it
    is a single U+0020 that no white space follows, and trimming it
    again changes nothing. *)
Theorem actual_message_is_whitespace_normalized
    (messageText : jsstring) (mentionedNames mentionedNumbers : list jsstring) :
  let actualMessage :=
    extractActualMessage messageText mentionedNames mentionedNumbers in
  normalized actualMessage = true
  /\ trim actualMessage = actualMessage
  /\ forall before c after,
       actualMessage = before ++ c :: after ->
       is_space c = true ->
       c = ch " " /\ before <> [] /\ starts_plain after = true /\ after <> [].
Proof.
  cbv zeta.
  assert (Hn : normalized (extractActualMessage messageText mentionedNames
                                                mentionedNumbers) = true).
  { unfold extractActualMessage. destruct messageText as [|c0 t0]; [reflexivity|].
    apply trim_normalized. unfold replace_all.
    apply collapse_single_spaced. lia. }
  split; [exact Hn|]. split; [now apply normalized_trim|].
  intros before c after E Hc. rewrite E in Hn. unfold normalized in Hn.
  apply andb_true_iff in Hn. destruct Hn as [Hn Hlast].
  apply andb_true_iff in Hn. destruct Hn as [Hhead Hsingle].
  apply single_spaced_suffix in Hsingle. simpl in Hsingle. rewrite Hc in Hsingle.
  simpl in Hsingle. apply andb_true_iff in Hsingle. destruct Hsingle as [Hsp _].
  apply andb_true_iff in Hsp. destruct Hsp as [Hcu Hafter].
  split; [now apply N.eqb_eq in Hcu|]. split.
  { intros ->. simpl in Hhead. rewrite Hc in Hhead. discriminate. }
  split; [exact Hafter|].
  intros ->. rewrite rev_app_distr in Hlast. simpl in Hlast.
  rewrite Hc in Hlast. discriminate.
Qed.

Lemma actual_message_is_whitespace_normalized_witness :
  normalized (extractActualMessage (js "@Karim   please  call me ")
                                   [js "Karim"] []) = true
  /\ extractActualMessage (js "@Karim   please  call me ") [js "Karim"] []
     = js "please call me".
Proof.
  destruct (actual_message_is_whitespace_normalized
              (js "@Karim   please  call me ") [js "Karim"] [])
    as (Hnormalized & _ & _).
  split; [exact Hnormalized | vm_compute; reflexivity].
Defined.

(** ** Listing the stored records *)

Lemma map_set_in {K V : Type} (keqb : K -> K -> bool)
    (keqb_spec : forall a b, keqb a b = true <-> a = b)
    (k : K) (v : V) (m : omap K V) :
  In (k, v) (map_set keqb k v m).
Proof.
  induction m as [|[k' v'] m IH]; simpl; [now left|].
  destruct (keqb k k') eqn:E; [|now right].
  apply keqb_spec in E. subst k'. now left.
Qed.

Lemma dir_eqb_eq (a b : DataDir) : dir_eqb a b = true <-> a = b.
Proof. destruct a, b; simpl; split; intro H; congruence. Qed.

Lemma readRecords_in (d : DataDir) (t : UserType) (fs : FileSystem)
    (data : UserData) (t' : UserType) :
  In (data, t') (readRecords d t fs)
  <-> t' = t /\ exists file, In ((d, file), Json data) fs
                             /\ endsWith file (js ".json") = true.
Proof.
  unfold readRecords. rewrite in_flat_map. split.
  - intros ([[d' file] [userData|]] & Hin & Hentry); [|destruct Hentry].
    destruct (dir_eqb d' d && endsWith file (js ".json")) eqn:E; [|destruct Hentry].
    destruct Hentry as [Hentry|[]]. injection Hentry as -> ->.
    apply andb_true_iff in E. destruct E as [Ed Ef].
    apply dir_eqb_eq in Ed. subst d'. split; [reflexivity|]. now exists file.
  - intros (-> & file & Hin & Hf). exists ((d, file), Json data).
    split; [exact Hin|]. rewrite (proj2 (dir_eqb_eq d d) eq_refl), Hf.
    now left.
Qed.

Lemma readRecords_length (fs : FileSystem) :
  length (readRecords INBOX_DATA_DIR inbox fs)
  + length (readRecords GROUP_DATA_DIR group fs) <= length fs.
Proof.
  induction fs as [|[[d file] [userData|]] fs IH]; simpl; [lia| |lia].
  destruct d; simpl; destruct (endsWith file (js ".json")); simpl; lia.
Qed.

(** X26.  [getAllUsers] lists what the record files hold.  A record
    written by [saveUserData] is listed afterwards, as it was written and
    with the kind of its directory, [group] or [inbox].  Every listed
    record is the content of a [.json] file of the directory of its kind,
    files that cannot be parsed being skipped, and the list is never
    longer than the number of files. *)
Theorem saved_records_are_listed (env : Env) (fs : FileSystem)
    (userId : jsstring) (isGroup : bool) (userData : UserData) :
  let directoryOf := fun t => match t with
                              | inbox => INBOX_DATA_DIR
                              | group => GROUP_DATA_DIR
                              end in
  In (set_profile userData (set_updatedAt (profile userData) (now env)),
      if isGroup then group else inbox)
     (getAllUsers (saveUserData env fs userId isGroup userData))
  /\ (forall data t,
        In (data, t) (getAllUsers fs) ->
        exists file, In ((directoryOf t, file), Json data) fs
                     /\ endsWith file (js ".json") = true)
  /\ length (getAllUsers fs) <= length fs.
Proof.
  cbv zeta. split; [|split].
  - unfold getAllUsers, saveUserData, getUserDataPath. apply in_or_app.
    set (cleanId := replace_all unsafeForFilenames (js "_") userId).
    set (written := Json _).
    pose proof (@map_set_in _ _ path_eqb path_eqb_spec
                  (if isGroup then GROUP_DATA_DIR else INBOX_DATA_DIR,
                   cleanId ++ js ".json") written fs) as Hin.
    destruct isGroup; [right | left]; apply readRecords_in;
      (split; [reflexivity|]); exists (cleanId ++ js ".json");
      (split; [exact Hin | apply endsWith_app]).
  - intros data t Hin. unfold getAllUsers in Hin. apply in_app_or in Hin.
    destruct Hin as [Hin|Hin]; apply readRecords_in in Hin;
      destruct Hin as (-> & file & Hfile & Hjson); now exists file.
  - unfold getAllUsers. rewrite length_app. apply readRecords_length.
Qed.

(** ** A root store that holds [maxSize] messages evicts first-in first-out *)

Lemma embeds_empty (q : list jsstring) : embeds [] q.
Proof. induction q; constructor; assumption. Qed.

Lemma embeds_refl (l : list jsstring) : embeds l l.
Proof. induction l; constructor; assumption. Qed.

Lemma embeds_length (l q : list jsstring) : embeds l q -> length l <= length q.
Proof. induction 1; simpl; lia. Qed.

Lemma embeds_same_length (l q : list jsstring) :
  embeds l q -> length q <= length l -> l = q.
Proof.
  induction 1 as [|x l q H IH|y l q H IH]; simpl; intro Hlen.
  - reflexivity.
  - f_equal. apply IH. lia.
  - apply embeds_length in H. lia.
Qed.

Lemma embeds_trans (a b c : list jsstring) :
  embeds a b -> embeds b c -> embeds a c.
Proof.
  intros Hab Hbc. revert a Hab.
  induction Hbc as [|x b c H IH|y b c H IH]; intros a Hab.
  - exact Hab.
  - inversion Hab as [|x' a' b' Ha|y' a' b' Ha]; subst.
    + constructor. now apply IH.
    + apply embeds_skip. now apply IH.
  - apply embeds_skip. now apply IH.
Qed.

Lemma embeds_push (l q : list jsstring) (x : jsstring) :
  embeds l q -> embeds l (q ++ [x]) /\ embeds (l ++ [x]) (q ++ [x]).
Proof.
  induction 1 as [|y l q H [IH1 IH2]|y l q H [IH1 IH2]]; simpl.
  - split; [apply embeds_empty | apply embeds_refl].
  - split; now constructor.
  - split; now apply embeds_skip.
Qed.

Lemma embeds_queue_remove (y : jsstring) (l : list jsstring) :
  embeds (RootMessageStore.queue_remove y l) l.
Proof.
  induction l as [|x l IH]; simpl; [constructor|].
  destruct (str_eqb x y).
  - apply embeds_skip, embeds_refl.
  - now constructor.
Qed.

Lemma queue_remove_absent (y : jsstring) (l : list jsstring) :
  NoDup l -> ~ In y (RootMessageStore.queue_remove y l).
Proof.
  induction l as [|x l IH]; simpl; intros Hnd; [tauto|].
  inversion Hnd as [|? ? Hx Hl]; subst.
  destruct (str_eqb x y) eqn:E.
  - apply str_eqb_spec in E. now subst.
  - apply str_eqb_neq in E. intros [Hxy|Hin]; [contradiction|].
    now apply IH.
Qed.

Lemma embeds_without (y : jsstring) (l q : list jsstring) :
  embeds l q -> ~ In y l -> embeds l (RootMessageStore.queue_remove y q).
Proof.
  induction 1 as [|x l q H IH|z l q H IH]; simpl; intro Hn.
  - constructor.
  - destruct (str_eqb x y) eqn:E.
    + apply str_eqb_spec in E. subst. exfalso. apply Hn. now left.
    + constructor. apply IH. intro Hin. apply Hn. now right.
  - destruct (str_eqb z y); [exact H|].
    apply embeds_skip. now apply IH.
Qed.

(** Taking the head off the queue and its identifier out of the map. *)
Lemma embeds_shift (y : jsstring) (l q : list jsstring) :
  embeds l (y :: q) -> embeds (RootMessageStore.queue_remove y l) q.
Proof.
  intro H. inversion H as [|x l' q' H'|z l' q' H']; subst.
  - simpl. now rewrite str_eqb_refl.
  - eapply embeds_trans; [apply embeds_queue_remove | exact H'].
Qed.

Lemma embeds_set (id : jsstring) (m : Message) (msgs : omap jsstring Message)
    (q : list jsstring) :
  embeds (map_keys msgs) q ->
  embeds (map_keys (map_set str_eqb id m msgs)) (q ++ [id]).
Proof.
  intro H. destruct (map_has str_eqb id msgs) eqn:Ehas.
  - rewrite (map_set_keys str_eqb id m msgs Ehas). now apply embeds_push.
  - rewrite (map_set_fresh str_eqb id m msgs Ehas).
    unfold map_keys. rewrite map_app. now apply embeds_push.
Qed.

Lemma root_add_ordered (s : RootMessageStore.MessageStore)
    (message : option Message) :
  root_ordered s -> root_ordered (fst (RootMessageStore.add s message)).
Proof.
  intros [Hb He]. split; [now apply root_add_bounded|].
  unfold RootMessageStore.add.
  destruct message as [m|]; [|exact He].
  destruct (RootMessageStore.valid_id (Some m)) as [messageId|]; [|exact He].
  destruct (RootMessageStore.maxSize s <=? length (RootMessageStore.messageQueue s)).
  - destruct (RootMessageStore.messageQueue s) as [|oldestId rest'] eqn:Eq;
      cbn [fst RootMessageStore.messages RootMessageStore.messageQueue].
    + now apply embeds_set.
    + apply embeds_set. rewrite <- queue_remove_keys. now apply embeds_shift.
  - cbn [fst RootMessageStore.messages RootMessageStore.messageQueue].
    now apply embeds_set.
Qed.

Lemma root_remove_ordered (s : RootMessageStore.MessageStore) (id : jsstring) :
  root_ordered s -> root_ordered (fst (RootMessageStore.remove s id)).
Proof.
  intros [Hb He]. split; [now apply root_remove_bounded|].
  unfold RootMessageStore.remove.
  destruct (RootMessageStore.has s id); [|exact He].
  cbn [fst RootMessageStore.messages RootMessageStore.messageQueue].
  rewrite <- queue_remove_keys.
  destruct Hb as (_ & _ & Hnd & _).
  apply embeds_without; [|now apply queue_remove_absent].
  eapply embeds_trans; [apply embeds_queue_remove | exact He].
Qed.

Lemma root_calls_ordered (calls : list RootCall) :
  forall s, root_ordered s -> root_ordered (root_calls calls s).
Proof.
  induction calls as [|c calls IH]; intros s H; [exact H|].
  unfold root_calls in *. cbn [fold_left]. apply IH.
  destruct c as [message|messageId|]; cbn [root_call].
  - now apply root_add_ordered.
  - now apply root_remove_ordered.
  - destruct H as [(Hmax & _) _]. split; [|constructor].
    unfold root_bounded; simpl.
    split; [assumption|]. split; [lia|]. split; [constructor | intros k []].
Qed.

(** A store that holds as many messages as its queue is long has the
    queue in step with the map. *)
Lemma root_full_in_step (s : RootMessageStore.MessageStore) :
  root_ordered s ->
  RootMessageStore.size s = RootMessageStore.maxSize s ->
  root_consistent s.
Proof.
  intros [(Hmax & Hlen & Hnd & Hincl) He] Hfull.
  assert (E : map_keys (RootMessageStore.messages s)
              = RootMessageStore.messageQueue s).
  { apply embeds_same_length; [exact He|].
    unfold RootMessageStore.size, map_size in Hfull.
    unfold map_keys. rewrite length_map. lia. }
  split; [now symmetry | now rewrite <- E].
Qed.

(** X27.  Whatever calls were made on a store of [src/messageStore.js]
    since its construction, [add], also of cached identifiers, [remove]
    and [clear] in any order: when the store holds [maxSize] messages,
    adding a message with an identifier that is not cached evicts the
    message that was inserted first and no other, every other message
    keeps its place and the new one comes last. *)
Theorem root_full_store_evicts_oldest (optMaxSize : option nat)
    (calls : list RootCall) (m : Message) (id : jsstring) :
  let s := root_calls calls (RootMessageStore.create optMaxSize) in
  RootMessageStore.size s = RootMessageStore.maxSize s ->
  has_id m id ->
  RootMessageStore.has s id = false ->
  exists oldest others,
    RootMessageStore.messages s = oldest :: others
    /\ RootMessageStore.messages (fst (RootMessageStore.add s (Some m)))
       = others ++ [(id, m)]
    /\ RootMessageStore.get (fst (RootMessageStore.add s (Some m))) (fst oldest)
       = None.
Proof.
  intros s Hfull Hid Hfresh.
  assert (Hord : root_ordered s).
  { apply root_calls_ordered. split; [apply root_create_bounded | constructor]. }
  pose proof (root_full_in_step Hord Hfull) as Hstep.
  destruct Hord as [(Hmax & _ & Hnd & _) _].
  destruct (@root_fifo_in_step s m id Hstep Hid Hfresh) as (_ & _ & Hevict & _);
    [lia|].
  destruct (Hevict Hfull) as (oldest & others & Hs & Hs').
  exists oldest, others. split; [exact Hs|]. split; [exact Hs'|].
  unfold RootMessageStore.get. rewrite Hs'.
  unfold RootMessageStore.has, map_has in Hfresh.
  rewrite Hs in Hnd, Hfresh. destruct oldest as [k v]. cbn [fst].
  cbn [map_get] in Hfresh.
  destruct (str_eqb id k) eqn:Eid; [discriminate|].
  simpl in Hnd. inversion Hnd as [|? ? Hk Hrest]; subst.
  clear - Hk Eid. induction others as [|[k' v'] others IH]; simpl.
  - rewrite str_eqb_sym, Eid. reflexivity.
  - destruct (str_eqb k k') eqn:E.
    + apply str_eqb_spec in E. subst k'. exfalso. apply Hk. now left.
    + apply IH. intro Hin. apply Hk. now right.
Qed.

Lemma root_full_store_evicts_oldest_witness :
  let s := root_calls [RootAdd (Some msgA); RootAdd (Some msgA);
                       RootAdd (Some msgB); RootAdd (Some msgA)]
                      (RootMessageStore.create (Some 2)) in
  RootMessageStore.get s (js "B") = Some msgB
  /\ RootMessageStore.get (fst (RootMessageStore.add s (Some msgC))) (js "B")
     = None
  /\ map_keys (RootMessageStore.messages (fst (RootMessageStore.add s (Some msgC))))
     = [js "A"; js "C"].
Proof.
  intro s. split; [vm_compute; reflexivity|].
  destruct (@root_full_store_evicts_oldest (Some 2)
              [RootAdd (Some msgA); RootAdd (Some msgA);
               RootAdd (Some msgB); RootAdd (Some msgA)] msgC (js "C"))
    as (oldest & others & Hs & Hs' & Hmiss).
  - vm_compute. reflexivity.
  - split; [vm_compute; reflexivity | vm_compute; discriminate].
  - vm_compute. reflexivity.
  - fold s in Hs, Hs', Hmiss.
    assert (Eo : fst oldest = js "B").
    { assert (Hk : map_keys (RootMessageStore.messages s)
                   = fst oldest :: map_keys others) by (now rewrite Hs).
      vm_compute in Hk. injection Hk as Hk _. symmetry. exact Hk. }
    rewrite Eo in Hmiss. split; [exact Hmiss|].
    vm_compute. reflexivity.
Defined.
